(** * Total Variation L1 denoising: a shallow embedding of [total_variation.py]

    The class [TotalVariation] of the repository is embedded function by
    function.  Conventions of the embedding:

    - numpy [float64] arithmetic is idealised as exact arithmetic over the
      rationals [Q]; equality of computed values is therefore [Qeq] ([==]).
      A quotient [x / 0], which numpy evaluates to [inf] or [nan] with a
      warning, is [0] in [Q]: statements about values are meaningful where
      the denominators are non-zero (the stopping test of [transform], whose
      denominator can be zero, treats that case as numpy does);
    - Python integers (shapes, slice bounds, [max_iter]) are [Z], because the
      source subtracts them below zero ([h - self.length], [ret[:-k]]);
    - a 1-D array is a [list Q]; a 2-D array is a record with its shape and
      its list of rows;
    - an exception raised by numpy is the [Raise] outcome of the [result]
      monad; in-place updates are explicit state passing;
    - [np.linalg.norm] needs a square root, which [Q] does not have: the
      square root is a parameter of [transform]. *)

From Stdlib Require Import List ZArith QArith Qminmax Qabs Lia Lqa Bool Arith.
Import ListNotations.

Set Implicit Arguments.

(** ** Outcomes *)

Inductive exn : Type :=
| ValueError   (* negative array size, shapes that do not broadcast *)
| IndexError.  (* np.insert out of bounds *)

Inductive result (A : Type) : Type :=
| Ok (a : A)
| Raise (e : exn).

Arguments Ok {A} a.
Arguments Raise {A} e.

Definition bind {A B} (c : result A) (k : A -> result B) : result B :=
  match c with
  | Ok a => k a
  | Raise e => Raise e
  end.

Notation "x <- c ;; k" := (bind c (fun x => k))
  (at level 61, c at next level, right associativity).
Notation "' pat <- c ;; k" := (bind c (fun x => match x with pat => k end))
  (at level 61, pat pattern, c at next level, right associativity).

Fixpoint foldM {A B} (f : A -> B -> result A) (l : list B) (a : A) : result A :=
  match l with
  | [] => Ok a
  | x :: l' => a' <- f a x ;; foldM f l' a'
  end.

(** Python's [enumerate]. *)
Definition enumerate {A} (l : list A) : list (nat * A) :=
  combine (seq 0 (length l)) l.

(** ** The numpy operations the source uses, on 1-D arrays *)

Module Np.

(** [np.zeros(n)], [np.full(n, x)]: a negative size raises. *)
Definition full (n : Z) (x : Q) : result (list Q) :=
  if (n <? 0)%Z then Raise ValueError else Ok (repeat x (Z.to_nat n)).

Definition zeros (n : Z) : result (list Q) := full n 0.

(** A slice bound [i] of a sequence of length [n], as Python normalises
    it: a negative bound counts from the end, and both are clamped. *)
Definition bound (n : nat) (i : Z) : nat :=
  if (i <? 0)%Z then Z.to_nat (Z.max 0 (i + Z.of_nat n))
  else Nat.min n (Z.to_nat i).

Definition start_of (n : nat) (start : option Z) : nat :=
  match start with None => 0 | Some s => bound n s end.

Definition stop_of (n : nat) (stop : option Z) : nat :=
  match stop with None => n | Some s => bound n s end.

(** [l[start:stop]] *)
Definition slice {A} (l : list A) (start stop : option Z) : list A :=
  let a := start_of (length l) start in
  let b := stop_of (length l) stop in
  firstn (b - a) (skipn a l).

Fixpoint map2 (f : Q -> Q -> Q) (a b : list Q) : list Q :=
  match a, b with
  | x :: a', y :: b' => f x y :: map2 f a' b'
  | _, _ => []
  end.

(** [c * a] for a scalar [c]. *)
Definition scale (c : Q) (a : list Q) : list Q := map (Qmult c) a.

(** Element-wise binary operator with numpy's broadcasting of 1-D
    operands: equal lengths, or one operand of length 1. *)
Definition broadcast (f : Q -> Q -> Q) (a b : list Q) : result (list Q) :=
  if length a =? length b then Ok (map2 f a b)
  else match a, b with
       | [x], _ => Ok (map (f x) b)
       | _, [y] => Ok (map (fun x => f x y) a)
       | _, _ => Raise ValueError
       end.

(** The operand of an in-place operation or of an assignment is broadcast
    to the shape of the target, which cannot grow. *)
Definition broadcast_to (m : nat) (vals : list Q) : result (list Q) :=
  if length vals =? m then Ok vals
  else match vals with
       | [y] => Ok (repeat y m)
       | _ => Raise ValueError
       end.

(** [ret[start:stop] += vals] *)
Definition iadd (ret : list Q) (start stop : option Z) (vals : list Q)
  : result (list Q) :=
  let a := start_of (length ret) start in
  let b := stop_of (length ret) stop in
  vals' <- broadcast_to (b - a) vals ;;
  Ok (firstn a ret ++ map2 Qplus (firstn (b - a) (skipn a ret)) vals'
        ++ skipn (a + (b - a)) ret).

(** [ret[start:stop] += c] for a scalar [c]. *)
Definition iadd_scalar (ret : list Q) (start stop : option Z) (c : Q)
  : list Q :=
  let a := start_of (length ret) start in
  let b := stop_of (length ret) stop in
  firstn a ret ++ map (fun x => x + c) (firstn (b - a) (skipn a ret))
    ++ skipn (a + (b - a)) ret.

(** [ret[start:stop] = vals] *)
Definition assign (ret : list Q) (start stop : option Z) (vals : list Q)
  : result (list Q) :=
  let a := start_of (length ret) start in
  let b := stop_of (length ret) stop in
  vals' <- broadcast_to (b - a) vals ;;
  Ok (firstn a ret ++ vals' ++ skipn (a + (b - a)) ret).

(** [np.roll(l, -k)]: the entry at index [j] of the result is the entry
    at index [(j + k) mod n] of [l]. *)
Definition roll {A} (l : list A) (k : nat) : list A :=
  match length l with
  | O => l
  | S _ => skipn (k mod length l) l ++ firstn (k mod length l) l
  end.

(** [np.clip(l, lo, hi)] is [minimum(maximum(l, lo), hi)]. *)
Definition clip (l : list Q) (lo hi : Q) : list Q :=
  map (fun x => Qmin (Qmax x lo) hi) l.

Definition abs (l : list Q) : list Q := map Qabs l.

Definition sum (l : list Q) : Q := fold_right Qplus 0 l.

(** [np.tile(l, n)] *)
Definition tile (l : list Q) (n : nat) : list Q := concat (repeat l n).

(** [1. / l] *)
Definition reciprocal (l : list Q) : list Q := map (fun x => 1 / x) l.

(** [np.insert(v, idx, 0)] for a list of indices: every index refers to a
    position of [v] (negative ones from the end), and a zero is placed
    before that position for each occurrence of the index; an index
    above [n] raises.  (An index below [-n] raises too when it is the only
    one; among several numpy wraps it around instead.  The source builds
    its indices as [j * (w - length + i)] with [j >= 1], which are
    negative only for [w < length], where [_tv] has already raised.) *)
Fixpoint insert_at (idx : list nat) (p : nat) (v : list Q) : list Q :=
  repeat 0 (count_occ Nat.eq_dec idx p) ++
  match v with
  | [] => []
  | x :: v' => x :: insert_at idx (S p) v'
  end.

Definition insert0 (v : list Q) (idx : list Z) : result (list Q) :=
  let n := Z.of_nat (length v) in
  if forallb (fun i => (- n <=? i)%Z && (i <=? n)%Z) idx
  then Ok (insert_at
             (map (fun i => Z.to_nat (if (i <? 0)%Z then i + n else i)%Z) idx)
             0 v)
  else Raise IndexError.

End Np.

(** ** 2-D arrays *)

Record ndarray2 : Type := mk_ndarray2 {
  nrows : nat;
  ncols : nat;
  rows : list (list Q)
}.

Definition wf_ndarray2 (u : ndarray2) : Prop :=
  length (rows u) = nrows u /\ Forall (fun r => length r = ncols u) (rows u).

(** [u.flatten()] *)
Definition flatten (u : ndarray2) : list Q := concat (rows u).

(** Element-wise operations on arrays of one shape. *)
Definition map_nd (f : Q -> Q) (u : ndarray2) : ndarray2 :=
  mk_ndarray2 (nrows u) (ncols u) (map (map f) (rows u)).

Fixpoint zip_rows (f : Q -> Q -> Q) (a b : list (list Q)) : list (list Q) :=
  match a, b with
  | x :: a', y :: b' => Np.map2 f x y :: zip_rows f a' b'
  | _, _ => []
  end.

Definition map2_nd (f : Q -> Q -> Q) (u v : ndarray2) : ndarray2 :=
  mk_ndarray2 (nrows u) (ncols u) (zip_rows f (rows u) (rows v)).

(** ** The class [TotalVariation] *)

Record TotalVariation : Type := mk_TotalVariation {
  lambd : Q;
  max_iter : Z;
  coef : list Q;
  tol : Q;
  eps : Q;
  saturation : bool;
  extended_output : bool;
  self_length : Z          (* the attribute [self.length] *)
}.

(** [TotalVariation.__init__]: the arguments are stored as they are. *)
Definition __init__ (lambd : Q) (max_iter : Z) (coef : list Q) (tol eps : Q)
    (saturation extended_output : bool) : result TotalVariation :=
  Ok (mk_TotalVariation lambd max_iter coef tol eps saturation extended_output
        (Z.of_nat (length coef) - 1)).

(** [a.reshape((h, w))] of a 1-D array. *)
Fixpoint chunks (w n : nat) (l : list Q) : list (list Q) :=
  match n with
  | O => []
  | S n' => firstn w l :: chunks w n' (skipn w l)
  end.

Definition reshape (l : list Q) (shape : nat * nat) : result ndarray2 :=
  let (h, w) := shape in
  if length l =? h * w then Ok (mk_ndarray2 h w (chunks w h l))
  else Raise ValueError.

Section Operators.

Variable self : TotalVariation.

Local Abbreviation L := (self_length self).

(** [np.roll(u, -i, axis=1)[:, :-self.length].flatten()] *)
Definition hshift (u : ndarray2) (i : nat) : list Q :=
  concat (map (fun row => Np.slice (Np.roll row i) None (Some (- L)%Z))
              (rows u)).

(** [np.roll(u, -i, axis=0)[:-self.length].flatten()] *)
Definition vshift (u : ndarray2) (i : nat) : list Q :=
  concat (Np.slice (Np.roll (rows u) i) None (Some (- L)%Z)).

Definition _tv (u : ndarray2) : result (list Q) :=
  let h := Z.of_nat (nrows u) in
  let w := Z.of_nat (ncols u) in
  ret <- Np.zeros (2 * h * w - L * (h + w)) ;;
  foldM (fun ret '(i, c) =>
           ret <- Np.iadd ret None (Some (h * w - L * h)%Z)
                    (Np.scale c (hshift u i)) ;;
           Np.iadd ret (Some (h * w - L * h)%Z) None
             (Np.scale c (vshift u i)))
        (enumerate (coef self)) ret.

(** The index list [[j * (w - self.length + i) for j in range(1, h)]]. *)
Definition insert_indices (h : nat) (w : Z) (i : nat) : list Z :=
  map (fun j => (Z.of_nat j * (w - L + Z.of_nat i))%Z) (seq 1 (h - 1)).

(** The first loop of [_transposed_tv]: [v0] after the zero insertions. *)
Definition zero_padded (v : list Q) (shape : nat * nat) : result (list Q) :=
  let h := Z.of_nat (fst shape) in
  let w := Z.of_nat (snd shape) in
  let index1 := (h * (w - L))%Z in
  let v0 := Np.slice v None (Some index1) in
  foldM (fun v0 i => Np.insert0 v0 (insert_indices (fst shape) w i))
        (seq 0 (Z.to_nat L)) v0.

Definition _transposed_tv (v : list Q) (shape : nat * nat)
  : result (list Q) :=
  let h := Z.of_nat (fst shape) in
  let w := Z.of_nat (snd shape) in
  let hw := (h * w)%Z in
  let index1 := (h * (w - L))%Z in
  let index2 := (w * (h - L))%Z in
  ret <- Np.zeros hw ;;
  v0 <- zero_padded v shape ;;
  foldM (fun ret '(i, c) =>
           let i := Z.of_nat i in
           ret <- Np.iadd ret (Some i) (Some (i + Z.of_nat (length v0))%Z)
                    (Np.scale c v0) ;;
           Np.iadd ret (Some (w * i)%Z) (Some (w * i + index2)%Z)
             (Np.scale c (Np.slice v (Some index1) None)))
        (enumerate (coef self)) ret.

Definition _step_size (shape : nat * nat) : result (list Q * list Q) :=
  let h := Z.of_nat (fst shape) in
  let w := Z.of_nat (snd shape) in
  let hw := (h * w)%Z in
  let index := (w * (h - L))%Z in
  let abs_coef := Np.abs (coef self) in
  let abs_sum := Np.sum abs_coef in
  tau <- Np.full hw (lambd self) ;;
  tile <- Np.zeros w ;;
  tile <- foldM (fun tile i =>
                   let i := Z.of_nat i in
                   Np.iadd tile (Some i) (Some (i + L + 1)%Z) abs_coef)
                (seq 0 (Z.to_nat (w - L))) tile ;;
  tau <- Np.iadd tau None None (Np.tile tile (fst shape)) ;;
  let tau := fold_left (fun tau '(i, c) =>
                          let i := Z.of_nat i in
                          Np.iadd_scalar tau (Some (w * i)%Z)
                            (Some (w * i + index)%Z) c)
                       (enumerate abs_coef) tau in
  let tau := Np.reciprocal tau in
  sigma <- Np.zeros (3 * hw - L * (h + w)) ;;
  let sigma := Np.iadd_scalar sigma None (Some (- hw)%Z) abs_sum in
  let sigma := Np.iadd_scalar sigma (Some (- hw)%Z) None (lambd self) in
  let sigma := Np.reciprocal sigma in
  Ok (tau, sigma).

(** The expression appended to [obj]:
    [np.sum(np.abs(self._tv(res))) + self.lambd * np.sum(np.abs(res - X))]. *)
Definition objective (X res : ndarray2) : result Q :=
  t <- _tv res ;;
  Ok (Np.sum (Np.abs t)
      + lambd self * Np.sum (Np.abs (flatten (map2_nd Qminus res X)))).

Definition record_objective (X res : ndarray2) (obj : list Q)
  : result (list Q) :=
  if extended_output self
  then (o <- objective X res ;; Ok (obj ++ [o]))
  else Ok obj.

(** The variables that [transform] updates. *)
Record state : Type := mk_state {
  res : ndarray2;
  dual : list Q;
  obj : list Q
}.

(** The lines of [transform] before the main loop. *)
Definition initialize (X : ndarray2)
  : result (list Q * list Q * state) :=
  let h := Z.of_nat (nrows X) in
  let w := Z.of_nat (ncols X) in
  let hw := (h * w)%Z in
  '(tau, sigma) <- _step_size (nrows X, ncols X) ;;
  let res := X in
  dual <- Np.zeros (3 * h * w
                    - (Z.of_nat (length (coef self)) - 1) * (h + w)) ;;
  t <- _tv res ;;
  st <- Np.broadcast Qmult (Np.slice sigma None (Some (- hw)%Z)) t ;;
  dual <- Np.assign dual None (Some (- hw)%Z) (Np.clip st (-1) 1) ;;
  obj <- record_objective X res [] ;;
  Ok (tau, sigma, mk_state res dual obj).

(** The primal update, [u] of the loop body. *)
Definition primal_update (X : ndarray2) (tau : list Q) (s : state)
  : result ndarray2 :=
  let h := Z.of_nat (nrows X) in
  let w := Z.of_nat (ncols X) in
  let hw := (h * w)%Z in
  tt <- _transposed_tv (Np.slice (dual s) None (Some (- hw)%Z))
          (nrows X, ncols X) ;;
  g <- Np.broadcast Qplus tt
         (Np.scale (lambd self) (Np.slice (dual s) (Some (- hw)%Z) None)) ;;
  tg <- Np.broadcast Qmult tau g ;;
  r <- reshape tg (nrows X, ncols X) ;;
  let u := map2_nd Qminus (res s) r in
  Ok (if saturation self
      then map_nd (fun x => Qmin (Qmax x 0) 1) u
      else u).

(** One pass through the body of the main loop, up to the stopping test;
    returns the new state and [diff]. *)
Definition loop_body (X : ndarray2) (tau sigma : list Q) (s : state)
  : result (state * ndarray2) :=
  let h := Z.of_nat (nrows X) in
  let w := Z.of_nat (ncols X) in
  let hw := (h * w)%Z in
  u <- primal_update X tau s ;;
  let bar_u := map2_nd Qminus (map_nd (Qmult 2) u) (res s) in
  t <- _tv bar_u ;;
  st <- Np.broadcast Qmult (Np.slice sigma None (Some (- hw)%Z)) t ;;
  dual <- Np.iadd (dual s) None (Some (- hw)%Z) st ;;
  sd <- Np.broadcast Qmult
          (map (fun x => x * lambd self)
               (Np.slice sigma (Some (- hw)%Z) None))
          (flatten (map2_nd Qminus bar_u X)) ;;
  dual <- Np.iadd dual (Some (- hw)%Z) None sd ;;
  let dual := Np.clip dual (-1) 1 in
  let diff := map2_nd Qminus u (res s) in
  let res := u in
  obj <- record_objective X res (obj s) ;;
  Ok (mk_state res dual obj, diff).

(** The square root behind [np.linalg.norm]. *)
Variable sqrt : Q -> Q.

Definition norm (u : ndarray2) : Q :=
  sqrt (Np.sum (map (fun x => x * x) (flatten u))).

(** [np.linalg.norm(diff) / (np.linalg.norm(res) + self.eps) < self.tol].
    When the denominator is zero numpy's quotient of the two norms is [inf]
    or [nan], and the comparison with [tol] is [False]. *)
Definition converged (diff res : ndarray2) : bool :=
  if Qeq_bool (norm res + eps self) 0 then false
  else negb (Qle_bool (tol self) (norm diff / (norm res + eps self))).

(** [for _ in trange(self.max_iter)], with its [break]. *)
Fixpoint main_loop (n : nat) (X : ndarray2) (tau sigma : list Q) (s : state)
  : result state :=
  match n with
  | O => Ok s
  | S n' =>
      '(s', diff) <- loop_body X tau sigma s ;;
      if converged diff (res s') then Ok s'
      else main_loop n' X tau sigma s'
  end.

Definition transform (X : ndarray2) : result (ndarray2 * list Q) :=
  '(tau, sigma, s) <- initialize X ;;
  s <- main_loop (Z.to_nat (max_iter self)) X tau sigma s ;;
  Ok (res s, obj s).

(** The states after each of [k] consecutive passes through the loop body,
    and the number of passes [main_loop n] completes before it leaves the
    loop: they name "the iterate after the i-th iteration" and "the number
    of iterations executed". *)
Fixpoint trace (k : nat) (X : ndarray2) (tau sigma : list Q) (s : state)
  : result (list state) :=
  match k with
  | O => Ok []
  | S k' =>
      '(s', _) <- loop_body X tau sigma s ;;
      rest <- trace k' X tau sigma s' ;;
      Ok (s' :: rest)
  end.

Fixpoint executed (n : nat) (X : ndarray2) (tau sigma : list Q) (s : state)
  : result nat :=
  match n with
  | O => Ok O
  | S n' =>
      '(s', diff) <- loop_body X tau sigma s ;;
      if converged diff (res s') then Ok 1%nat
      else (k <- executed n' X tau sigma s' ;; Ok (S k))
  end.

End Operators.

(** The solver after [self.extended_output = b]. *)
Definition set_extended_output (b : bool) (self : TotalVariation)
  : TotalVariation :=
  mk_TotalVariation (lambd self) (max_iter self) (coef self) (tol self)
    (eps self) (saturation self) b (self_length self).

(** The values of the stopping test
    [np.linalg.norm(diff) / (np.linalg.norm(res) + self.eps) < self.tol]
    along consecutive states, [diff] being the difference of a state's
    image and its predecessor's. *)
Fixpoint criteria (self : TotalVariation) (sqrt : Q -> Q) (s : state)
    (sts : list state) : list bool :=
  match sts with
  | [] => []
  | s' :: rest =>
      converged self sqrt (map2_nd Qminus (res s') (res s)) (res s')
      :: criteria self sqrt s' rest
  end.

(** The values of [diff = u - res] along consecutive states. *)
Fixpoint changes (s : state) (sts : list state) : list ndarray2 :=
  match sts with
  | [] => []
  | s' :: rest => map2_nd Qminus (res s') (res s) :: changes s' rest
  end.


(** The image of shape [(h, w)] that is 1 at pixel [(r, c)] and 0 elsewhere:
    [K] applied to it is the column of [K] at that pixel. *)
Definition unit_image (h w r c : nat) : ndarray2 :=
  mk_ndarray2 h w
    (map (fun i => map (fun j => if (i =? r) && (j =? c) then 1 else 0)
                       (seq 0 w))
         (seq 0 h)).

(** [u] is a rectangular array of shape [(h, w)]. *)
Definition has_shape (u : ndarray2) (h w : nat) : Prop :=
  nrows u = h /\ ncols u = w /\
  length (rows u) = h /\ Forall (fun r => length r = w) (rows u).

(** The shapes the loop of [transform] preserves, for a stencil of length
    [n] on an image of shape [(h, w)]. *)
Definition state_ok (n h w : nat) (s : state) : Prop :=
  has_shape (res s) h w /\
  length (dual s) = (h * (w - n) + (h - n) * w + h * w)%nat.

(** The box [[-1, 1]] of the dual variable and the range [[0, 1]] of a
    saturated image. *)
Definition in_box (l : list Q) : Prop :=
  Forall (fun x => -1 <= x /\ x <= 1) l.

Definition in_unit_range (u : ndarray2) : Prop :=
  Forall (Forall (fun x => 0 <= x /\ x <= 1)) (rows u).

(** A rational stand-in for the square root, to run [transform] on concrete
    inputs: the integer square root of the integer part. *)
Definition floor_sqrt (q : Q) : Q :=
  inject_Z (Z.sqrt (Qnum q / Zpos (Qden q))).

(** ** Concrete inputs *)

(** The second-difference stencil on a 3x4 image, with a difference vector
    of the matching length [2*3*4 - 2*(3+4) = 10]. *)
Definition example_stencil : TotalVariation :=
  mk_TotalVariation 1 10 [1; -2; 1] (1 # 1000) (1 # 10) false false 2.

Definition example_image : ndarray2 :=
  mk_ndarray2 3 4 [[1; 2; 4; 8]; [3; 9; 27; 81]; [5; 25; 125; 625]].

Definition example_differences : list Q :=
  [1; -1; 2; -2; 3; -3; 7; 11; 13; 17].

(** The default stencil with [saturation] and [extended_output] set, and a
    2x2 image whose values lie outside [[0, 1]]. *)
Definition saturating_solver : TotalVariation :=
  mk_TotalVariation 1 2 [1; -1] (1 # 1000) (1 # 10000000000000000) true true 1.

Definition out_of_range_image : ndarray2 :=
  mk_ndarray2 2 2 [[-1 # 2; 3 # 2]; [3 # 2; -1 # 2]].


(** The default solver, [TotalVariation()], and a 1x1 image. *)
Definition default_solver : TotalVariation :=
  mk_TotalVariation 1 1000 [1; -1] (1 # 1000) (1 # 10000000000000000)
    false false 1.

Definition one_pixel_image : ndarray2 := mk_ndarray2 1 1 [[5]].

(** A solver that is given no iteration. *)
Definition idle_solver : TotalVariation :=
  mk_TotalVariation 1 0 [1; -1] (1 # 1000) (1 # 10000000000000000)
    false true 1.

(** A solver with a zero tolerance. *)
Definition patient_solver : TotalVariation :=
  mk_TotalVariation 1 3 [1; -1] 0 (1 # 10000000000000000) false true 1.

(** The image without pixels, [np.zeros((0, 0))]. *)
Definition empty_image : ndarray2 := mk_ndarray2 0 0 [].

(** A second 3x4 image, and a constant one. *)
Definition second_image : ndarray2 :=
  mk_ndarray2 3 4 [[0; 1; 0; 1]; [2; 0; 2; 0]; [7; 7; 7; 7]].

Definition constant_image : ndarray2 :=
  mk_ndarray2 3 4 [[7; 7; 7; 7]; [7; 7; 7; 7]; [7; 7; 7; 7]].

(** ** Notions used to state the properties *)

Local Open Scope nat_scope.

(** The inner product of two vectors. *)
Fixpoint inner (a b : list Q) : Q :=
  match a, b with
  | x :: a', y :: b' => (x * y + inner a' b')%Q
  | _, _ => 0%Q
  end.


(** [u[i, j]] *)
Definition px (u : ndarray2) (i j : nat) : Q := nth j (nth i (rows u) []) 0%Q.

(** What [ret[a : a + len(vals)] += vals] leaves in [ret] when the slice lies
    inside [ret]. *)
Definition add_at (ret : list Q) (a : nat) (vals : list Q) : list Q :=
  firstn a ret ++ Np.map2 Qplus (firstn (length vals) (skipn a ret)) vals
    ++ skipn (a + length vals) ret.

(** The accumulation [acc += c * f i] over the enumerated coefficients. *)
Definition accumulate (f : nat -> list Q) (l : list (nat * Q)) (acc : list Q)
  : list Q :=
  fold_left (fun acc '(i, c) => Np.map2 Qplus acc (Np.scale c (f i))) l acc.

(** The chunks [cs] laid out one after the other with [g] zeros between two
    consecutive chunks: the shape of [v0] in [_transposed_tv] after [g]
    rounds of [np.insert]. *)
Fixpoint join0 (g : nat) (cs : list (list Q)) : list Q :=
  match cs with
  | [] => []
  | c :: cs' =>
      match cs' with
      | [] => c
      | _ :: _ => c ++ repeat 0%Q g ++ join0 g cs'
      end
  end.

(** [ret] after the second loop of [_transposed_tv], for an image of width
    [w], when every slice lies inside [ret]. *)
Definition scatter (w : nat) (v0 vv : list Q) (l : list (nat * Q))
    (ret : list Q) : list Q :=
  fold_left (fun ret '(i, c) =>
               add_at (add_at ret i (Np.scale c v0)) (w * i) (Np.scale c vv))
            l ret.

(** What [ret[a : a + m] += c] leaves in [ret] for a scalar [c]. *)
Definition add_scalar_at (ret : list Q) (a m : nat) (c : Q) : list Q :=
  firstn a ret ++ map (fun x => (x + c)%Q) (firstn m (skipn a ret))
    ++ skipn (a + m) ret.

(** [tile] after the first loop of [_step_size], for [m] passes. *)
Definition tile_of (abs_coef : list Q) (w m : nat) : list Q :=
  fold_left (fun t i => add_at t i abs_coef) (seq 0 m) (repeat 0%Q w).

(** [tau] before [tau = 1. / tau]. *)
Definition tau_sums (self : TotalVariation) (n h w : nat) : list Q :=
  fold_left (fun tau '(i, c) => add_scalar_at tau (w * i) ((h - n) * w) c)
            (enumerate (Np.abs (coef self)))
            (Np.map2 Qplus (repeat (lambd self) (h * w))
               (Np.tile (tile_of (Np.abs (coef self)) w (w - n)) h)).

(** [sigma] before [sigma = 1. / sigma]. *)
Definition sigma_sums (self : TotalVariation) (n h w : nat) : list Q :=
  map (fun x => (x + Np.sum (Np.abs (coef self)))%Q)
      (repeat 0%Q (h * (w - n) + (h - n) * w))
  ++ map (fun x => (x + lambd self)%Q) (repeat 0%Q (h * w)).

(** The sum of [c * F i] over the enumerated coefficients [(i, c)]. *)
Fixpoint sum_over (l : list (nat * Q)) (F : nat -> Q) : Q :=
  match l with
  | [] => 0%Q
  | (i, c) :: l' => (c * F i + sum_over l' F)%Q
  end.

(** The indicator of a condition, as a number. *)
Definition ind (b : bool) : Q := if b then 1%Q else 0%Q.

(** The absolute weight of the stencil taps that touch a pixel in column
    [c] of an image of width [w] along its row, and a pixel in row [r] of an
    image of height [h] along its column. *)
Definition row_weight (self : TotalVariation) (n w c : nat) : Q :=
  sum_over (enumerate (Np.abs (coef self)))
    (fun i => ind ((i <=? c) && (c <? i + (w - n)))).

Definition column_weight (self : TotalVariation) (n h r : nat) : Q :=
  sum_over (enumerate (Np.abs (coef self)))
    (fun i => ind ((i <=? r) && (r <? i + (h - n)))).

(** The hypotheses under which the operators are used: the attribute
    [length] is the one [__init__] computes, the stencil has at least two
    taps, and the image is larger than the stencil in both directions. *)
Definition valid (self : TotalVariation) (h w : nat) : Prop :=
  self_length self = (Z.of_nat (length (coef self)) - 1)%Z /\
  2 <= length (coef self) /\
  (self_length self < Z.of_nat h)%Z /\
  (self_length self < Z.of_nat w)%Z.

(** The entry at position [k] of the vector of differences of an image of
    shape [(h, w)], read off the image: the stencil applied along row
    [k / (w - n)] from column [k mod (w - n)] in the first block, and along
    a column in the second. *)
Definition stencil_at (self : TotalVariation) (n h w : nat) (u : ndarray2)
    (k : nat) : Q :=
  if k <? h * (w - n)
  then sum_over (enumerate (coef self))
         (fun i => px u (k / (w - n)) (i + k mod (w - n)))
  else sum_over (enumerate (coef self))
         (fun i => px u (i + (k - h * (w - n)) / w)
                     ((k - h * (w - n)) mod w)).

(** The image [a * u + b * v]. *)
Definition linear_combination (a b : Q) (u v : ndarray2) : ndarray2 :=
  map2_nd Qplus (map_nd (Qmult a) u) (map_nd (Qmult b) v).

(** Every pixel of the image has the value [c]. *)
Definition all_eq (c : Q) (u : ndarray2) : Prop :=
  Forall (Forall (fun x => x == c)%Q) (rows u).

(** Every entry of the vector is zero. *)
Definition all_zero (l : list Q) : Prop := Forall (fun x => x == 0)%Q l.

(** ** Slices and in-place additions inside the bounds *)

Lemma bound_of_nat (n k : nat) : Np.bound n (Z.of_nat k) = Nat.min n k.
Proof.
  unfold Np.bound. destruct (Z.ltb_spec (Z.of_nat k) 0); [lia|].
  now rewrite Nat2Z.id.
Qed.

Lemma bound_opp (n k : nat) :
  0 < k -> Np.bound n (- Z.of_nat k) = n - k.
Proof.
  intros Hk. unfold Np.bound.
  destruct (Z.ltb_spec (- Z.of_nat k) 0); lia.
Qed.

Lemma slice_prefix {A} (l : list A) (k : nat) :
  Np.slice l None (Some (Z.of_nat k)) = firstn k l.
Proof.
  unfold Np.slice, Np.start_of, Np.stop_of. rewrite bound_of_nat, Nat.sub_0_r.
  cbn [skipn]. destruct (Nat.le_ge_cases k (length l)).
  - now rewrite Nat.min_r.
  - rewrite Nat.min_l by lia. now rewrite !firstn_all2 by lia.
Qed.

Lemma slice_suffix {A} (l : list A) (k : nat) :
  Np.slice l (Some (Z.of_nat k)) None = skipn k l.
Proof.
  unfold Np.slice, Np.start_of, Np.stop_of. rewrite bound_of_nat.
  destruct (Nat.le_ge_cases k (length l)).
  - rewrite Nat.min_r by lia. apply firstn_all2. rewrite length_skipn. lia.
  - rewrite Nat.min_l by lia. rewrite Nat.sub_diag. cbn.
    now rewrite skipn_all2 by lia.
Qed.

Lemma slice_drop_last {A} (l : list A) (k : nat) :
  0 < k -> Np.slice l None (Some (- Z.of_nat k)%Z) = firstn (length l - k) l.
Proof.
  intros Hk. unfold Np.slice, Np.start_of, Np.stop_of.
  rewrite bound_opp by lia. now rewrite Nat.sub_0_r.
Qed.

Lemma roll_small {A} (l : list A) (k : nat) :
  k < length l -> Np.roll l k = skipn k l ++ firstn k l.
Proof.
  intros Hk. unfold Np.roll. destruct (length l) eqn:E; [lia|].
  now rewrite Nat.mod_small by lia.
Qed.

Lemma iadd_inside (ret vals : list Q) (a : nat) (start stop : option Z) :
  Np.start_of (length ret) start = a ->
  Np.stop_of (length ret) stop = a + length vals ->
  Np.iadd ret start stop vals = Ok (add_at ret a vals).
Proof.
  intros Ha Hb. unfold Np.iadd, Np.broadcast_to. rewrite Ha, Hb.
  replace (a + length vals - a) with (length vals) by lia.
  rewrite Nat.eqb_refl. reflexivity.
Qed.

Lemma map2_length f (a b : list Q) :
  length (Np.map2 f a b) = Nat.min (length a) (length b).
Proof.
  revert b; induction a as [|x a IH]; intros [|y b]; cbn; auto.
Qed.

Lemma scale_length c (a : list Q) : length (Np.scale c a) = length a.
Proof. apply length_map. Qed.

Lemma add_at_length (ret vals : list Q) (a : nat) :
  a + length vals <= length ret -> length (add_at ret a vals) = length ret.
Proof.
  intros H. unfold add_at.
  rewrite !length_app, map2_length, length_firstn, !length_firstn, !length_skipn.
  lia.
Qed.

Lemma add_at_prefix (A B vals : list Q) :
  length A = length vals ->
  add_at (A ++ B) 0 vals = Np.map2 Qplus A vals ++ B.
Proof.
  intros H. unfold add_at. cbn [firstn skipn app Nat.add].
  rewrite <- H, firstn_app, Nat.sub_diag, firstn_all, firstn_O, app_nil_r.
  now rewrite skipn_app, Nat.sub_diag, skipn_all.
Qed.

Lemma add_at_whole (A vals : list Q) :
  length A = length vals -> add_at A 0 vals = Np.map2 Qplus A vals.
Proof.
  intros H. rewrite <- (app_nil_r A) at 1.
  now rewrite add_at_prefix, app_nil_r.
Qed.

Lemma add_at_suffix (A B vals : list Q) :
  length B = length vals ->
  add_at (A ++ B) (length A) vals = A ++ Np.map2 Qplus B vals.
Proof.
  intros H. unfold add_at.
  rewrite firstn_app, Nat.sub_diag, firstn_all, firstn_O, app_nil_r.
  rewrite skipn_app, Nat.sub_diag, skipn_all. cbn [skipn app].
  rewrite <- H, firstn_all.
  rewrite skipn_all2 by (rewrite length_app; lia).
  now rewrite app_nil_r.
Qed.

Lemma in_enumerate {A} (l : list A) (i : nat) (x : A) :
  In (i, x) (enumerate l) -> i < length l.
Proof.
  unfold enumerate. intros H. apply in_combine_l in H.
  apply in_seq in H. lia.
Qed.

Lemma Forall_prefix {A} (P : A -> Prop) (k : nat) (l : list A) :
  Forall P l -> Forall P (firstn k l).
Proof.
  intros H. revert k. induction H; intros [|k]; cbn; auto.
Qed.

Lemma Forall_suffix {A} (P : A -> Prop) (k : nat) (l : list A) :
  Forall P l -> Forall P (skipn k l).
Proof.
  intros H. revert k. induction H; intros [|k]; cbn; auto.
Qed.

Lemma concat_length_uniform {A} (ls : list (list A)) (m : nat) :
  Forall (fun r => length r = m) ls -> length (concat ls) = length ls * m.
Proof.
  induction 1 as [|r ls Hr _ IH]; cbn; [reflexivity|].
  rewrite length_app, IH, Hr. reflexivity.
Qed.

Lemma accumulate_length f l acc :
  (forall i c, In (i, c) l -> length (f i) = length acc) ->
  length (accumulate f l acc) = length acc.
Proof.
  revert acc. induction l as [|[i c] l IH]; intros acc H; cbn; [reflexivity|].
  assert (E : length (Np.map2 Qplus acc (Np.scale c (f i))) = length acc).
  { rewrite map2_length, scale_length, (H i c) by (left; reflexivity). lia. }
  unfold accumulate in IH. rewrite IH; [exact E|].
  intros j d Hj. rewrite E. apply (H j d). now right.
Qed.

(** ** Inner products *)

Lemma inner_nil_r (a : list Q) : inner a [] = 0%Q.
Proof. now destruct a. Qed.

Lemma inner_app (a a' b b' : list Q) :
  length a = length b ->
  (inner (a ++ a') (b ++ b') == inner a b + inner a' b')%Q.
Proof.
  revert b. induction a as [|x a IH]; intros [|y b] H; try discriminate.
  - cbn. ring.
  - cbn in *. rewrite IH by lia. ring.
Qed.

Lemma inner_app_l (a a' b : list Q) :
  length b <= length a -> inner (a ++ a') b = inner a b.
Proof.
  revert b. induction a as [|x a IH]; intros [|y b] H; cbn in *;
    try reflexivity; try lia.
  - now destruct a'.
  - now rewrite IH by lia.
Qed.

Lemma inner_firstn_l (k : nat) (a b : list Q) :
  length b <= k -> inner (firstn k a) b = inner a b.
Proof.
  revert a b. induction k as [|k IH]; intros a b H.
  - destruct b; cbn in H; [|lia]. now rewrite !inner_nil_r.
  - destruct a as [|x a]; [reflexivity|]. destruct b as [|y b]; [reflexivity|].
    cbn in *. now rewrite IH by lia.
Qed.

Lemma inner_zeros_r (a : list Q) (k : nat) :
  (inner a (repeat 0%Q k) == 0)%Q.
Proof.
  revert a. induction k as [|k IH]; intros [|x a]; cbn; try reflexivity.
  rewrite IH. ring.
Qed.

Lemma inner_zeros_l (b : list Q) (k : nat) :
  (inner (repeat 0%Q k) b == 0)%Q.
Proof.
  revert b. induction k as [|k IH]; intros [|y b]; cbn; try reflexivity.
  rewrite IH. ring.
Qed.

Lemma inner_skip_zeros (a b : list Q) (k : nat) :
  (inner a (repeat 0%Q k ++ b) == inner (skipn k a) b)%Q.
Proof.
  revert a. induction k as [|k IH]; intros a; cbn [repeat app skipn].
  - reflexivity.
  - destruct a as [|x a]; cbn; [reflexivity|]. rewrite IH. ring.
Qed.

Lemma inner_map2_plus_r (a b c : list Q) :
  length b = length c ->
  (inner a (Np.map2 Qplus b c) == inner a b + inner a c)%Q.
Proof.
  revert b c. induction a as [|x a IH]; intros [|y b] [|z c] H;
    try discriminate; cbn; try ring.
  cbn in H. rewrite IH by lia. ring.
Qed.

Lemma inner_map2_plus_l (a b c : list Q) :
  length a = length b ->
  (inner (Np.map2 Qplus a b) c == inner a c + inner b c)%Q.
Proof.
  revert b c. induction a as [|x a IH]; intros [|y b] [|z c] H;
    try discriminate; cbn; try ring.
  cbn in H. rewrite IH by lia. ring.
Qed.

Lemma inner_scale_r (c : Q) (a b : list Q) :
  (inner a (Np.scale c b) == c * inner a b)%Q.
Proof.
  revert b. induction a as [|x a IH]; intros [|y b];
    cbn [inner Np.scale map]; try ring.
  fold (Np.scale c b). rewrite IH. ring.
Qed.

Lemma inner_scale_l (c : Q) (a b : list Q) :
  (inner (Np.scale c a) b == c * inner a b)%Q.
Proof.
  revert b. induction a as [|x a IH]; intros [|y b];
    cbn [inner Np.scale map]; try ring.
  fold (Np.scale c a). rewrite IH. ring.
Qed.

Lemma inner_add_at_split (x1 x2 x3 r1 r2 r3 vals : list Q) :
  length x1 = length r1 -> length x2 = length r2 -> length r2 = length vals ->
  (inner (x1 ++ x2 ++ x3) (r1 ++ Np.map2 Qplus r2 vals ++ r3)
   == inner (x1 ++ x2 ++ x3) (r1 ++ r2 ++ r3) + inner (x2 ++ x3) vals)%Q.
Proof.
  intros H1 H2 H3.
  rewrite !inner_app; try assumption.
  2: { rewrite map2_length. lia. }
  rewrite inner_map2_plus_r by assumption.
  rewrite (@inner_app_l x2 x3 vals) by lia. ring.
Qed.

Lemma split3 {A} (l : list A) (a m : nat) :
  firstn a l ++ firstn m (skipn a l) ++ skipn (a + m) l = l.
Proof.
  replace (skipn (a + m) l) with (skipn m (skipn a l))
    by (rewrite skipn_skipn; f_equal; lia).
  rewrite firstn_skipn. apply firstn_skipn.
Qed.

Lemma inner_add_at (x ret vals : list Q) (a : nat) :
  length x = length ret -> a + length vals <= length ret ->
  (inner x (add_at ret a vals) == inner x ret + inner (skipn a x) vals)%Q.
Proof.
  intros Hx Ha. unfold add_at.
  set (m := length vals).
  assert (Es : firstn m (skipn a x) ++ skipn (a + m) x = skipn a x).
  { replace (skipn (a + m) x) with (skipn m (skipn a x))
      by (rewrite skipn_skipn; f_equal; lia).
    apply firstn_skipn. }
  assert (P := @inner_add_at_split (firstn a x) (firstn m (skipn a x))
                 (skipn (a + m) x) (firstn a ret) (firstn m (skipn a ret))
                 (skipn (a + m) ret) vals).
  rewrite !split3, Es in P. apply P.
  - rewrite !length_firstn. lia.
  - rewrite !length_firstn, !length_skipn. lia.
  - rewrite length_firstn, length_skipn. lia.
Qed.

Lemma sum_over_ext (l : list (nat * Q)) (F G : nat -> Q) :
  (forall i c, In (i, c) l -> (F i == G i)%Q) ->
  (sum_over l F == sum_over l G)%Q.
Proof.
  induction l as [|[i c] l IH]; intros H; cbn [sum_over]; [reflexivity|].
  rewrite (H i c) by (now left). rewrite IH; [reflexivity|].
  intros j d Hj. apply (H j d). now right.
Qed.

Lemma sum_over_plus (l : list (nat * Q)) (F G : nat -> Q) :
  (sum_over l (fun i => F i + G i) == sum_over l F + sum_over l G)%Q.
Proof.
  induction l as [|[i c] l IH]; cbn [sum_over]; [ring|]. rewrite IH. ring.
Qed.

Lemma inner_accumulate (f : nat -> list Q) l (acc y : list Q) :
  (forall i c, In (i, c) l -> length (f i) = length acc) ->
  (inner (accumulate f l acc) y
   == inner acc y + sum_over l (fun i => inner (f i) y))%Q.
Proof.
  revert acc. induction l as [|[i c] l IH]; intros acc H;
    cbn [accumulate fold_left sum_over].
  - ring.
  - assert (E : length (Np.map2 Qplus acc (Np.scale c (f i))) = length acc).
    { rewrite map2_length, scale_length, (H i c) by (left; reflexivity). lia. }
    fold (accumulate f l (Np.map2 Qplus acc (Np.scale c (f i)))).
    rewrite IH.
    + rewrite inner_map2_plus_l, inner_scale_l.
      * ring.
      * rewrite scale_length. symmetry. apply (H i c). now left.
    + intros j d Hj. rewrite E. apply (H j d). now right.
Qed.

(** ** Zero insertion *)

Lemma insert_at_nil (p : nat) (v : list Q) : Np.insert_at [] p v = v.
Proof.
  revert p. induction v as [|x v IH]; intros p; cbn; [reflexivity|].
  now rewrite IH.
Qed.

Lemma insert_at_drop_head (idx : list nat) (p q : nat) (v : list Q) :
  p < q -> Np.insert_at (p :: idx) q v = Np.insert_at idx q v.
Proof.
  revert q. induction v as [|x v IH]; intros q Hq;
    cbn [Np.insert_at count_occ]; destruct (Nat.eq_dec p q); try lia.
  - reflexivity.
  - now rewrite IH by lia.
Qed.

Lemma insert_at_here (idx : list nat) (p : nat) (v : list Q) :
  Np.insert_at (p :: idx) p v = 0%Q :: Np.insert_at idx p v.
Proof.
  destruct v as [|x v]; cbn [Np.insert_at count_occ];
    destruct (Nat.eq_dec p p); try contradiction; cbn [repeat app].
  - reflexivity.
  - now rewrite insert_at_drop_head by lia.
Qed.

Lemma insert_at_skip (idx : list nat) (p : nat) (a b : list Q) :
  (forall q, In q idx -> p + length a <= q) ->
  Np.insert_at idx p (a ++ b) = a ++ Np.insert_at idx (p + length a) b.
Proof.
  revert p. induction a as [|x a IH]; intros p H.
  - cbn. now rewrite Nat.add_0_r.
  - cbn [app Np.insert_at].
    assert (E : count_occ Nat.eq_dec idx p = 0).
    { apply count_occ_not_In. intros Hin. apply H in Hin. cbn in Hin. lia. }
    rewrite E. cbn [repeat app]. f_equal. rewrite IH.
    + cbn [length]. now rewrite Nat.add_succ_r.
    + intros q Hq. apply H in Hq. cbn in Hq. lia.
Qed.

Lemma join0_length (g m : nat) (cs : list (list Q)) :
  Forall (fun c => length c = m) cs ->
  length (join0 g cs) = length cs * m + (length cs - 1) * g.
Proof.
  induction 1 as [|c cs Hc Hcs IH]; [reflexivity|].
  destruct cs as [|c' cs].
  - cbn. lia.
  - change (join0 g (c :: c' :: cs))
      with (c ++ repeat 0%Q g ++ join0 g (c' :: cs)).
    rewrite !length_app, repeat_length, IH, Hc. cbn [length]. nia.
Qed.

Lemma join0_zero (cs : list (list Q)) : join0 0 cs = concat cs.
Proof.
  induction cs as [|c cs IH]; [reflexivity|].
  destruct cs as [|c' cs].
  - cbn. now rewrite app_nil_r.
  - change (join0 0 (c :: c' :: cs)) with (c ++ [] ++ join0 0 (c' :: cs)).
    now rewrite IH.
Qed.

Lemma insert_progression (m g : nat) (cs : list (list Q)) :
  1 <= m + g ->
  forall (c : list Q) (p0 : nat),
    Forall (fun c => length c = m) (c :: cs) ->
    Np.insert_at (map (fun j => p0 + j * (m + g)) (seq 1 (length cs))) p0
      (join0 g (c :: cs))
    = join0 (S g) (c :: cs).
Proof.
  intros Hmg. induction cs as [|c' cs IH]; intros c p0 Hall.
  - cbn. apply insert_at_nil.
  - change (join0 g (c :: c' :: cs))
      with (c ++ repeat 0%Q g ++ join0 g (c' :: cs)).
    change (join0 (S g) (c :: c' :: cs))
      with (c ++ repeat 0%Q (S g) ++ join0 (S g) (c' :: cs)).
    apply Forall_cons_iff in Hall as [Hc Hrest].
    cbn [length seq map].
    assert (E : map (fun j => p0 + j * (m + g)) (seq 2 (length cs))
                = map (fun j => (p0 + (m + g)) + j * (m + g))
                    (seq 1 (length cs))).
    { rewrite <- seq_shift, map_map. apply map_ext. intros j. nia. }
    rewrite E. replace (p0 + 1 * (m + g)) with (p0 + (m + g)) by lia.
    rewrite app_assoc, insert_at_skip.
    + rewrite length_app, repeat_length, Hc.
      rewrite insert_at_here, IH by exact Hrest.
      rewrite <- app_assoc. f_equal.
      change (repeat 0%Q (S g)) with (0%Q :: repeat 0%Q g).
      rewrite repeat_cons, <- app_assoc. reflexivity.
    + intros q [Hq|Hq].
      * rewrite length_app, repeat_length, Hc. lia.
      * apply in_map_iff in Hq. destruct Hq as [j [Hj _]].
        rewrite length_app, repeat_length, Hc. lia.
Qed.

Lemma chunks_length (m k : nat) (l : list Q) : length (chunks m k l) = k.
Proof.
  revert l. induction k as [|k IH]; intros l; cbn; [reflexivity|].
  now rewrite IH.
Qed.

Lemma chunks_uniform (m k : nat) (l : list Q) :
  length l = k * m -> Forall (fun c => length c = m) (chunks m k l).
Proof.
  revert l. induction k as [|k IH]; intros l H; cbn; constructor.
  - rewrite length_firstn. cbn in H. lia.
  - apply IH. rewrite length_skipn. cbn in H. lia.
Qed.

Lemma concat_chunks (m k : nat) (l : list Q) :
  length l = k * m -> concat (chunks m k l) = l.
Proof.
  revert l. induction k as [|k IH]; intros l H; cbn.
  - destruct l; [reflexivity|discriminate].
  - rewrite IH by (rewrite length_skipn; cbn in H; lia).
    apply firstn_skipn.
Qed.

Lemma scatter_length (w : nat) (v0 vv : list Q) l (ret : list Q) :
  (forall i c, In (i, c) l ->
     i + length v0 <= length ret /\ w * i + length vv <= length ret) ->
  length (scatter w v0 vv l ret) = length ret.
Proof.
  revert ret. induction l as [|[i c] l IH]; intros ret H;
    cbn [scatter fold_left]; [reflexivity|].
  destruct (H i c) as [H1 H2]; [now left|].
  assert (E1 : length (add_at ret i (Np.scale c v0)) = length ret)
    by (apply add_at_length; now rewrite scale_length).
  assert (E2 : length (add_at (add_at ret i (Np.scale c v0)) (w * i)
                         (Np.scale c vv)) = length ret).
  { rewrite add_at_length; [exact E1|]. now rewrite scale_length, E1. }
  fold (scatter w v0 vv l
          (add_at (add_at ret i (Np.scale c v0)) (w * i) (Np.scale c vv))).
  rewrite IH; [exact E2|].
  intros j d Hj. rewrite E2. apply (H j d). now right.
Qed.

Lemma inner_scatter (w : nat) (x v0 vv : list Q) l (ret : list Q) :
  length x = length ret ->
  (forall i c, In (i, c) l ->
     i + length v0 <= length ret /\ w * i + length vv <= length ret) ->
  (inner x (scatter w v0 vv l ret)
   == inner x ret
      + sum_over l (fun i => inner (skipn i x) v0
                             + inner (skipn (w * i) x) vv))%Q.
Proof.
  revert ret. induction l as [|[i c] l IH]; intros ret Hx H;
    cbn [scatter fold_left sum_over]; [ring|].
  destruct (H i c) as [H1 H2]; [now left|].
  assert (E1 : length (add_at ret i (Np.scale c v0)) = length ret)
    by (apply add_at_length; now rewrite scale_length).
  assert (E2 : length (add_at (add_at ret i (Np.scale c v0)) (w * i)
                         (Np.scale c vv)) = length ret).
  { rewrite add_at_length; [exact E1|]. now rewrite scale_length, E1. }
  fold (scatter w v0 vv l
          (add_at (add_at ret i (Np.scale c v0)) (w * i) (Np.scale c vv))).
  rewrite IH.
  - rewrite !inner_add_at, !inner_scale_r.
    + ring.
    + exact Hx.
    + now rewrite scale_length.
    + now rewrite E1.
    + now rewrite scale_length, E1.
  - now rewrite E2.
  - intros j d Hj. rewrite E2. apply (H j d). now right.
Qed.

(** The window of each row against the chunks of the horizontal block is
    the flattened image against the zero-padded block. *)
Lemma inner_windows (n m i : nat) (rs cs : list (list Q)) :
  i <= n ->
  Forall (fun r => length r = m + n) rs ->
  Forall (fun c => length c = m) cs ->
  length cs = length rs ->
  (inner (concat (map (fun r => firstn m (skipn i r)) rs)) (concat cs)
   == inner (skipn i (concat rs)) (join0 n cs))%Q.
Proof.
  intros Hi Hrs. revert cs.
  induction Hrs as [|r rs Hr Hrs IH]; intros cs Hcs Hlen.
  - destruct cs; [|discriminate]. cbn. now rewrite skipn_nil.
  - destruct cs as [|c cs]; [discriminate|].
    apply Forall_cons_iff in Hcs as [Hc Hcs]. cbn [length] in Hlen.
    cbn [map concat].
    assert (Hwin : length (firstn m (skipn i r)) = m)
      by (rewrite length_firstn, length_skipn; lia).
    rewrite inner_app by lia.
    rewrite skipn_app. replace (i - length r) with 0 by lia. cbn [skipn].
    destruct cs as [|c' cs].
    + destruct rs; [|discriminate]. cbn [map concat join0].
      rewrite app_nil_r, inner_nil_r.
      rewrite inner_firstn_l by lia. ring.
    + change (join0 n (c :: c' :: cs))
        with (c ++ repeat 0%Q n ++ join0 n (c' :: cs)).
      rewrite <- (firstn_skipn m (skipn i r)) at 2.
      rewrite <- app_assoc, inner_app by lia.
      replace n with ((n - i) + i) at 1 by lia.
      rewrite repeat_app, <- app_assoc, inner_app.
      2: { rewrite length_skipn, length_skipn, repeat_length. lia. }
      rewrite inner_zeros_r, inner_skip_zeros.
      rewrite (IH (c' :: cs)) by (assumption || lia). ring.
Qed.

Lemma concat_skipn_uniform {A} (w k : nat) (ls : list (list A)) :
  Forall (fun r => length r = w) ls ->
  concat (skipn k ls) = skipn (k * w) (concat ls).
Proof.
  intros H. revert k. induction H as [|r ls Hr _ IH]; intros [|k];
    cbn [skipn concat Nat.mul]; try reflexivity.
  - now rewrite skipn_nil.
  - rewrite IH, skipn_app, <- Hr.
    rewrite (skipn_all2 r) by lia.
    cbn [app]. f_equal. lia.
Qed.

Lemma concat_firstn_uniform {A} (w k : nat) (ls : list (list A)) :
  Forall (fun r => length r = w) ls ->
  concat (firstn k ls) = firstn (k * w) (concat ls).
Proof.
  intros H. revert k. induction H as [|r ls Hr _ IH]; intros [|k];
    cbn [firstn concat Nat.mul]; try reflexivity.
  - now rewrite firstn_nil.
  - rewrite IH, firstn_app, <- Hr.
    rewrite (firstn_all2 r) by lia.
    f_equal. f_equal. lia.
Qed.

(** ** Entries *)

Lemma nth_concat_uniform {A} (m : nat) (ls : list (list A)) (i j : nat)
    (d : A) :
  Forall (fun r => length r = m) ls -> j < m ->
  nth (i * m + j) (concat ls) d = nth j (nth i ls []) d.
Proof.
  intros H Hj. revert i. induction H as [|r ls Hr _ IH]; intros i.
  - cbn. destruct i; destruct j; destruct (_ + _); reflexivity.
  - destruct i as [|i]; cbn [concat nth Nat.mul Nat.add].
    + apply app_nth1. lia.
    + rewrite <- Hr, <- Nat.add_assoc, app_nth2_plus, Hr. apply IH.
Qed.

Lemma nth_map_in {A B} (f : A -> B) (l : list A) (i : nat) (d : A) (d' : B) :
  i < length l -> nth i (map f l) d' = f (nth i l d).
Proof.
  intros H. rewrite (nth_indep _ d' (f d)) by (now rewrite length_map).
  apply map_nth.
Qed.

Lemma nth_map2 (f : Q -> Q -> Q) (a b : list Q) (k : nat) (d : Q) :
  k < length a -> k < length b ->
  nth k (Np.map2 f a b) d = f (nth k a d) (nth k b d).
Proof.
  revert a b. induction k as [|k IH]; intros [|x a] [|y b] Ha Hb;
    cbn in *; try lia; [reflexivity|].
  apply IH; lia.
Qed.

Lemma nth_accumulate (f : nat -> list Q) l (acc : list Q) (k : nat) :
  (forall i c, In (i, c) l -> length (f i) = length acc) ->
  k < length acc ->
  (nth k (accumulate f l acc) 0
   == nth k acc 0 + sum_over l (fun i => nth k (f i) 0))%Q.
Proof.
  revert acc. induction l as [|[i c] l IH]; intros acc H Hk;
    cbn [accumulate fold_left sum_over].
  - ring.
  - assert (Hf : length (f i) = length acc) by (apply (H i c); now left).
    assert (E : length (Np.map2 Qplus acc (Np.scale c (f i))) = length acc).
    { rewrite map2_length, scale_length, Hf. lia. }
    fold (accumulate f l (Np.map2 Qplus acc (Np.scale c (f i)))).
    rewrite IH.
    + rewrite nth_map2 by (rewrite ?scale_length; lia).
      unfold Np.scale. rewrite (nth_map_in _ _ 0%Q) by lia. ring.
    + intros j d Hj. rewrite E. apply (H j d). now right.
    + now rewrite E.
Qed.

(** ** The operators on an image larger than the stencil *)

(** *** The forward operator *)

Section Forward.

Variable self : TotalVariation.
Variables n h w : nat.

Hypothesis HL : self_length self = Z.of_nat n.
Hypothesis Hcoef : length (coef self) = S n.
Hypothesis Hn : 1 <= n.
Hypothesis Hh : n < h.
Hypothesis Hw : n < w.

Lemma row_window (row : list Q) (i : nat) :
  length row = w -> i <= n ->
  Np.slice (Np.roll row i) None (Some (- self_length self)%Z)
  = firstn (w - n) (skipn i row).
Proof using All.
  intros Hrow Hi. rewrite HL, roll_small by lia.
  rewrite slice_drop_last by lia.
  rewrite length_app, length_skipn, length_firstn, Hrow.
  replace (w - i + Nat.min i w - n) with (w - n) by lia.
  rewrite firstn_app, length_skipn, Hrow.
  replace (w - n - (w - i)) with 0 by lia.
  now rewrite firstn_O, app_nil_r.
Qed.

Variable u : ndarray2.
Hypothesis Hnr : nrows u = h.
Hypothesis Hnc : ncols u = w.
Hypothesis Hrows : length (rows u) = h.
Hypothesis Hcols : Forall (fun r => length r = w) (rows u).

Lemma hshift_valid (i : nat) :
  i <= n ->
  hshift self u i
  = concat (map (fun row => firstn (w - n) (skipn i row)) (rows u)).
Proof using All.
  intros Hi. unfold hshift. f_equal. apply map_ext_in.
  intros row Hin. apply row_window; [|exact Hi].
  rewrite Forall_forall in Hcols. now apply Hcols.
Qed.

Lemma vshift_valid (i : nat) :
  i <= n ->
  vshift self u i = concat (firstn (h - n) (skipn i (rows u))).
Proof using All.
  intros Hi. unfold vshift. f_equal. rewrite HL, roll_small by lia.
  rewrite slice_drop_last by lia.
  rewrite length_app, length_skipn, length_firstn, Hrows.
  replace (h - i + Nat.min i h - n) with (h - n) by lia.
  rewrite firstn_app, length_skipn, Hrows.
  replace (h - n - (h - i)) with 0 by lia.
  now rewrite firstn_O, app_nil_r.
Qed.

Lemma hshift_length (i : nat) :
  i <= n -> length (hshift self u i) = h * (w - n).
Proof using All.
  intros Hi. rewrite hshift_valid by exact Hi.
  rewrite (@concat_length_uniform _ _ (w - n)).
  - now rewrite length_map, Hrows.
  - rewrite Forall_map. eapply Forall_impl; [|exact Hcols].
    cbn. intros r Hr. rewrite length_firstn, length_skipn. lia.
Qed.

Lemma vshift_length (i : nat) :
  i <= n -> length (vshift self u i) = (h - n) * w.
Proof using All.
  intros Hi. rewrite vshift_valid by exact Hi.
  rewrite (@concat_length_uniform _ _ w).
  - rewrite length_firstn, length_skipn, Hrows.
    now replace (Nat.min (h - n) (h - i)) with (h - n) by lia.
  - apply Forall_prefix, Forall_suffix, Hcols.
Qed.

Lemma tv_loop (l : list (nat * Q)) (A B : list Q) :
  (forall i c, In (i, c) l -> i <= n) ->
  length A = h * (w - n) -> length B = (h - n) * w ->
  foldM (fun ret '(i, c) =>
           ret <- Np.iadd ret None
                    (Some (Z.of_nat (nrows u) * Z.of_nat (ncols u)
                           - self_length self * Z.of_nat (nrows u))%Z)
                    (Np.scale c (hshift self u i)) ;;
           Np.iadd ret
             (Some (Z.of_nat (nrows u) * Z.of_nat (ncols u)
                    - self_length self * Z.of_nat (nrows u))%Z) None
             (Np.scale c (vshift self u i)))
        l (A ++ B)
  = Ok (accumulate (hshift self u) l A ++ accumulate (vshift self u) l B).
Proof using All.
  rewrite Hnr, Hnc, HL.
  replace (Z.of_nat h * Z.of_nat w - Z.of_nat n * Z.of_nat h)%Z
    with (Z.of_nat (h * (w - n))) by nia.
  revert A B. induction l as [|[i c] l IH]; intros A B Hl HA HB.
  - reflexivity.
  - assert (Hi : i <= n) by (apply (Hl i c); now left).
    cbn [foldM].
    rewrite (@iadd_inside (A ++ B) _ 0).
    2: reflexivity.
    2: { cbn [Np.stop_of]. rewrite bound_of_nat, length_app, scale_length,
           hshift_length by exact Hi. lia. }
    cbn [bind].
    rewrite add_at_prefix
      by (now rewrite scale_length, hshift_length by exact Hi).
    set (A' := Np.map2 Qplus A (Np.scale c (hshift self u i))).
    assert (HA' : length A' = h * (w - n)).
    { unfold A'. rewrite map2_length, scale_length, hshift_length by exact Hi.
      lia. }
    rewrite (@iadd_inside (A' ++ B) _ (length A')).
    2: { cbn [Np.start_of]. rewrite bound_of_nat, length_app. lia. }
    2: { cbn [Np.stop_of]. rewrite length_app, scale_length,
           vshift_length by exact Hi. lia. }
    rewrite add_at_suffix
      by (now rewrite scale_length, vshift_length by exact Hi).
    cbn [bind]. rewrite IH.
    + reflexivity.
    + intros j d Hj. apply (Hl j d). now right.
    + exact HA'.
    + rewrite map2_length, scale_length, vshift_length by exact Hi. lia.
Qed.

Lemma tv_closed :
  _tv self u
  = Ok (accumulate (hshift self u) (enumerate (coef self))
          (repeat 0%Q (h * (w - n)))
        ++ accumulate (vshift self u) (enumerate (coef self))
             (repeat 0%Q ((h - n) * w))).
Proof using All.
  unfold _tv, Np.zeros, Np.full.
  destruct (Z.ltb_spec
              (2 * Z.of_nat (nrows u) * Z.of_nat (ncols u)
               - self_length self * (Z.of_nat (nrows u) + Z.of_nat (ncols u)))
              0) as [Hneg|Hpos].
  { rewrite Hnr, Hnc, HL in Hneg. nia. }
  cbn [bind].
  replace (Z.to_nat _) with (h * (w - n) + (h - n) * w)
    by (rewrite Hnr, Hnc, HL; nia).
  rewrite repeat_app. apply tv_loop.
  - intros i c Hin. apply in_enumerate in Hin. lia.
  - apply repeat_length.
  - apply repeat_length.
Qed.

Lemma flatten_length : length (flatten u) = h * w.
Proof using All.
  unfold flatten. rewrite (concat_length_uniform Hcols). now rewrite Hrows.
Qed.

Lemma inner_hshift (i : nat) (vh : list Q) :
  i <= n -> length vh = h * (w - n) ->
  (inner (hshift self u i) vh
   == inner (skipn i (flatten u)) (join0 n (chunks (w - n) h vh)))%Q.
Proof using All.
  intros Hi Hvh. rewrite hshift_valid by exact Hi.
  rewrite <- (concat_chunks (w - n) h vh) at 1 by exact Hvh.
  apply inner_windows.
  - exact Hi.
  - eapply Forall_impl; [|exact Hcols]. cbn. intros r Hr. lia.
  - apply chunks_uniform, Hvh.
  - now rewrite chunks_length.
Qed.

Lemma inner_vshift (i : nat) (vv : list Q) :
  i <= n -> length vv = (h - n) * w ->
  inner (vshift self u i) vv = inner (skipn (w * i) (flatten u)) vv.
Proof using All.
  intros Hi Hvv. rewrite vshift_valid by exact Hi.
  rewrite (concat_firstn_uniform (w := w))
    by (apply Forall_suffix, Hcols).
  rewrite (concat_skipn_uniform (w := w)) by exact Hcols.
  rewrite inner_firstn_l by (rewrite Hvv; lia).
  now rewrite (Nat.mul_comm i w).
Qed.

Lemma hshift_entry (i r j : nat) :
  i <= n -> r < h -> j < w - n ->
  nth (r * (w - n) + j) (hshift self u i) 0%Q = px u r (i + j).
Proof using All.
  intros Hi Hr Hj. rewrite hshift_valid by exact Hi.
  rewrite nth_concat_uniform; [|
    rewrite Forall_map; eapply Forall_impl; [|exact Hcols];
    cbn; intros x Hx; rewrite length_firstn, length_skipn; lia | exact Hj].
  rewrite (nth_map_in _ _ []) by lia.
  rewrite nth_firstn. destruct (Nat.ltb_spec j (w - n)); [|lia].
  now rewrite nth_skipn.
Qed.

Lemma vshift_entry (i r j : nat) :
  i <= n -> r < h - n -> j < w ->
  nth (r * w + j) (vshift self u i) 0%Q = px u (i + r) j.
Proof using All.
  intros Hi Hr Hj. rewrite vshift_valid by exact Hi.
  rewrite nth_concat_uniform;
    [|apply Forall_prefix, Forall_suffix, Hcols|exact Hj].
  rewrite nth_firstn. destruct (Nat.ltb_spec r (h - n)); [|lia].
  now rewrite nth_skipn.
Qed.

(** The entries of [_tv(u)] on its closed form: the stencil applied along
    the rows, then along the columns. *)
Lemma tv_entry_h (r j : nat) :
  r < h -> j < w - n ->
  (nth (r * (w - n) + j)
     (accumulate (hshift self u) (enumerate (coef self))
        (repeat 0%Q (h * (w - n)))
      ++ accumulate (vshift self u) (enumerate (coef self))
           (repeat 0%Q ((h - n) * w))) 0
   == sum_over (enumerate (coef self)) (fun i => px u r (i + j)))%Q.
Proof using All.
  intros Hr Hj.
  assert (Hin : forall i c, In (i, c) (enumerate (coef self)) -> i <= n).
  { intros i c H. apply in_enumerate in H. lia. }
  assert (Hk : r * (w - n) + j < h * (w - n)) by nia.
  rewrite app_nth1.
  2: { rewrite accumulate_length, repeat_length; [exact Hk|].
       intros i c H. rewrite repeat_length. apply hshift_length, (Hin i c H). }
  rewrite nth_accumulate.
  2: { intros i c H. rewrite repeat_length. apply hshift_length, (Hin i c H). }
  2: { now rewrite repeat_length. }
  rewrite nth_repeat.
  rewrite (sum_over_ext _ _ (fun i => px u r (i + j))); [ring|].
  intros i c H. rewrite hshift_entry; [reflexivity|apply (Hin i c H)|lia|lia].
Qed.

Lemma tv_entry_v (r j : nat) :
  r < h - n -> j < w ->
  (nth (h * (w - n) + (r * w + j))
     (accumulate (hshift self u) (enumerate (coef self))
        (repeat 0%Q (h * (w - n)))
      ++ accumulate (vshift self u) (enumerate (coef self))
           (repeat 0%Q ((h - n) * w))) 0
   == sum_over (enumerate (coef self)) (fun i => px u (i + r) j))%Q.
Proof using All.
  intros Hr Hj.
  assert (Hin : forall i c, In (i, c) (enumerate (coef self)) -> i <= n).
  { intros i c H. apply in_enumerate in H. lia. }
  assert (Hk : r * w + j < (h - n) * w) by nia.
  assert (Hlen : length (accumulate (hshift self u) (enumerate (coef self))
                           (repeat 0%Q (h * (w - n)))) = h * (w - n)).
  { rewrite accumulate_length, repeat_length; [reflexivity|].
    intros i c H. rewrite repeat_length. apply hshift_length, (Hin i c H). }
  rewrite <- Hlen at 1. rewrite app_nth2_plus.
  rewrite nth_accumulate.
  2: { intros i c H. rewrite repeat_length. apply vshift_length, (Hin i c H). }
  2: { now rewrite repeat_length. }
  rewrite nth_repeat.
  rewrite (sum_over_ext _ _ (fun i => px u (i + r) j)); [ring|].
  intros i c H. rewrite vshift_entry; [reflexivity|apply (Hin i c H)|lia|lia].
Qed.

Lemma tv_closed_length :
  length (accumulate (hshift self u) (enumerate (coef self))
            (repeat 0%Q (h * (w - n)))
          ++ accumulate (vshift self u) (enumerate (coef self))
               (repeat 0%Q ((h - n) * w)))
  = h * (w - n) + (h - n) * w.
Proof using All.
  assert (Hin : forall i c, In (i, c) (enumerate (coef self)) -> i <= n).
  { intros i c H. apply in_enumerate in H. lia. }
  rewrite length_app, !accumulate_length, !repeat_length; [reflexivity| |].
  - intros i c H. rewrite repeat_length. apply vshift_length, (Hin i c H).
  - intros i c H. rewrite repeat_length. apply hshift_length, (Hin i c H).
Qed.

End Forward.

(** *** The adjoint *)

Section Adjoint.

Variable self : TotalVariation.
Variables n h w : nat.

Hypothesis HL : self_length self = Z.of_nat n.
Hypothesis Hcoef : length (coef self) = S n.
Hypothesis Hn : 1 <= n.
Hypothesis Hh : n < h.
Hypothesis Hw : n < w.

Lemma insert_indices_nat (g : nat) :
  insert_indices self h (Z.of_nat w) g
  = map (fun j => Z.of_nat (0 + j * (w - n + g))) (seq 1 (h - 1)).
Proof using All.
  unfold insert_indices. apply map_ext. intros j. rewrite HL.
  replace (Z.of_nat w - Z.of_nat n + Z.of_nat g)%Z
    with (Z.of_nat (w - n + g)) by lia.
  now rewrite <- Nat2Z.inj_mul.
Qed.

Lemma insert0_round (cs : list (list Q)) (g : nat) :
  length cs = h -> Forall (fun c => length c = w - n) cs ->
  Np.insert0 (join0 g cs) (insert_indices self h (Z.of_nat w) g)
  = Ok (join0 (S g) cs).
Proof using All.
  intros Hlen Hall. unfold Np.insert0.
  rewrite insert_indices_nat, (join0_length g Hall), Hlen.
  assert (Hchk : forall j, In j (seq 1 (h - 1)) ->
                 0 + j * (w - n + g) <= h * (w - n) + (h - 1) * g).
  { intros j Hj. apply in_seq in Hj. nia. }
  rewrite (proj2 (forallb_forall _ _)).
  2: { intros i Hi. apply in_map_iff in Hi. destruct Hi as [j [<- Hj]].
       apply Hchk in Hj. clear Hchk.
       set (X := h * (w - n) + (h - 1) * g) in *.
       set (Y := 0 + j * (w - n + g)) in *.
       apply andb_true_intro. split; apply Z.leb_le; lia. }
  f_equal. rewrite map_map.
  rewrite (map_ext _ (fun j => 0 + j * (w - n + g))).
  2: { intros j. generalize (0 + j * (w - n + g)). intros y.
       destruct (Z.ltb_spec (Z.of_nat y) 0); [lia|]. apply Nat2Z.id. }
  destruct cs as [|c cs]; [cbn in Hlen; lia|].
  cbn [length] in Hlen. replace (h - 1) with (length cs) by lia.
  apply insert_progression; [lia|exact Hall].
Qed.

Lemma zero_padded_loop (cs : list (list Q)) (k g : nat) :
  length cs = h -> Forall (fun c => length c = w - n) cs ->
  foldM (fun v0 i => Np.insert0 v0 (insert_indices self h (Z.of_nat w) i))
        (seq g k) (join0 g cs)
  = Ok (join0 (g + k) cs).
Proof using All.
  intros Hlen Hall. revert g. induction k as [|k IH]; intros g.
  - cbn. now rewrite Nat.add_0_r.
  - cbn [seq foldM]. rewrite insert0_round by assumption. cbn [bind].
    rewrite IH. f_equal. f_equal. lia.
Qed.

Variable v : list Q.
Hypothesis Hv : length v = h * (w - n) + (h - n) * w.

(** The two blocks of a difference vector. *)
Local Abbreviation vh := (firstn (h * (w - n)) v).
Local Abbreviation vv := (skipn (h * (w - n)) v).

Lemma vh_length : length vh = h * (w - n).
Proof using All.
  rewrite length_firstn, Hv. apply Nat.min_l, Nat.le_add_r.
Qed.

Lemma vv_length : length vv = (h - n) * w.
Proof using All.
  rewrite length_skipn, Hv.
  generalize (h * (w - n)) ((h - n) * w). intros a b. lia.
Qed.

Lemma zero_padded_closed :
  zero_padded self v (h, w) = Ok (join0 n (chunks (w - n) h vh)).
Proof using All.
  unfold zero_padded. cbn [fst snd]. rewrite HL, Nat2Z.id.
  replace (Z.of_nat h * (Z.of_nat w - Z.of_nat n))%Z
    with (Z.of_nat (h * (w - n))) by nia.
  rewrite slice_prefix.
  rewrite <- (concat_chunks (w - n) h vh) at 1 by apply vh_length.
  rewrite <- join0_zero.
  apply (zero_padded_loop (cs := chunks (w - n) h vh) n 0).
  - apply chunks_length.
  - apply chunks_uniform, vh_length.
Qed.

Lemma zero_padded_length :
  length (join0 n (chunks (w - n) h vh)) = h * w - n.
Proof using All.
  rewrite (@join0_length n (w - n)) by (apply chunks_uniform, vh_length).
  rewrite chunks_length. nia.
Qed.

Lemma ttv_loop (l : list (nat * Q)) (ret v0 : list Q) :
  (forall i c, In (i, c) l -> i <= n) ->
  length ret = h * w -> length v0 = h * w - n ->
  foldM (fun ret '(i, c) =>
           let i := Z.of_nat i in
           ret <- Np.iadd ret (Some i) (Some (i + Z.of_nat (length v0))%Z)
                    (Np.scale c v0) ;;
           Np.iadd ret (Some (Z.of_nat w * i)%Z)
             (Some (Z.of_nat w * i
                    + Z.of_nat w * (Z.of_nat h - self_length self))%Z)
             (Np.scale c (Np.slice v (Some (Z.of_nat h
                                            * (Z.of_nat w - self_length self))%Z)
                            None)))
        l ret
  = Ok (scatter w v0 vv l ret).
Proof using All.
  rewrite HL.
  replace (Z.of_nat h * (Z.of_nat w - Z.of_nat n))%Z
    with (Z.of_nat (h * (w - n))) by nia.
  rewrite slice_suffix.
  assert (Hhw : n <= h * w) by nia.
  assert (Hvv := vv_length).
  revert ret. induction l as [|[i c] l IH]; intros ret Hl Hret Hv0.
  - reflexivity.
  - assert (Hi : i <= n) by (apply (Hl i c); now left).
    cbn [foldM scatter fold_left]. cbv zeta.
    rewrite (@iadd_inside ret _ i).
    2: { cbn [Np.start_of]. rewrite bound_of_nat. lia. }
    2: { cbn [Np.stop_of]. rewrite <- Nat2Z.inj_add, bound_of_nat, scale_length.
         lia. }
    cbn [bind].
    assert (E1 : length (add_at ret i (Np.scale c v0)) = h * w).
    { rewrite add_at_length; [exact Hret|]. rewrite scale_length. lia. }
    assert (Hwi : w * i + (h - n) * w <= h * w) by nia.
    rewrite (@iadd_inside _ _ (w * i)).
    2: { cbn [Np.start_of]. rewrite <- Nat2Z.inj_mul, bound_of_nat, E1.
         generalize dependent (w * i). intros; lia. }
    2: { cbn [Np.stop_of].
         replace (Z.of_nat w * Z.of_nat i
                  + Z.of_nat w * (Z.of_nat h - Z.of_nat n))%Z
           with (Z.of_nat (w * i + (h - n) * w)) by nia.
         rewrite bound_of_nat, E1, scale_length, Hvv.
         generalize dependent (w * i). generalize dependent ((h - n) * w).
         intros; lia. }
    cbn [bind].
    fold (scatter w v0 vv l
            (add_at (add_at ret i (Np.scale c v0)) (w * i) (Np.scale c vv))).
    apply IH.
    + intros j d Hj. apply (Hl j d). now right.
    + rewrite add_at_length; [exact E1|]. rewrite scale_length, E1, Hvv.
      exact Hwi.
    + exact Hv0.
Qed.

Lemma ttv_closed :
  _transposed_tv self v (h, w)
  = Ok (scatter w (join0 n (chunks (w - n) h vh)) vv
          (enumerate (coef self)) (repeat 0%Q (h * w))).
Proof using All.
  unfold _transposed_tv, Np.zeros, Np.full. cbn [fst snd].
  destruct (Z.ltb_spec (Z.of_nat h * Z.of_nat w) 0) as [Hneg|_]; [nia|].
  cbn [bind]. rewrite zero_padded_closed. cbn [bind].
  rewrite <- Nat2Z.inj_mul, Nat2Z.id.
  apply ttv_loop.
  - intros i c Hin. apply in_enumerate in Hin. lia.
  - apply repeat_length.
  - apply zero_padded_length.
Qed.

End Adjoint.

(** *** The inner-product identity *)

Section Identity.

Variable self : TotalVariation.
Variables n h w : nat.

Hypothesis HL : self_length self = Z.of_nat n.
Hypothesis Hcoef : length (coef self) = S n.
Hypothesis Hn : 1 <= n.
Hypothesis Hh : n < h.
Hypothesis Hw : n < w.

Variable u : ndarray2.
Hypothesis Hnr : nrows u = h.
Hypothesis Hnc : ncols u = w.
Hypothesis Hrows : length (rows u) = h.
Hypothesis Hcols : Forall (fun r => length r = w) (rows u).

Variable v : list Q.
Hypothesis Hv : length v = h * (w - n) + (h - n) * w.

(** The two blocks of a difference vector. *)
Local Abbreviation vh := (firstn (h * (w - n)) v).
Local Abbreviation vv := (skipn (h * (w - n)) v).

(** The inner-product identity on the closed forms of the two operators. *)
Lemma adjoint_closed :
  (inner (accumulate (hshift self u) (enumerate (coef self))
            (repeat 0%Q (h * (w - n)))
          ++ accumulate (vshift self u) (enumerate (coef self))
               (repeat 0%Q ((h - n) * w)))
         v
   == inner (flatten u)
        (scatter w (join0 n (chunks (w - n) h vh)) vv
           (enumerate (coef self)) (repeat 0%Q (h * w))))%Q.
Proof using All.
  assert (Hin : forall i c, In (i, c) (enumerate (coef self)) -> i <= n).
  { intros i c H. apply in_enumerate in H. lia. }
  assert (Hvh := @vh_length self n h w HL Hcoef Hn Hh Hw v Hv).
  assert (Hvv := @vv_length self n h w HL Hcoef Hn Hh Hw v Hv).
  assert (Hpad := @zero_padded_length self n h w HL Hcoef Hn Hh Hw v Hv).
  assert (Hhl := @hshift_length self n h w HL Hcoef Hn Hh Hw u Hnr Hnc
                   Hrows Hcols).
  assert (Hvl := @vshift_length self n h w HL Hcoef Hn Hh Hw u Hnr Hnc
                   Hrows Hcols).
  assert (Hfl := @flatten_length self n h w HL Hcoef Hn Hh Hw u Hnr Hnc
                   Hrows Hcols).
  assert (Hih := @inner_hshift self n h w HL Hcoef Hn Hh Hw u Hnr Hnc
                   Hrows Hcols).
  assert (Hiv := @inner_vshift self n h w HL Hcoef Hn Hh Hw u Hnr Hnc
                   Hrows Hcols).
  rewrite <- (firstn_skipn (h * (w - n)) v) at 1.
  rewrite inner_app.
  2: { rewrite accumulate_length, repeat_length, Hvh; [reflexivity|].
       intros i c H. rewrite repeat_length. apply Hhl, (Hin i c H). }
  rewrite !inner_accumulate.
  2: { intros i c H. rewrite repeat_length. apply Hvl, (Hin i c H). }
  2: { intros i c H. rewrite repeat_length. apply Hhl, (Hin i c H). }
  rewrite inner_scatter.
  2: { now rewrite Hfl, repeat_length. }
  2: { intros i c H. apply Hin in H.
       rewrite Hpad, Hvv, repeat_length. nia. }
  rewrite !inner_zeros_l, inner_zeros_r, sum_over_plus.
  rewrite (sum_over_ext _ (fun i => inner (hshift self u i) vh)
             (fun i => inner (skipn i (flatten u))
                         (join0 n (chunks (w - n) h vh)))).
  2: { intros i c H. apply Hih; [apply (Hin i c H)|exact Hvh]. }
  rewrite (sum_over_ext _ (fun i => inner (vshift self u i) vv)
             (fun i => inner (skipn (w * i) (flatten u)) vv)).
  2: { intros i c H. rewrite Hiv; [reflexivity|apply (Hin i c H)|exact Hvv]. }
  ring.
Qed.

End Identity.

(** ** The claims about the operators *)

Lemma valid_nat (self : TotalVariation) (h w : nat) :
  valid self h w ->
  exists n, self_length self = Z.of_nat n /\ length (coef self) = S n /\
            1 <= n /\ n < h /\ n < w.
Proof.
  intros (HL & Hc & Hh & Hw).
  exists (length (coef self) - 1). repeat split; lia.
Qed.

Lemma difference_length (self : TotalVariation) (n h w : nat) (v : list Q) :
  self_length self = Z.of_nat n -> n < h -> n < w ->
  Z.of_nat (length v)
  = (2 * Z.of_nat h * Z.of_nat w
     - self_length self * (Z.of_nat h + Z.of_nat w))%Z ->
  length v = h * (w - n) + (h - n) * w.
Proof.
  intros HL Hh Hw Hv. rewrite HL in Hv. nia.
Qed.

(** C1: for a stencil of at least two coefficients, an image [u] larger than
    the stencil in both directions and a difference vector [v] of length
    [2*h*w - length*(h+w)], both operators return and
    [<_tv(u), v> = <u, _transposed_tv(v)>] exactly. *)
Theorem tv_adjoint_identity (self : TotalVariation) (u : ndarray2)
    (v : list Q) :
  valid self (nrows u) (ncols u) ->
  wf_ndarray2 u ->
  Z.of_nat (length v)
  = (2 * Z.of_nat (nrows u) * Z.of_nat (ncols u)
     - self_length self * (Z.of_nat (nrows u) + Z.of_nat (ncols u)))%Z ->
  exists Du Dtv,
    _tv self u = Ok Du /\
    _transposed_tv self v (nrows u, ncols u) = Ok Dtv /\
    (inner Du v == inner (flatten u) Dtv)%Q.
Proof.
  intros Hvalid [Hrows Hcols] Hv.
  destruct (valid_nat Hvalid) as (n & HL & Hcoef & Hn & Hh & Hw).
  assert (Hv' := @difference_length self n _ _ v HL Hh Hw Hv).
  eexists. eexists. split; [|split].
  - apply (@tv_closed self n _ _ HL Hcoef Hn Hh Hw u eq_refl eq_refl
             Hrows Hcols).
  - apply (@ttv_closed self n _ _ HL Hcoef Hn Hh Hw v Hv').
  - apply (@adjoint_closed self n _ _ HL Hcoef Hn Hh Hw u eq_refl eq_refl
             Hrows Hcols v Hv').
Qed.

Lemma tv_adjoint_identity_witness :
  exists Du Dtv,
    _tv example_stencil example_image = Ok Du /\
    _transposed_tv example_stencil example_differences (3, 4) = Ok Dtv /\
    (inner Du example_differences == inner (flatten example_image) Dtv)%Q.
Proof.
  apply (@tv_adjoint_identity example_stencil example_image
           example_differences).
  - unfold valid; cbn; lia.
  - split; [reflexivity|]. repeat constructor.
  - reflexivity.
Defined.

(** C3: for the coefficients [[1, -1]] and an image with [h, w >= 2], the
    first [h*(w-1)] entries of [_tv(u)] are the differences
    [u[i,j] - u[i,j+1]], row after row, and the remaining [w*(h-1)] entries
    are the differences [u[i,j] - u[i+1,j]]. *)
Theorem tv_first_differences (self : TotalVariation) (u : ndarray2) :
  coef self = [1; -1]%Q -> self_length self = 1%Z ->
  wf_ndarray2 u -> 2 <= nrows u -> 2 <= ncols u ->
  exists t,
    _tv self u = Ok t /\
    length t = nrows u * (ncols u - 1) + ncols u * (nrows u - 1) /\
    (forall i j, i < nrows u -> j < ncols u - 1 ->
       (nth (i * (ncols u - 1) + j) t 0 == px u i j - px u i (j + 1))%Q) /\
    (forall i j, i < nrows u - 1 -> j < ncols u ->
       (nth (nrows u * (ncols u - 1) + i * ncols u + j) t 0
        == px u i j - px u (i + 1) j)%Q).
Proof.
  intros Hc HL [Hrows Hcols] Hh Hw.
  assert (HL' : self_length self = Z.of_nat 1) by (rewrite HL; reflexivity).
  assert (Hcoef : length (coef self) = 2) by (now rewrite Hc).
  assert (H1 : 1 <= 1) by lia.
  assert (Hh' : 1 < nrows u) by lia.
  assert (Hw' : 1 < ncols u) by lia.
  eexists. split; [|split; [|split]].
  - apply (@tv_closed self 1 _ _ HL' Hcoef H1 Hh' Hw' u eq_refl eq_refl
             Hrows Hcols).
  - rewrite (@tv_closed_length self 1 _ _ HL' Hcoef H1 Hh' Hw' u eq_refl
               eq_refl Hrows Hcols). lia.
  - intros i j Hi Hj.
    rewrite (@tv_entry_h self 1 _ _ HL' Hcoef H1 Hh' Hw' u eq_refl eq_refl
               Hrows Hcols i j Hi Hj).
    rewrite Hc. cbn [enumerate length seq combine sum_over Nat.add].
    replace (j + 1) with (S j) by lia. ring.
  - intros i j Hi Hj. rewrite <- Nat.add_assoc.
    rewrite (@tv_entry_v self 1 _ _ HL' Hcoef H1 Hh' Hw' u eq_refl eq_refl
               Hrows Hcols i j Hi Hj).
    rewrite Hc. cbn [enumerate length seq combine sum_over Nat.add].
    replace (i + 1) with (S i) by lia. ring.
Qed.

Lemma tv_first_differences_witness :
  exists t,
    _tv (mk_TotalVariation 1 1000 [1; -1] (1 # 1000) (1 # 10) false false 1)%Q
        (mk_ndarray2 3 3 [[1; 2; 4]; [8; 16; 32]; [64; 128; 256]]%Q)
    = Ok t /\
    length t = 3 * (3 - 1) + 3 * (3 - 1) /\
    (forall i j, i < 3 -> j < 3 - 1 ->
       (nth (i * (3 - 1) + j) t 0
        == px (mk_ndarray2 3 3 [[1; 2; 4]; [8; 16; 32]; [64; 128; 256]]%Q) i j
           - px (mk_ndarray2 3 3 [[1; 2; 4]; [8; 16; 32]; [64; 128; 256]]%Q)
               i (j + 1))%Q) /\
    (forall i j, i < 3 - 1 -> j < 3 ->
       (nth (3 * (3 - 1) + i * 3 + j) t 0
        == px (mk_ndarray2 3 3 [[1; 2; 4]; [8; 16; 32]; [64; 128; 256]]%Q) i j
           - px (mk_ndarray2 3 3 [[1; 2; 4]; [8; 16; 32]; [64; 128; 256]]%Q)
               (i + 1) j)%Q).
Proof.
  apply (@tv_first_differences
           (mk_TotalVariation 1 1000 [1; -1] (1 # 1000) (1 # 10)
              false false 1)%Q
           (mk_ndarray2 3 3 [[1; 2; 4]; [8; 16; 32]; [64; 128; 256]]%Q)).
  - reflexivity.
  - reflexivity.
  - split; [reflexivity|]. repeat constructor.
  - cbn; lia.
  - cbn; lia.
Defined.

(** ** The step sizes *)

Lemma iadd_scalar_inside (ret : list Q) (a m : nat) (start stop : option Z)
    (c : Q) :
  Np.start_of (length ret) start = a ->
  Np.stop_of (length ret) stop = a + m ->
  Np.iadd_scalar ret start stop c = add_scalar_at ret a m c.
Proof.
  intros Ha Hb. unfold Np.iadd_scalar, add_scalar_at. rewrite Ha, Hb.
  now replace (a + m - a) with m by lia.
Qed.

Lemma add_scalar_at_length (ret : list Q) (a m : nat) (c : Q) :
  length (add_scalar_at ret a m c) = length ret.
Proof.
  unfold add_scalar_at. rewrite <- (split3 ret a m) at 4.
  now rewrite !length_app, length_map.
Qed.

Lemma iadd_scalar_length (ret : list Q) (start stop : option Z) (c : Q) :
  length (Np.iadd_scalar ret start stop c) = length ret.
Proof. apply add_scalar_at_length. Qed.

Lemma tile_of_length (a : list Q) (w m : nat) :
  m + length a <= S w -> length (tile_of a w m) = w.
Proof.
  unfold tile_of. intros H.
  assert (G : forall l t, (forall i, In i l -> i + length a <= w) ->
                length t = w ->
                length (fold_left (fun t i => add_at t i a) l t) = w).
  { induction l as [|i l IH]; intros t Hl Ht; cbn [fold_left]; [exact Ht|].
    apply IH.
    - intros j Hj. apply Hl. now right.
    - rewrite add_at_length; [exact Ht|]. rewrite Ht. apply Hl. now left. }
  apply G; [|apply repeat_length].
  intros i Hi. apply in_seq in Hi. lia.
Qed.

Lemma tile_length (t : list Q) (k : nat) :
  length (Np.tile t k) = k * length t.
Proof.
  unfold Np.tile. induction k as [|k IH]; cbn; [reflexivity|].
  now rewrite length_app, IH.
Qed.

Section StepSize.

Variable self : TotalVariation.
Variables n h w : nat.

Hypothesis HL : self_length self = Z.of_nat n.
Hypothesis Hcoef : length (coef self) = S n.
Hypothesis Hn : 1 <= n.
Hypothesis Hh : n < h.
Hypothesis Hw : n < w.

Lemma abs_coef_length : length (Np.abs (coef self)) = S n.
Proof using All. unfold Np.abs. now rewrite length_map. Qed.

Lemma tile_loop (l : list nat) (t : list Q) :
  (forall i, In i l -> i + S n <= w) -> length t = w ->
  foldM (fun tile i =>
           let i := Z.of_nat i in
           Np.iadd tile (Some i) (Some (i + self_length self + 1)%Z)
             (Np.abs (coef self)))
        l t
  = Ok (fold_left (fun t i => add_at t i (Np.abs (coef self))) l t).
Proof using All.
  revert t. induction l as [|i l IH]; intros t Hl Ht; [reflexivity|].
  assert (Hi : i + S n <= w) by (apply Hl; now left).
  cbn [foldM fold_left]. cbv zeta.
  rewrite (@iadd_inside t _ i).
  2: { cbn [Np.start_of]. rewrite bound_of_nat. lia. }
  2: { cbn [Np.stop_of]. rewrite HL.
       replace (Z.of_nat i + Z.of_nat n + 1)%Z with (Z.of_nat (i + S n))
         by lia.
       rewrite bound_of_nat, abs_coef_length. lia. }
  cbn [bind]. apply IH.
  - intros j Hj. apply Hl. now right.
  - rewrite add_at_length; [exact Ht|]. rewrite abs_coef_length. lia.
Qed.

Lemma tau_sums_length : length (tau_sums self n h w) = h * w.
Proof using All.
  unfold tau_sums.
  assert (G : forall l t, length t = h * w ->
                length (fold_left
                          (fun tau '(i, c) =>
                             add_scalar_at tau (w * i) ((h - n) * w) c) l t)
                = h * w).
  { induction l as [|[i c] l IH]; intros t Ht; cbn [fold_left]; [exact Ht|].
    apply IH. now rewrite add_scalar_at_length. }
  apply G. rewrite map2_length, repeat_length, tile_length, tile_of_length.
  - lia.
  - rewrite abs_coef_length. lia.
Qed.

Lemma sigma_sums_length :
  length (sigma_sums self n h w) = h * (w - n) + (h - n) * w + h * w.
Proof using All.
  unfold sigma_sums. now rewrite length_app, !length_map, !repeat_length.
Qed.

Lemma tau_loop (l : list (nat * Q)) (t : list Q) :
  (forall i c, In (i, c) l -> i <= n) -> length t = h * w ->
  fold_left (fun tau '(i, c) =>
               let i := Z.of_nat i in
               Np.iadd_scalar tau (Some (Z.of_nat w * i)%Z)
                 (Some (Z.of_nat w * i
                        + Z.of_nat w * (Z.of_nat h - self_length self))%Z) c)
            l t
  = fold_left (fun tau '(i, c) => add_scalar_at tau (w * i) ((h - n) * w) c)
      l t.
Proof using All.
  revert t. induction l as [|[i c] l IH]; intros t Hl Ht; [reflexivity|].
  assert (Hi : i <= n) by (apply (Hl i c); now left).
  assert (Hwi : w * i + (h - n) * w <= h * w) by nia.
  cbn [fold_left]. cbv zeta.
  rewrite (@iadd_scalar_inside t (w * i) ((h - n) * w)).
  2: { cbn [Np.start_of]. rewrite <- Nat2Z.inj_mul, bound_of_nat, Ht.
       generalize dependent (w * i). generalize dependent ((h - n) * w).
       intros; lia. }
  2: { cbn [Np.stop_of]. rewrite HL.
       replace (Z.of_nat w * Z.of_nat i
                + Z.of_nat w * (Z.of_nat h - Z.of_nat n))%Z
         with (Z.of_nat (w * i + (h - n) * w)) by nia.
       rewrite bound_of_nat, Ht.
       generalize dependent (w * i). generalize dependent ((h - n) * w).
       intros; lia. }
  apply IH.
  - intros j d Hj. apply (Hl j d). now right.
  - now rewrite add_scalar_at_length.
Qed.

Lemma step_size_closed :
  _step_size self (h, w)
  = Ok (Np.reciprocal (tau_sums self n h w),
        Np.reciprocal (sigma_sums self n h w)).
Proof using All.
  unfold _step_size, Np.zeros, Np.full. cbn [fst snd].
  destruct (Z.ltb_spec (Z.of_nat h * Z.of_nat w) 0) as [Hneg|_]; [nia|].
  cbn [bind].
  destruct (Z.ltb_spec (Z.of_nat w) 0) as [Hneg|_]; [lia|].
  cbn [bind]. rewrite HL.
  replace (Z.to_nat (Z.of_nat w - Z.of_nat n)) with (w - n) by lia.
  rewrite Nat2Z.id, <- Nat2Z.inj_mul, Nat2Z.id, <- HL.
  rewrite tile_loop.
  2: { intros i Hi. apply in_seq in Hi. lia. }
  2: { apply repeat_length. }
  cbn [bind]. fold (tile_of (Np.abs (coef self)) w (w - n)).
  assert (Htile : length (Np.tile (tile_of (Np.abs (coef self)) w (w - n)) h)
                  = h * w).
  { rewrite tile_length, tile_of_length; [reflexivity|].
    rewrite abs_coef_length. lia. }
  rewrite (@iadd_inside (repeat (lambd self) (h * w)) _ 0).
  2: reflexivity.
  2: { cbn [Np.stop_of]. now rewrite repeat_length, Htile. }
  cbn [bind].
  rewrite add_at_whole by (now rewrite repeat_length, Htile).
  rewrite HL.
  destruct (Z.ltb_spec
              (3 * Z.of_nat (h * w)
               - Z.of_nat n * (Z.of_nat h + Z.of_nat w)) 0) as [Hneg|_];
    [nia|].
  cbn [bind]. rewrite <- HL, tau_loop.
  2: { intros i c Hin. apply in_enumerate in Hin.
       rewrite abs_coef_length in Hin. lia. }
  2: { rewrite map2_length, repeat_length, Htile. lia. }
  fold (tau_sums self n h w). rewrite HL. do 3 f_equal.
  replace (Z.to_nat (3 * Z.of_nat (h * w)
                     - Z.of_nat n * (Z.of_nat h + Z.of_nat w)))
    with ((h * (w - n) + (h - n) * w) + h * w) by nia.
  set (N := h * (w - n) + (h - n) * w).
  assert (Hhw : 0 < h * w) by nia.
  rewrite (@iadd_scalar_inside (repeat 0%Q (N + h * w)) 0 N).
  2: reflexivity.
  2: { cbn [Np.stop_of]. rewrite repeat_length.
       rewrite bound_opp by exact Hhw. lia. }
  unfold add_scalar_at at 1. cbn [firstn skipn app Nat.add].
  rewrite repeat_app at 1 2.
  rewrite firstn_app, skipn_app, repeat_length, Nat.sub_diag.
  rewrite (firstn_all2 (repeat 0%Q N)) by (rewrite repeat_length; lia).
  rewrite (skipn_all2 (repeat 0%Q N)) by (rewrite repeat_length; lia).
  cbn [firstn skipn app]. rewrite app_nil_r.
  set (S1 := map (fun x => (x + Np.sum (Np.abs (coef self)))%Q) (repeat 0%Q N)).
  assert (HS1 : length S1 = N) by (unfold S1; now rewrite length_map, repeat_length).
  rewrite (@iadd_scalar_inside _ N (h * w)).
  2: { cbn [Np.start_of]. rewrite length_app, HS1, repeat_length.
       rewrite bound_opp by exact Hhw. lia. }
  2: { cbn [Np.stop_of]. now rewrite length_app, HS1, repeat_length. }
  unfold add_scalar_at, sigma_sums. fold N. fold S1.
  rewrite firstn_app, !skipn_app, HS1, Nat.sub_diag.
  rewrite (firstn_all2 S1) by lia.
  rewrite (skipn_all2 S1) by lia.
  replace (N + h * w - N) with (h * w) by lia.
  rewrite (skipn_all2 S1) by lia.
  cbn [firstn skipn app]. rewrite app_nil_r.
  rewrite firstn_all2 by (rewrite repeat_length; lia).
  rewrite skipn_all2 by (rewrite repeat_length; lia).
  now rewrite app_nil_r.
Qed.

End StepSize.

Lemma size_tv (n h w : nat) :
  n < h -> n < w ->
  Z.of_nat (h * (w - n) + (h - n) * w)
  = (2 * Z.of_nat h * Z.of_nat w - Z.of_nat n * (Z.of_nat h + Z.of_nat w))%Z.
Proof. intros Hh Hw. nia. Qed.

Lemma size_padded (n h w : nat) :
  1 <= n -> n < h -> n < w ->
  Z.of_nat (h * w - n) = (Z.of_nat h * Z.of_nat w - Z.of_nat n)%Z.
Proof. intros Hn Hh Hw. nia. Qed.

Lemma size_sigma (n h w : nat) :
  n < h -> n < w ->
  Z.of_nat (h * (w - n) + (h - n) * w + h * w)
  = (3 * Z.of_nat h * Z.of_nat w - Z.of_nat n * (Z.of_nat h + Z.of_nat w))%Z.
Proof. intros Hh Hw. nia. Qed.

Lemma slices_inside (n h w i : nat) :
  1 <= n -> n < h -> n < w -> i <= n ->
  i + (h * w - n) <= h * w /\
  w * i + (h - n) * w <= h * w /\
  (Z.of_nat w * Z.of_nat i + Z.of_nat w * (Z.of_nat h - Z.of_nat n)
   <= Z.of_nat (h * w))%Z.
Proof. intros Hn Hh Hw Hi. repeat split; nia. Qed.

(** C10: on a shape larger than the stencil the three operators return
    without raising: the sizes they allocate are non-negative, the slices
    they update lie inside the arrays, [_tv] returns [2*h*w - length*(h+w)]
    entries, [_transposed_tv] returns [h*w] entries from a zero-padded block
    of [h*w - length] entries, and [_step_size] returns [tau] with [h*w]
    entries and [sigma] with [3*h*w - length*(h+w)] entries. *)
Theorem operators_total (self : TotalVariation) (u : ndarray2) (v : list Q) :
  let h := nrows u in
  let w := ncols u in
  let L := self_length self in
  valid self h w ->
  wf_ndarray2 u ->
  Z.of_nat (length v)
  = (2 * Z.of_nat h * Z.of_nat w - L * (Z.of_nat h + Z.of_nat w))%Z ->
  (0 <= 2 * Z.of_nat h * Z.of_nat w - L * (Z.of_nat h + Z.of_nat w))%Z /\
  (exists t,
     _tv self u = Ok t /\
     Z.of_nat (length t)
     = (2 * Z.of_nat h * Z.of_nat w - L * (Z.of_nat h + Z.of_nat w))%Z) /\
  (exists v0 r,
     zero_padded self v (h, w) = Ok v0 /\
     Z.of_nat (length v0) = (Z.of_nat h * Z.of_nat w - L)%Z /\
     (forall i, i < length (coef self) ->
        i + length v0 <= h * w /\
        (Z.of_nat w * Z.of_nat i + Z.of_nat w * (Z.of_nat h - L)
         <= Z.of_nat (h * w))%Z) /\
     _transposed_tv self v (h, w) = Ok r /\
     length r = h * w) /\
  (exists tau sigma,
     _step_size self (h, w) = Ok (tau, sigma) /\
     length tau = h * w /\
     Z.of_nat (length sigma)
     = (3 * Z.of_nat h * Z.of_nat w - L * (Z.of_nat h + Z.of_nat w))%Z).
Proof.
  intros h w L Hvalid [Hrows Hcols] Hv. subst h w L.
  destruct (valid_nat Hvalid) as (n & HL & Hcoef & Hn & Hh & Hw).
  assert (Hv' := @difference_length self n _ _ v HL Hh Hw Hv).
  assert (Hpad := @zero_padded_length self n _ _ HL Hcoef Hn Hh Hw v Hv').
  assert (Hvv := @vv_length self n _ _ HL Hcoef Hn Hh Hw v Hv').
  rewrite HL. rewrite <- !(size_tv Hh Hw).
  split; [apply Nat2Z.is_nonneg|]. split; [|split].
  - eexists. split.
    + apply (@tv_closed self n _ _ HL Hcoef Hn Hh Hw u eq_refl eq_refl
               Hrows Hcols).
    + now rewrite (@tv_closed_length self n _ _ HL Hcoef Hn Hh Hw u eq_refl
                     eq_refl Hrows Hcols).
  - eexists. eexists. split; [|split; [|split; [|split]]].
    + apply (@zero_padded_closed self n _ _ HL Hcoef Hn Hh Hw v Hv').
    + rewrite Hpad. apply (size_padded Hn Hh Hw).
    + intros i Hi. rewrite Hpad.
      assert (Hi' : i <= n) by lia.
      destruct (slices_inside Hn Hh Hw Hi') as (S1 & S2 & S3).
      split; assumption.
    + apply (@ttv_closed self n _ _ HL Hcoef Hn Hh Hw v Hv').
    + rewrite scatter_length; [apply repeat_length|].
      intros i c Hin. apply in_enumerate in Hin.
      assert (Hi' : i <= n) by lia.
      destruct (slices_inside Hn Hh Hw Hi') as (S1 & S2 & S3).
      rewrite Hpad, Hvv, repeat_length. split; assumption.
  - eexists. eexists. split; [|split].
    + apply (@step_size_closed self n _ _ HL Hcoef Hn Hh Hw).
    + unfold Np.reciprocal. rewrite length_map.
      apply (@tau_sums_length self n _ _ HL Hcoef Hn Hh Hw).
    + unfold Np.reciprocal. rewrite length_map.
      rewrite (@sigma_sums_length self n _ _ HL Hcoef Hn Hh Hw).
      rewrite size_sigma by assumption. nia.
Qed.

Lemma operators_total_witness :
  (exists t, _tv example_stencil example_image = Ok t /\ length t = 10) /\
  (exists r, _transposed_tv example_stencil example_differences (3, 4) = Ok r
             /\ length r = 12) /\
  (exists tau sigma, _step_size example_stencil (3, 4) = Ok (tau, sigma) /\
                     length tau = 12 /\ length sigma = 22).
Proof.
  destruct (@operators_total example_stencil example_image
              example_differences) as (_ & Htv & Httv & Hstep).
  - unfold valid; cbn; lia.
  - split; [reflexivity|]. repeat constructor.
  - reflexivity.
  - split; [|split].
    + destruct Htv as (t & Ht & Hlen). exists t. split; [exact Ht|].
      cbn in Hlen. lia.
    + destruct Httv as (v0 & r & _ & _ & _ & Hr & Hlen). exists r.
      split; [exact Hr|exact Hlen].
    + destruct Hstep as (tau & sigma & Hs & Ht & Hsg). exists tau, sigma.
      split; [exact Hs|]. split; [exact Ht|]. cbn in Hsg. lia.
Defined.

(** ** The constructor *)

(** C4 (as the code has it): [__init__] validates nothing.  For all
    arguments, also for fewer than two coefficients and for non-positive
    [lambd], [tol], [eps] or [max_iter], the constructor returns the instance
    that stores them unchanged, with [length = len(coef) - 1]. *)
Theorem init_always_succeeds (lambd : Q) (max_iter : Z) (coef : list Q)
    (tol eps : Q) (saturation extended_output : bool) :
  __init__ lambd max_iter coef tol eps saturation extended_output
  = Ok (mk_TotalVariation lambd max_iter coef tol eps saturation
          extended_output (Z.of_nat (length coef) - 1)).
Proof. reflexivity. Qed.

(** C4 fails as stated: an empty coefficient sequence with negative
    [lambd], [tol], [eps] and [max_iter] is accepted. *)
Lemma init_accepts_invalid_parameters :
  __init__ (-1)%Q (-5)%Z [] (-1 # 1000)%Q (-1)%Q false false
  = Ok (mk_TotalVariation (-1)%Q (-5)%Z [] (-1 # 1000)%Q (-1)%Q false false
          (-1)%Z).
Proof. reflexivity. Qed.

(** ** Runs of [transform] *)

Lemma last_cons_default {A} (l : list A) (x d : A) :
  last (x :: l) d = last l x.
Proof.
  revert x d. induction l as [|y l IH]; intros x d; [reflexivity|].
  change (last (x :: y :: l) d) with (last (y :: l) d).
  now rewrite !IH.
Qed.

Ltac bind_inv H :=
  match type of H with
  | bind ?c _ = Ok _ =>
      let E := fresh "E" in
      destruct c eqn:E; cbn [bind] in H; [|discriminate H]
  end.

Lemma clip_in_box (l : list Q) : in_box (Np.clip l (-1) 1).
Proof.
  unfold in_box, Np.clip. rewrite Forall_map. apply Forall_forall.
  intros x _. split.
  - apply Q.min_glb; [apply Q.le_max_r|discriminate].
  - apply Q.le_min_r.
Qed.

Lemma in_box_zeros (k : nat) : in_box (repeat 0%Q k).
Proof.
  apply Forall_forall. intros x Hx. apply repeat_spec in Hx. subst x.
  split; discriminate.
Qed.

Lemma broadcast_to_in_box (m : nat) (vals vals' : list Q) :
  Np.broadcast_to m vals = Ok vals' -> in_box vals -> in_box vals'.
Proof.
  unfold Np.broadcast_to. destruct (length vals =? m).
  - intros [= <-]. auto.
  - destruct vals as [|y [|z vals]]; try discriminate.
    intros [= <-] Hy. apply Forall_forall. intros x Hx.
    apply repeat_spec in Hx. subst x. now apply Forall_inv in Hy.
Qed.

Lemma assign_in_box (ret vals r : list Q) (start stop : option Z) :
  Np.assign ret start stop vals = Ok r ->
  in_box ret -> in_box vals -> in_box r.
Proof.
  unfold Np.assign. intros H Hret Hvals. bind_inv H. injection H as <-.
  apply Forall_app. split; [now apply Forall_prefix|].
  apply Forall_app. split; [|now apply Forall_suffix].
  eapply broadcast_to_in_box; eassumption.
Qed.

Lemma zeros_in_box (k : Z) (l : list Q) : Np.zeros k = Ok l -> in_box l.
Proof.
  unfold Np.zeros, Np.full. destruct (k <? 0)%Z; [discriminate|].
  intros [= <-]. apply in_box_zeros.
Qed.

Lemma clip_in_unit_range (u : ndarray2) :
  in_unit_range (map_nd (fun x => Qmin (Qmax x 0) 1) u).
Proof.
  unfold in_unit_range, map_nd. cbn [rows]. rewrite Forall_map.
  apply Forall_forall. intros row _. rewrite Forall_map.
  apply Forall_forall. intros x _. split.
  - apply Q.min_glb; [apply Q.le_max_r|discriminate].
  - apply Q.le_min_r.
Qed.

Section Runs.

Variable self : TotalVariation.
Variable sqrt : Q -> Q.
Variable X : ndarray2.

(** What holds after the lines before the loop, whenever they return. *)
Lemma initialize_post (tau sigma : list Q) (s : state) :
  initialize self X = Ok (tau, sigma, s) ->
  _step_size self (nrows X, ncols X) = Ok (tau, sigma) /\
  res s = X /\
  in_box (dual s) /\
  record_objective self X X [] = Ok (obj s).
Proof.
  unfold initialize. intros H.
  bind_inv H. destruct a as [tau' sigma'].
  bind_inv H. bind_inv H. bind_inv H. bind_inv H. bind_inv H.
  injection H as <- <- <-. cbn [res dual obj].
  repeat split; try reflexivity; try assumption.
  eapply assign_in_box; [eassumption| |apply clip_in_box].
  eapply zeros_in_box; eassumption.
Qed.

(** What holds after one pass through the loop body, whenever it returns. *)
Lemma loop_body_post (tau sigma : list Q) (s s' : state) (diff : ndarray2) :
  loop_body self X tau sigma s = Ok (s', diff) ->
  primal_update self X tau s = Ok (res s') /\
  in_box (dual s') /\
  record_objective self X (res s') (obj s) = Ok (obj s').
Proof.
  unfold loop_body. intros H.
  bind_inv H. bind_inv H. bind_inv H. bind_inv H. bind_inv H. bind_inv H.
  bind_inv H. injection H as <- <-. cbn [res dual obj].
  repeat split; try reflexivity; try assumption.
  apply clip_in_box.
Qed.

Lemma primal_update_saturated (tau : list Q) (s : state) (u : ndarray2) :
  saturation self = true ->
  primal_update self X tau s = Ok u -> in_unit_range u.
Proof.
  unfold primal_update. intros Hsat H.
  bind_inv H. bind_inv H. bind_inv H. bind_inv H.
  rewrite Hsat in H. injection H as <-. apply clip_in_unit_range.
Qed.

Lemma trace_length (tau sigma : list Q) (k : nat) (s : state)
    (sts : list state) :
  trace self k X tau sigma s = Ok sts -> length sts = k.
Proof.
  revert s sts. induction k as [|k IH]; intros s sts H; cbn [trace] in H.
  - now injection H as <-.
  - bind_inv H. destruct a as [s' diff]. bind_inv H. injection H as <-.
    cbn [length]. f_equal. eapply IH; eassumption.
Qed.

Lemma trace_in_box (tau sigma : list Q) (k : nat) (s : state)
    (sts : list state) :
  trace self k X tau sigma s = Ok sts ->
  Forall (fun s' => in_box (dual s')) sts.
Proof.
  revert s sts. induction k as [|k IH]; intros s sts H; cbn [trace] in H.
  - injection H as <-. constructor.
  - bind_inv H. destruct a as [s' diff]. bind_inv H. injection H as <-.
    constructor.
    + now apply loop_body_post in E.
    + eapply IH; eassumption.
Qed.

Lemma trace_saturated (tau sigma : list Q) (k : nat) (s : state)
    (sts : list state) :
  saturation self = true ->
  trace self k X tau sigma s = Ok sts ->
  Forall (fun s' => in_unit_range (res s')) sts.
Proof.
  intros Hsat. revert s sts.
  induction k as [|k IH]; intros s sts H; cbn [trace] in H.
  - injection H as <-. constructor.
  - bind_inv H. destruct a as [s' diff]. bind_inv H. injection H as <-.
    constructor.
    + apply loop_body_post in E. destruct E as [E _].
      eapply primal_update_saturated; eassumption.
    + eapply IH; eassumption.
Qed.

(** The loop leaves with the state after the last pass it completed. *)
Lemma main_loop_trace (tau sigma : list Q) (n : nat) (s s' : state) :
  main_loop self sqrt n X tau sigma s = Ok s' ->
  exists k sts,
    executed self sqrt n X tau sigma s = Ok k /\
    trace self k X tau sigma s = Ok sts /\
    k <= n /\ (0 < n -> 0 < k) /\
    s' = last sts s.
Proof.
  revert s s'. induction n as [|n IH]; intros s s' H;
    cbn [main_loop executed] in *.
  - injection H as <-. exists 0, []. repeat split; try reflexivity; lia.
  - bind_inv H. destruct a as [s1 diff]. cbn [bind].
    destruct (converged self sqrt diff (res s1)).
    + injection H as <-. exists 1, [s1]. cbn [trace]. rewrite E. cbn [bind].
      repeat split; try reflexivity; lia.
    + destruct (IH _ _ H) as (k & sts & Hk & Ht & Hle & _ & Hlast).
      exists (S k), (s1 :: sts). rewrite Hk. cbn [bind trace].
      rewrite E. cbn [bind]. rewrite Ht. cbn [bind].
      repeat split; try reflexivity; try lia.
      rewrite Hlast. symmetry. apply last_cons_default.
Qed.

End Runs.

(** ** [transform] on an image larger than the stencil *)

Lemma slice_take_last {A} (l : list A) (k : nat) :
  0 < k -> Np.slice l (Some (- Z.of_nat k)%Z) None = skipn (length l - k) l.
Proof.
  intros Hk. unfold Np.slice, Np.start_of, Np.stop_of.
  rewrite bound_opp by lia.
  apply firstn_all2. rewrite length_skipn. lia.
Qed.

Lemma broadcast_same (f : Q -> Q -> Q) (a b : list Q) :
  length a = length b -> Np.broadcast f a b = Ok (Np.map2 f a b).
Proof.
  intros H. unfold Np.broadcast. now rewrite H, Nat.eqb_refl.
Qed.

Lemma wf_has_shape (u : ndarray2) :
  wf_ndarray2 u -> has_shape u (nrows u) (ncols u).
Proof. intros [H1 H2]. repeat split; assumption. Qed.

Lemma has_shape_map (f : Q -> Q) (u : ndarray2) (h w : nat) :
  has_shape u h w -> has_shape (map_nd f u) h w.
Proof.
  intros (H1 & H2 & H3 & H4). unfold map_nd. repeat split; cbn; auto.
  - now rewrite length_map.
  - rewrite Forall_map. eapply Forall_impl; [|exact H4].
    cbn. intros r Hr. now rewrite length_map.
Qed.

Lemma zip_rows_shape (f : Q -> Q -> Q) (a b : list (list Q)) (w : nat) :
  length a = length b ->
  Forall (fun r => length r = w) a -> Forall (fun r => length r = w) b ->
  length (zip_rows f a b) = length a /\
  Forall (fun r => length r = w) (zip_rows f a b).
Proof.
  intros Hlen Ha. revert b Hlen.
  induction Ha as [|x a Hx Ha IH]; intros [|y b] Hlen Hb; try discriminate.
  - split; [reflexivity|constructor].
  - apply Forall_cons_iff in Hb as [Hy Hb]. cbn in Hlen.
    destruct (IH b) as [I1 I2]; [lia|assumption|].
    cbn [zip_rows length]. split; [now rewrite I1|].
    constructor; [|exact I2]. rewrite map2_length. lia.
Qed.

Lemma has_shape_map2 (f : Q -> Q -> Q) (u v : ndarray2) (h w : nat) :
  has_shape u h w -> has_shape v h w -> has_shape (map2_nd f u v) h w.
Proof.
  intros (H1 & H2 & H3 & H4) (G1 & G2 & G3 & G4). unfold map2_nd.
  destruct (@zip_rows_shape f (rows u) (rows v) w) as [Z1 Z2];
    try assumption; [lia|].
  repeat split; cbn; auto. now rewrite Z1.
Qed.

Lemma reshape_ok (l : list Q) (h w : nat) :
  length l = h * w ->
  exists r, reshape l (h, w) = Ok r /\ has_shape r h w.
Proof.
  intros H. unfold reshape. rewrite H, Nat.eqb_refl. eexists. split;
    [reflexivity|].
  repeat split; cbn.
  - apply chunks_length.
  - now apply chunks_uniform.
Qed.

Lemma has_shape_flatten (u : ndarray2) (h w : nat) :
  has_shape u h w -> length (flatten u) = h * w.
Proof.
  intros (H1 & H2 & H3 & H4). unfold flatten.
  now rewrite (concat_length_uniform H4), H3.
Qed.

Lemma clip_length (l : list Q) (lo hi : Q) :
  length (Np.clip l lo hi) = length l.
Proof. apply length_map. Qed.

Section Solver.

Variable self : TotalVariation.
Variables n h w : nat.

Hypothesis HL : self_length self = Z.of_nat n.
Hypothesis Hcoef : length (coef self) = S n.
Hypothesis Hn : 1 <= n.
Hypothesis Hh : n < h.
Hypothesis Hw : n < w.

Local Abbreviation N := (h * (w - n) + (h - n) * w).

Lemma hw_pos : 0 < h * w.
Proof using All. nia. Qed.

Lemma tv_ok (u : ndarray2) :
  has_shape u h w -> exists t, _tv self u = Ok t /\ length t = N.
Proof using All.
  intros (H1 & H2 & H3 & H4). eexists. split.
  - apply (@tv_closed self n h w HL Hcoef Hn Hh Hw u H1 H2 H3 H4).
  - apply (@tv_closed_length self n h w HL Hcoef Hn Hh Hw u H1 H2 H3 H4).
Qed.

Lemma ttv_ok (v : list Q) :
  length v = N ->
  exists r, _transposed_tv self v (h, w) = Ok r /\ length r = h * w.
Proof using All.
  intros Hv. eexists. split.
  - apply (@ttv_closed self n h w HL Hcoef Hn Hh Hw v Hv).
  - assert (Hpad := @zero_padded_length self n h w HL Hcoef Hn Hh Hw v Hv).
    assert (Hvv := @vv_length self n h w HL Hcoef Hn Hh Hw v Hv).
    rewrite scatter_length; [apply repeat_length|].
    intros i c Hin. apply in_enumerate in Hin.
    assert (Hi : i <= n) by lia.
    destruct (slices_inside Hn Hh Hw Hi) as (S1 & S2 & S3).
    rewrite Hpad, Hvv, repeat_length. split; assumption.
Qed.

Lemma dual_blocks (d : list Q) :
  length d = N + h * w ->
  Np.slice d None (Some (- (Z.of_nat h * Z.of_nat w))%Z) = firstn N d /\
  Np.slice d (Some (- (Z.of_nat h * Z.of_nat w))%Z) None = skipn N d.
Proof using All.
  intros Hd. assert (Hp := hw_pos).
  rewrite <- Nat2Z.inj_mul. split.
  - rewrite slice_drop_last by exact Hp. f_equal.
    rewrite Hd. apply Nat.add_sub.
  - rewrite slice_take_last by exact Hp. f_equal.
    rewrite Hd. apply Nat.add_sub.
Qed.

Variable X : ndarray2.
Hypothesis HX : has_shape X h w.

Lemma record_objective_ok (u : ndarray2) (o : list Q) :
  has_shape u h w -> exists o', record_objective self X u o = Ok o'.
Proof using All.
  intros Hu. unfold record_objective, objective.
  destruct (extended_output self); [|eexists; reflexivity].
  destruct (tv_ok Hu) as (t & Ht & _). rewrite Ht. cbn [bind].
  eexists. reflexivity.
Qed.

Variables tau sigma : list Q.
Hypothesis Htau : length tau = h * w.
Hypothesis Hsigma : length sigma = N + h * w.

Lemma primal_update_ok (s : state) :
  state_ok n h w s ->
  exists u, primal_update self X tau s = Ok u /\ has_shape u h w.
Proof using All.
  intros [Hres Hdual]. unfold primal_update.
  destruct HX as (X1 & X2 & _ & _). rewrite X1, X2.
  destruct (dual_blocks (dual s) Hdual) as [D1 D2]. rewrite D1, D2.
  assert (Hf : length (firstn N (dual s)) = N)
    by (rewrite length_firstn; lia).
  assert (Hs : length (skipn N (dual s)) = h * w)
    by (rewrite length_skipn; lia).
  destruct (ttv_ok _ Hf) as (tt & Htt & Hlen). rewrite Htt. cbn [bind].
  rewrite broadcast_same by (now rewrite scale_length, Hlen, Hs).
  cbn [bind].
  rewrite broadcast_same
    by (now rewrite map2_length, scale_length, Hlen, Hs, Htau, Nat.min_id).
  cbn [bind].
  destruct (@reshape_ok
              (Np.map2 Qmult tau
                 (Np.map2 Qplus tt
                    (Np.scale (lambd self) (skipn N (dual s))))) h w)
    as (r & Hr & Hshape).
  { rewrite !map2_length, scale_length, Hlen, Hs, Htau. lia. }
  rewrite Hr. cbn [bind]. eexists. split; [reflexivity|].
  destruct (saturation self).
  - apply has_shape_map. now apply has_shape_map2.
  - now apply has_shape_map2.
Qed.

Lemma loop_body_ok (s : state) :
  state_ok n h w s ->
  exists s' diff,
    loop_body self X tau sigma s = Ok (s', diff) /\ state_ok n h w s'.
Proof using All.
  intros Hs. assert (Hs' := Hs). destruct Hs' as [Hres Hdual].
  unfold loop_body.
  destruct (primal_update_ok Hs) as (u & Hu & Hshape). rewrite Hu.
  cbn [bind].
  assert (HX' := HX). destruct HX' as (X1 & X2 & _ & _). rewrite X1, X2.
  destruct (dual_blocks sigma Hsigma) as [S1 S2]. rewrite S1, S2.
  set (bar_u := map2_nd Qminus (map_nd (Qmult 2) u) (res s)).
  assert (Hbar : has_shape bar_u h w)
    by (apply has_shape_map2; [now apply has_shape_map|exact Hres]).
  destruct (tv_ok Hbar) as (t & Ht & Hlen). rewrite Ht. cbn [bind].
  assert (Hf : length (firstn N sigma) = N)
    by (rewrite length_firstn; lia).
  assert (Hk : length (skipn N sigma) = h * w)
    by (rewrite length_skipn; lia).
  rewrite broadcast_same by (now rewrite Hf, Hlen). cbn [bind].
  assert (Hp := hw_pos).
  rewrite (@iadd_inside (dual s) _ 0).
  2: reflexivity.
  2: { cbn [Np.stop_of]. rewrite <- Nat2Z.inj_mul, bound_opp by exact Hp.
       rewrite map2_length, Hf, Hlen, Hdual. lia. }
  cbn [bind].
  rewrite broadcast_same.
  2: { rewrite length_map, Hk.
       symmetry. apply has_shape_flatten. now apply has_shape_map2. }
  cbn [bind].
  set (d1 := add_at (dual s) 0 (Np.map2 Qmult (firstn N sigma) t)).
  assert (Hd1 : length d1 = N + h * w).
  { unfold d1. rewrite add_at_length; [exact Hdual|].
    rewrite map2_length, Hf, Hlen, Hdual. lia. }
  set (sd := Np.map2 Qmult
               (map (fun x => (x * lambd self)%Q) (skipn N sigma))
               (flatten (map2_nd Qminus bar_u X))).
  assert (Hsd : length sd = h * w).
  { unfold sd. rewrite map2_length, length_map, Hk.
    rewrite (@has_shape_flatten _ h w) by (now apply has_shape_map2).
    apply Nat.min_id. }
  rewrite (@iadd_inside d1 _ N).
  2: { cbn [Np.start_of]. rewrite <- Nat2Z.inj_mul, bound_opp by exact Hp.
       rewrite Hd1. lia. }
  2: { cbn [Np.stop_of]. now rewrite Hd1, Hsd. }
  cbn [bind].
  destruct (@record_objective_ok u (obj s) Hshape) as (o' & Ho).
  rewrite Ho. cbn [bind]. eexists. eexists. split; [reflexivity|].
  split; cbn [res dual]; [exact Hshape|].
  rewrite clip_length, add_at_length; [exact Hd1|]. rewrite Hd1, Hsd. lia.
Qed.

Lemma trace_ok (k : nat) (s : state) :
  state_ok n h w s ->
  exists sts, trace self k X tau sigma s = Ok sts.
Proof using All.
  revert s. induction k as [|k IH]; intros s Hs; cbn [trace].
  - eexists. reflexivity.
  - destruct (loop_body_ok Hs) as (s' & diff & Hb & Hs'). rewrite Hb.
    cbn [bind]. destruct (IH s' Hs') as (sts & Ht). rewrite Ht. cbn [bind].
    eexists. reflexivity.
Qed.

Variable sqrt : Q -> Q.

Lemma main_loop_ok (m : nat) (s : state) :
  state_ok n h w s ->
  exists s', main_loop self sqrt m X tau sigma s = Ok s'.
Proof using All.
  revert s. induction m as [|m IH]; intros s Hs; cbn [main_loop].
  - eexists. reflexivity.
  - destruct (loop_body_ok Hs) as (s' & diff & Hb & Hs'). rewrite Hb.
    cbn [bind]. destruct (converged self sqrt diff (res s')).
    + eexists. reflexivity.
    + apply IH, Hs'.
Qed.

End Solver.

Lemma assign_inside (ret vals : list Q) (a : nat) (start stop : option Z) :
  Np.start_of (length ret) start = a ->
  Np.stop_of (length ret) stop = a + length vals ->
  Np.assign ret start stop vals
  = Ok (firstn a ret ++ vals ++ skipn (a + length vals) ret).
Proof.
  intros Ha Hb. unfold Np.assign, Np.broadcast_to. rewrite Ha, Hb.
  replace (a + length vals - a) with (length vals) by lia.
  rewrite Nat.eqb_refl. reflexivity.
Qed.

(** The lines before the loop, on an image larger than the stencil. *)
Lemma initialize_ok (self : TotalVariation) (n h w : nat) (X : ndarray2) :
  self_length self = Z.of_nat n -> length (coef self) = S n ->
  1 <= n -> n < h -> n < w -> has_shape X h w ->
  exists tau sigma t s,
    _step_size self (h, w) = Ok (tau, sigma) /\
    length tau = h * w /\
    length sigma = h * (w - n) + (h - n) * w + h * w /\
    _tv self X = Ok t /\
    length t = h * (w - n) + (h - n) * w /\
    initialize self X = Ok (tau, sigma, s) /\
    res s = X /\
    dual s = Np.clip (Np.map2 Qmult (firstn (h * (w - n) + (h - n) * w) sigma)
                        t) (-1) 1
             ++ repeat 0%Q (h * w) /\
    state_ok n h w s.
Proof.
  intros HL Hcoef Hn Hh Hw HX.
  set (N := h * (w - n) + (h - n) * w).
  assert (Hstep := @step_size_closed self n h w HL Hcoef Hn Hh Hw).
  set (tau := Np.reciprocal (tau_sums self n h w)) in *.
  set (sigma := Np.reciprocal (sigma_sums self n h w)) in *.
  assert (Htau : length tau = h * w).
  { unfold tau, Np.reciprocal. rewrite length_map.
    apply (@tau_sums_length self n h w HL Hcoef Hn Hh Hw). }
  assert (Hsigma : length sigma = N + h * w).
  { unfold sigma, Np.reciprocal. rewrite length_map.
    apply (@sigma_sums_length self n h w HL Hcoef Hn Hh Hw). }
  destruct (@tv_ok self n h w HL Hcoef Hn Hh Hw X HX) as (t & Ht & Hlen).
  fold N in Hlen.
  destruct (@dual_blocks self n h w HL Hcoef Hn Hh Hw sigma Hsigma)
    as [S1 _].
  fold N in S1.
  assert (Hp := @hw_pos self n h w HL Hcoef Hn Hh Hw).
  assert (Hf : length (firstn N sigma) = N) by (rewrite length_firstn; lia).
  set (st := Np.clip (Np.map2 Qmult (firstn N sigma) t) (-1) 1).
  assert (Hst : length st = N).
  { unfold st. rewrite clip_length, map2_length, Hf, Hlen. apply Nat.min_id. }
  destruct (@record_objective_ok self n h w HL Hcoef Hn Hh Hw X HX X [] HX)
    as (o & Ho).
  exists tau, sigma, t, (mk_state X (st ++ repeat 0%Q (h * w)) o).
  split; [exact Hstep|]. split; [exact Htau|]. split; [exact Hsigma|].
  split; [exact Ht|]. split; [exact Hlen|].
  split; [|split; [reflexivity|split; [reflexivity|]]].
  - unfold initialize.
    assert (HX' := HX). destruct HX' as (X1 & X2 & _ & _). rewrite X1, X2.
    rewrite Hstep. cbn [bind]. rewrite Hcoef.
    unfold Np.zeros, Np.full.
    replace (3 * Z.of_nat h * Z.of_nat w
             - (Z.of_nat (S n) - 1) * (Z.of_nat h + Z.of_nat w))%Z
      with (Z.of_nat (N + h * w))
      by (unfold N; rewrite (size_sigma Hh Hw); lia).
    destruct (Z.ltb_spec (Z.of_nat (N + h * w)) 0) as [Hneg|_]; [lia|].
    cbn [bind]. rewrite Nat2Z.id, Ht. cbn [bind]. rewrite S1.
    rewrite broadcast_same by (now rewrite Hf, Hlen). cbn [bind].
    fold st.
    rewrite (@assign_inside (repeat 0%Q (N + h * w)) st 0).
    2: reflexivity.
    2: { cbn [Np.stop_of]. rewrite <- Nat2Z.inj_mul, bound_opp by exact Hp.
         rewrite repeat_length, Hst. lia. }
    cbn [bind firstn app Nat.add]. rewrite Hst, Ho. cbn [bind].
    rewrite repeat_app, skipn_app, repeat_length, Nat.sub_diag.
    rewrite skipn_all2 by (rewrite repeat_length; lia).
    reflexivity.
  - split; cbn [res dual]; [exact HX|].
    now rewrite length_app, Hst, repeat_length.
Qed.

Lemma transform_ok (self : TotalVariation) (sqrt : Q -> Q) (X : ndarray2) :
  valid self (nrows X) (ncols X) -> wf_ndarray2 X ->
  exists r o, transform self sqrt X = Ok (r, o).
Proof.
  intros Hvalid Hwf.
  destruct (valid_nat Hvalid) as (n & HL & Hcoef & Hn & Hh & Hw).
  assert (HX := wf_has_shape Hwf).
  destruct (@initialize_ok self n _ _ X HL Hcoef Hn Hh Hw HX)
    as (tau & sigma & t & s & _ & Htau & Hsigma & _ & _ & Hinit & _ & _ & Hs).
  unfold transform. rewrite Hinit. cbn [bind].
  destruct (@main_loop_ok self n _ _ HL Hcoef Hn Hh Hw X HX tau sigma
              Htau Hsigma sqrt (Z.to_nat (max_iter self)) s Hs)
    as (s' & Hloop).
  rewrite Hloop. cbn [bind]. eexists. eexists. reflexivity.
Qed.

(** ** The claims about [transform] *)

(** C9: on an image larger than the stencil the lines before the loop
    return; the primal iterate is the input [X] itself, not clamped; the TV
    block of the dual variable is [clip(sigma_tv * _tv(X), -1, 1)], with
    [_tv] applied to that same [X] whatever the [saturation] flag is; the
    data block is zero. *)
Theorem initial_state (self : TotalVariation) (X : ndarray2) :
  let h := nrows X in
  let w := ncols X in
  let hw := (Z.of_nat h * Z.of_nat w)%Z in
  valid self h w -> wf_ndarray2 X ->
  exists tau sigma t s,
    _step_size self (h, w) = Ok (tau, sigma) /\
    _tv self X = Ok t /\
    length (Np.slice sigma None (Some (- hw)%Z)) = length t /\
    initialize self X = Ok (tau, sigma, s) /\
    res s = X /\
    Np.slice (dual s) None (Some (- hw)%Z)
    = Np.clip (Np.map2 Qmult (Np.slice sigma None (Some (- hw)%Z)) t) (-1) 1 /\
    Np.slice (dual s) (Some (- hw)%Z) None = repeat 0%Q (h * w).
Proof.
  intros h w hw Hvalid Hwf. subst h w hw.
  destruct (valid_nat Hvalid) as (n & HL & Hcoef & Hn & Hh & Hw).
  assert (HX := wf_has_shape Hwf).
  destruct (@initialize_ok self n _ _ X HL Hcoef Hn Hh Hw HX)
    as (tau & sigma & t & s & Hstep & Htau & Hsigma & Ht & Hlen & Hinit
        & Hres & Hdual & [_ Hs]).
  destruct (@dual_blocks self n _ _ HL Hcoef Hn Hh Hw sigma Hsigma)
    as [S1 _].
  destruct (@dual_blocks self n _ _ HL Hcoef Hn Hh Hw (dual s) Hs)
    as [D1 D2].
  set (N := nrows X * (ncols X - n) + (nrows X - n) * ncols X) in *.
  assert (Hf : length (firstn N sigma) = N) by (rewrite length_firstn; lia).
  assert (Hst : length (Np.clip (Np.map2 Qmult (firstn N sigma) t) (-1) 1)
                = N).
  { rewrite clip_length, map2_length, Hf, Hlen. apply Nat.min_id. }
  exists tau, sigma, t, s.
  rewrite S1, D1, D2, Hdual.
  repeat split; try assumption.
  - now rewrite Hf, Hlen.
  - rewrite <- Hst at 1. rewrite firstn_app, Nat.sub_diag, firstn_all.
    cbn [firstn]. now rewrite app_nil_r.
  - rewrite <- Hst at 1. rewrite skipn_app, Nat.sub_diag, skipn_all.
    reflexivity.
Qed.

(** C6: in every run of [transform] the dual variable lies in the box
    [[-1, 1]]: whenever the lines before the loop return, every entry of
    [dual] (TV block and data block) lies in [[-1, 1]], and so it does
    after each completed pass through the loop body. *)
Theorem dual_in_box (self : TotalVariation) (X : ndarray2)
    (tau sigma : list Q) (s0 : state) :
  initialize self X = Ok (tau, sigma, s0) ->
  in_box (dual s0) /\
  forall k sts,
    trace self k X tau sigma s0 = Ok sts ->
    Forall (fun s => in_box (dual s)) sts.
Proof.
  intros Hinit. split.
  - now apply initialize_post in Hinit.
  - intros k sts Ht. eapply trace_in_box; eassumption.
Qed.

Lemma transform_run (self : TotalVariation) (sqrt : Q -> Q) (X r : ndarray2)
    (o : list Q) :
  transform self sqrt X = Ok (r, o) ->
  exists tau sigma s0 k sts,
    initialize self X = Ok (tau, sigma, s0) /\
    executed self sqrt (Z.to_nat (max_iter self)) X tau sigma s0 = Ok k /\
    trace self k X tau sigma s0 = Ok sts /\
    length sts = k /\
    (k <= Z.to_nat (max_iter self)) /\
    (0 < Z.to_nat (max_iter self) -> 0 < k) /\
    r = res (last sts s0) /\ o = obj (last sts s0).
Proof.
  unfold transform. intros H. bind_inv H. destruct a as [[tau sigma] s0].
  bind_inv H. injection H as <- <-.
  destruct (main_loop_trace _ _ _ _ _ _ _ E0)
    as (k & sts & Hk & Ht & Hle & Hpos & Hlast).
  exists tau, sigma, s0, k, sts. subst a.
  repeat split; try assumption.
  eapply trace_length; eassumption.
Qed.

Lemma last_in {A} (l : list A) (d : A) : l <> [] -> In (last l d) l.
Proof.
  induction l as [|x l IH]; intros H; [contradiction|].
  destruct l as [|y l]; [now left|].
  right. apply IH. discriminate.
Qed.

(** C7: with [saturation] set and [max_iter >= 1], every pixel of the image
    that [transform] returns lies in [[0, 1]], whatever the values of the
    input image; and on an image larger than the stencil [transform] does
    return. *)
Theorem saturated_output (self : TotalVariation) (sqrt : Q -> Q)
    (X : ndarray2) :
  saturation self = true -> (1 <= max_iter self)%Z ->
  (forall r o, transform self sqrt X = Ok (r, o) -> in_unit_range r) /\
  (valid self (nrows X) (ncols X) -> wf_ndarray2 X ->
   exists r o, transform self sqrt X = Ok (r, o) /\ in_unit_range r).
Proof.
  intros Hsat Hmax.
  assert (G : forall r o, transform self sqrt X = Ok (r, o) ->
                          in_unit_range r).
  { intros r o H.
    destruct (transform_run _ _ _ H)
      as (tau & sigma & s0 & k & sts & _ & _ & Ht & Hlen & _ & Hpos & -> & _).
    assert (Hk : 0 < k) by (apply Hpos; lia).
    assert (Hall := trace_saturated _ _ _ _ _ _ Hsat Ht).
    rewrite Forall_forall in Hall. apply Hall, last_in.
    destruct sts; [cbn in Hlen; lia|discriminate]. }
  split; [exact G|].
  intros Hvalid Hwf.
  destruct (transform_ok sqrt Hvalid Hwf) as (r & o & H).
  exists r, o. split; [exact H|]. eapply G, H.
Qed.

Lemma record_objective_inv (self : TotalVariation) (X u : ndarray2)
    (o o' : list Q) :
  record_objective self X u o = Ok o' ->
  (extended_output self = false /\ o' = o) \/
  (extended_output self = true /\
   exists v, objective self X u = Ok v /\ o' = o ++ [v]).
Proof.
  unfold record_objective. destruct (extended_output self).
  - intros H. bind_inv H. injection H as <-. right. split; [reflexivity|].
    exists a. split; reflexivity.
  - intros [= <-]. left. split; reflexivity.
Qed.

Lemma trace_objective (self : TotalVariation) (X : ndarray2)
    (tau sigma : list Q) (k : nat) (s : state) (sts : list state) :
  extended_output self = true ->
  trace self k X tau sigma s = Ok sts ->
  exists os,
    obj (last sts s) = obj s ++ os /\
    Forall2 (fun u v => objective self X u = Ok v) (map res sts) os.
Proof.
  intros Hext. revert s sts.
  induction k as [|k IH]; intros s sts H; cbn [trace] in H.
  - injection H as <-. exists []. cbn. split; [now rewrite app_nil_r|].
    constructor.
  - bind_inv H. destruct a as [s1 diff]. bind_inv H. injection H as <-.
    apply loop_body_post in E. destruct E as (_ & _ & Hrec).
    apply record_objective_inv in Hrec.
    destruct Hrec as [[Hf _]|[_ (v & Hv & Hobj)]]; [congruence|].
    destruct (IH _ _ E0) as (os & Hlast & Hall).
    exists (v :: os). rewrite last_cons_default, Hlast, Hobj.
    split; [now rewrite <- app_assoc|].
    cbn [map]. constructor; assumption.
Qed.

Lemma trace_no_objective (self : TotalVariation) (X : ndarray2)
    (tau sigma : list Q) (k : nat) (s : state) (sts : list state) :
  extended_output self = false ->
  trace self k X tau sigma s = Ok sts ->
  obj (last sts s) = obj s.
Proof.
  intros Hext. revert s sts.
  induction k as [|k IH]; intros s sts H; cbn [trace] in H.
  - now injection H as <-.
  - bind_inv H. destruct a as [s1 diff]. bind_inv H. injection H as <-.
    apply loop_body_post in E. destruct E as (_ & _ & Hrec).
    apply record_objective_inv in Hrec.
    destruct Hrec as [[_ Hobj]|[Ht _]]; [|congruence].
    rewrite last_cons_default, (IH _ _ E0). exact Hobj.
Qed.

(** The value that [objective] returns. *)
Lemma objective_value (self : TotalVariation) (X u : ndarray2) (v : Q) :
  objective self X u = Ok v ->
  exists t,
    _tv self u = Ok t /\
    v = (Np.sum (Np.abs t)
         + lambd self * Np.sum (Np.abs (flatten (map2_nd Qminus u X))))%Q.
Proof.
  unfold objective. intros H. bind_inv H. injection H as <-.
  exists a. split; reflexivity.
Qed.

(** C8: on an image larger than the stencil [transform] returns; the trace
    it returns is empty when [extended_output] is false; when it is true the
    trace has one entry more than the number of passes through the loop body
    that were executed, its first entry is the value
    [sum(|_tv(X)|) + lambd * sum(|X - X|)] at the initial iterate [X], and
    each later entry is the value [sum(|_tv(u)|) + lambd * sum(|u - X|)] at
    the primal iterate [u] left by the corresponding pass. *)
Theorem objective_trace (self : TotalVariation) (sqrt : Q -> Q)
    (X : ndarray2) :
  valid self (nrows X) (ncols X) -> wf_ndarray2 X ->
  exists r o tau sigma s0 k sts,
    transform self sqrt X = Ok (r, o) /\
    initialize self X = Ok (tau, sigma, s0) /\
    executed self sqrt (Z.to_nat (max_iter self)) X tau sigma s0 = Ok k /\
    trace self k X tau sigma s0 = Ok sts /\
    r = res (last sts s0) /\
    (extended_output self = false -> o = []) /\
    (extended_output self = true ->
     length o = 1 + k /\
     Forall2
       (fun u v =>
          exists t,
            _tv self u = Ok t /\
            v = (Np.sum (Np.abs t)
                 + lambd self
                   * Np.sum (Np.abs (flatten (map2_nd Qminus u X))))%Q)
       (X :: map res sts) o).
Proof.
  intros Hvalid Hwf.
  destruct (transform_ok sqrt Hvalid Hwf) as (r & o & H).
  destruct (transform_run _ _ _ H)
    as (tau & sigma & s0 & k & sts & Hinit & Hk & Ht & Hlen & _ & _ & Hr & Ho).
  exists r, o, tau, sigma, s0, k, sts.
  repeat (split; [assumption|]).
  destruct (initialize_post _ _ Hinit) as (_ & Hres & _ & Hrec).
  apply record_objective_inv in Hrec. split.
  - intros Hext. destruct Hrec as [[_ H0]|[Ht' _]]; [|congruence].
    rewrite Ho, (trace_no_objective _ _ _ _ _ _ Hext Ht). exact H0.
  - intros Hext. destruct Hrec as [[Hf _]|[_ (v & Hv & H0)]]; [congruence|].
    destruct (trace_objective _ _ _ _ _ _ Hext Ht) as (os & Hlast & Hall).
    assert (Eo : o = v :: os) by (rewrite Ho, Hlast, H0; reflexivity).
    rewrite Eo. split.
    + cbn [length]. apply Forall2_length in Hall.
      rewrite <- Hall, length_map, Hlen. reflexivity.
    + constructor; [now apply objective_value|].
      eapply Forall2_impl; [|exact Hall].
      intros u v0 Hu. now apply objective_value.
Qed.

Lemma initial_state_witness :
  exists tau sigma s,
    initialize saturating_solver out_of_range_image = Ok (tau, sigma, s) /\
    res s = out_of_range_image.
Proof.
  destruct (@initial_state saturating_solver out_of_range_image)
    as (tau & sigma & t & s & _ & _ & _ & Hinit & Hres & _).
  - unfold valid; cbn; lia.
  - split; [reflexivity|]. repeat constructor.
  - exists tau, sigma, s. split; assumption.
Defined.

Lemma dual_in_box_witness :
  exists tau sigma s0,
    initialize saturating_solver out_of_range_image = Ok (tau, sigma, s0) /\
    in_box (dual s0).
Proof.
  destruct (initialize saturating_solver out_of_range_image)
    as [[[tau sigma] s0]|e] eqn:E.
  - exists tau, sigma, s0. split; [reflexivity|].
    apply (proj1 (@dual_in_box saturating_solver out_of_range_image
                    tau sigma s0 E)).
  - vm_compute in E. discriminate E.
Defined.

Lemma saturated_output_witness :
  exists r o,
    transform saturating_solver floor_sqrt out_of_range_image = Ok (r, o) /\
    in_unit_range r.
Proof.
  destruct (@saturated_output saturating_solver floor_sqrt out_of_range_image)
    as [_ H].
  - reflexivity.
  - cbn; lia.
  - apply H.
    + unfold valid; cbn; lia.
    + split; [reflexivity|]. repeat constructor.
Defined.

Lemma objective_trace_witness :
  exists r o tau sigma s0 k sts,
    transform saturating_solver floor_sqrt out_of_range_image = Ok (r, o) /\
    initialize saturating_solver out_of_range_image = Ok (tau, sigma, s0) /\
    trace saturating_solver k out_of_range_image tau sigma s0 = Ok sts /\
    length o = 1 + k /\
    Forall2
      (fun u v =>
         exists t,
           _tv saturating_solver u = Ok t /\
           v = (Np.sum (Np.abs t)
                + lambd saturating_solver
                  * Np.sum (Np.abs (flatten
                                      (map2_nd Qminus u out_of_range_image))))%Q)
      (out_of_range_image :: map res sts) o.
Proof.
  destruct (@objective_trace saturating_solver floor_sqrt out_of_range_image)
    as (r & o & tau & sigma & s0 & k & sts & H & Hinit & _ & Ht & _ & _
        & Hext).
  - unfold valid; cbn; lia.
  - split; [reflexivity|]. repeat constructor.
  - exists r, o, tau, sigma, s0, k, sts.
    destruct (Hext eq_refl) as [Hlen Hall].
    repeat (split; [assumption|]). exact Hall.
Defined.

(** ** Images not larger than the stencil *)

(** C5 fails as stated: [transform] has no check of the dimensions, and the
    1x1 image, whose two dimensions equal the length 1 of the default
    stencil, is processed and returned. *)
Lemma transform_accepts_one_pixel :
  transform default_solver floor_sqrt one_pixel_image
  = Ok (one_pixel_image, []).
Proof. vm_compute. reflexivity. Qed.

Lemma broadcast_to_raise (m : nat) (vals : list Q) :
  length vals <> m -> length vals <> 1 ->
  Np.broadcast_to m vals = Raise ValueError.
Proof.
  intros Hm H1. unfold Np.broadcast_to.
  destruct (Nat.eqb_spec (length vals) m); [contradiction|].
  destruct vals as [|y [|z vals]]; try reflexivity. now cbn in H1.
Qed.

Lemma broadcast_to_exn (m : nat) (vals : list Q) (e : exn) :
  Np.broadcast_to m vals = Raise e -> e = ValueError.
Proof.
  unfold Np.broadcast_to. destruct (length vals =? m); [discriminate|].
  destruct vals as [|y [|z vals]]; congruence.
Qed.

Lemma broadcast_to_length (m : nat) (vals vals' : list Q) :
  Np.broadcast_to m vals = Ok vals' -> length vals' = m.
Proof.
  unfold Np.broadcast_to. destruct (Nat.eqb_spec (length vals) m).
  - now intros [= <-].
  - destruct vals as [|y [|z vals]]; try discriminate.
    intros [= <-]. apply repeat_length.
Qed.

Lemma bound_le (k : nat) (i : Z) : Np.bound k i <= k.
Proof. unfold Np.bound. destruct (Z.ltb_spec i 0); lia. Qed.

Lemma iadd_exn (ret vals : list Q) (start stop : option Z) (e : exn) :
  Np.iadd ret start stop vals = Raise e -> e = ValueError.
Proof.
  unfold Np.iadd. intros H.
  destruct (Np.broadcast_to _ vals) eqn:E; [discriminate|].
  cbn [bind] in H. injection H as <-. eapply broadcast_to_exn, E.
Qed.

Lemma iadd_length (ret vals r : list Q) (start stop : option Z) :
  Np.iadd ret start stop vals = Ok r -> length r = length ret.
Proof.
  unfold Np.iadd. intros H. bind_inv H. injection H as <-.
  apply broadcast_to_length in E.
  set (i0 := Np.start_of (length ret) start) in *.
  set (i1 := Np.stop_of (length ret) stop) in *.
  assert (Ha : i0 <= length ret).
  { unfold i0, Np.start_of. destruct start; [apply bound_le|lia]. }
  assert (Hb : i1 <= length ret).
  { unfold i1, Np.stop_of. destruct stop; [apply bound_le|lia]. }
  rewrite !length_app, map2_length, !length_firstn, !length_skipn, E. lia.
Qed.

Lemma roll_length {A} (l : list A) (k : nat) :
  length (Np.roll l k) = length l.
Proof.
  unfold Np.roll. destruct (length l) eqn:E; [exact E|].
  rewrite length_app, length_skipn, length_firstn.
  assert (k mod S n < S n) by (apply Nat.mod_upper_bound; lia). lia.
Qed.

Lemma slice_drop_last_length {A} (l : list A) (k : nat) :
  0 < k -> length (Np.slice l None (Some (- Z.of_nat k)%Z)) = length l - k.
Proof.
  intros Hk. rewrite slice_drop_last by exact Hk.
  rewrite length_firstn. lia.
Qed.

Section SmallImage.

Variable self : TotalVariation.
Variables n h w : nat.
Variable u : ndarray2.

Hypothesis HL : self_length self = Z.of_nat n.
Hypothesis Hn : 1 <= n.
Hypothesis Hu : has_shape u h w.

Lemma hshift_length_any (i : nat) :
  length (hshift self u i) = h * (w - n).
Proof using All.
  destruct Hu as (_ & _ & H3 & H4). unfold hshift.
  rewrite (@concat_length_uniform _ _ (w - n)).
  - now rewrite length_map, H3.
  - rewrite Forall_map. eapply Forall_impl; [|exact H4].
    intros r Hr. cbv beta. rewrite HL, slice_drop_last_length by lia.
    now rewrite roll_length, Hr.
Qed.

Lemma vshift_length_any (i : nat) :
  length (vshift self u i) = (h - n) * w.
Proof using All.
  destruct Hu as (_ & _ & H3 & H4). unfold vshift.
  rewrite (@concat_length_uniform _ _ w).
  - rewrite HL, slice_drop_last_length by lia. now rewrite roll_length, H3.
  - rewrite HL, slice_drop_last by lia. apply Forall_prefix.
    apply Forall_forall. intros r Hr.
    rewrite Forall_forall in H4. apply H4.
    unfold Np.roll in Hr. destruct (length (rows u)); [exact Hr|].
    apply in_app_or in Hr. destruct Hr as [Hr|Hr].
    + rewrite <- (firstn_skipn (i mod S n0) (rows u)).
      apply in_or_app. now right.
    + rewrite <- (firstn_skipn (i mod S n0) (rows u)).
      apply in_or_app. now left.
Qed.

End SmallImage.

Lemma small_height_sizes (n h w : nat) :
  1 <= h -> h < n -> n < w ->
  (0 <= 2 * Z.of_nat h * Z.of_nat w
        - Z.of_nat n * (Z.of_nat h + Z.of_nat w))%Z ->
  (Z.of_nat h * Z.of_nat w - Z.of_nat n * Z.of_nat h)%Z
  = Z.of_nat (h * (w - n)) /\
  Z.to_nat (2 * Z.of_nat h * Z.of_nat w
            - Z.of_nat n * (Z.of_nat h + Z.of_nat w)) < h * (w - n) /\
  h * (w - n) <> 1.
Proof.
  intros H1 Hh Hw HS.
  assert (E : (Z.of_nat h * Z.of_nat w - Z.of_nat n * Z.of_nat h)%Z
              = Z.of_nat (h * (w - n))) by nia.
  split; [exact E|]. split.
  - nia.
  - intros Hone. assert (h = 1 /\ w - n = 1) as [-> Hwn] by nia. nia.
Qed.

Lemma small_width_sizes (n h w : nat) :
  1 <= h -> 1 <= w -> w < n ->
  (0 <= 2 * Z.of_nat h * Z.of_nat w
        - Z.of_nat n * (Z.of_nat h + Z.of_nat w))%Z ->
  (Z.of_nat h * Z.of_nat w - Z.of_nat n * Z.of_nat h)%Z
  = (- Z.of_nat (h * (n - w)))%Z /\
  0 < h * (n - w) /\
  (h - n) * w
  = Z.to_nat (2 * Z.of_nat h * Z.of_nat w
              - Z.of_nat n * (Z.of_nat h + Z.of_nat w)) + h * (n - w) /\
  (h - n) * w <> 1.
Proof.
  intros H1 H2 Hw HS.
  assert (E : (Z.of_nat h * Z.of_nat w - Z.of_nat n * Z.of_nat h)%Z
              = (- Z.of_nat (h * (n - w)))%Z) by nia.
  assert (K : 0 < h * (n - w)) by nia.
  assert (Hhn : n < h) by nia.
  assert (F : (h - n) * w
              = Z.to_nat (2 * Z.of_nat h * Z.of_nat w
                          - Z.of_nat n * (Z.of_nat h + Z.of_nat w))
                + h * (n - w)) by nia.
  repeat split; try assumption.
  intros Hone. assert (w = 1 /\ h - n = 1) as [-> Hd] by nia. nia.
Qed.

(** [_tv] on a non-empty image with a dimension smaller than the stencil
    length: the allocation has a negative size, or the first in-place
    addition that does not fit its slice raises. *)
Lemma tv_small_raises (self : TotalVariation) (n h w : nat) (u : ndarray2) :
  self_length self = Z.of_nat n -> length (coef self) = S n ->
  has_shape u h w -> 1 <= h -> 1 <= w -> h < n \/ w < n ->
  _tv self u = Raise ValueError.
Proof.
  intros HL Hcoef Hu H1 H2 Hsmall.
  assert (Hn : 1 <= n) by lia.
  assert (Hh := @hshift_length_any self n h w u HL Hn Hu 0).
  assert (Hv := @vshift_length_any self n h w u HL Hn Hu 0).
  destruct Hu as (U1 & U2 & _ & _).
  unfold _tv, Np.zeros, Np.full. rewrite U1, U2, HL.
  destruct (Z.ltb_spec
              (2 * Z.of_nat h * Z.of_nat w
               - Z.of_nat n * (Z.of_nat h + Z.of_nat w)) 0) as [Hneg|HS];
    [reflexivity|].
  cbn [bind].
  destruct (coef self) as [|c0 cs]; [discriminate|].
  cbn [enumerate length seq combine foldM].
  set (S' := Z.to_nat (2 * Z.of_nat h * Z.of_nat w
                       - Z.of_nat n * (Z.of_nat h + Z.of_nat w))) in *.
  set (ret := repeat 0%Q S').
  assert (Hret : length ret = S') by apply repeat_length.
  assert (Hstep :
    (ret0 <- Np.iadd ret None
               (Some (Z.of_nat h * Z.of_nat w - Z.of_nat n * Z.of_nat h)%Z)
               (Np.scale c0 (hshift self u 0)) ;;
     Np.iadd ret0
       (Some (Z.of_nat h * Z.of_nat w - Z.of_nat n * Z.of_nat h)%Z) None
       (Np.scale c0 (vshift self u 0)))
    = Raise ValueError).
  { destruct Hsmall as [Hlt|Hlt].
    - (* too few rows *)
      assert (Hw : n < w) by nia.
      destruct (small_height_sizes H1 Hlt Hw HS) as (E & Hlt' & Hone).
      fold S' in Hlt'. rewrite E.
      unfold Np.iadd at 1. cbn [Np.start_of Np.stop_of].
      rewrite bound_of_nat, Hret, Nat.sub_0_r.
      rewrite broadcast_to_raise; [reflexivity| |];
        rewrite scale_length, Hh; lia.
    - (* too few columns *)
      destruct (small_width_sizes H1 H2 Hlt HS) as (E & K & F & Hone).
      fold S' in F. rewrite E.
      destruct (Np.iadd ret None _ _) as [ret0|e] eqn:E1; cbn [bind].
      2: { f_equal. eapply iadd_exn, E1. }
      apply iadd_length in E1. rewrite Hret in E1.
      unfold Np.iadd. cbn [Np.start_of Np.stop_of].
      rewrite bound_opp, E1 by exact K.
      rewrite broadcast_to_raise; [reflexivity| |];
        rewrite scale_length, Hv; lia. }
  rewrite Hstep. reflexivity.
Qed.

Lemma foldM_exn {A B} (f : A -> B -> result A) (l : list B) (a : A)
    (e : exn) :
  (forall a x e, f a x = Raise e -> e = ValueError) ->
  foldM f l a = Raise e -> e = ValueError.
Proof.
  intros Hf. revert a. induction l as [|x l IH]; intros a H; cbn in H.
  - discriminate.
  - destruct (f a x) eqn:E; cbn [bind] in H.
    + eapply IH, H.
    + injection H as <-. eapply Hf, E.
Qed.

Lemma full_exn (k : Z) (x : Q) (e : exn) :
  Np.full k x = Raise e -> e = ValueError.
Proof. unfold Np.full. destruct (k <? 0)%Z; congruence. Qed.

Lemma broadcast_exn (f : Q -> Q -> Q) (a b : list Q) (e : exn) :
  Np.broadcast f a b = Raise e -> e = ValueError.
Proof.
  unfold Np.broadcast. destruct (length a =? length b); [discriminate|].
  destruct a as [|x [|x' a]]; destruct b as [|y [|y' b]]; congruence.
Qed.

Lemma assign_exn (ret vals : list Q) (start stop : option Z) (e : exn) :
  Np.assign ret start stop vals = Raise e -> e = ValueError.
Proof.
  unfold Np.assign. intros H.
  destruct (Np.broadcast_to _ vals) eqn:E; [discriminate|].
  cbn [bind] in H. injection H as <-. eapply broadcast_to_exn, E.
Qed.

Lemma tv_exn (self : TotalVariation) (u : ndarray2) (e : exn) :
  _tv self u = Raise e -> e = ValueError.
Proof.
  unfold _tv. intros H.
  destruct (Np.zeros _) eqn:E; cbn [bind] in H.
  - eapply foldM_exn; [|exact H].
    intros a0 [i c] e0 H0.
    destruct (Np.iadd a0 None _ _) eqn:E0; cbn [bind] in H0.
    + eapply iadd_exn, H0.
    + injection H0 as <-. eapply iadd_exn, E0.
  - injection H as <-. eapply full_exn, E.
Qed.

Lemma step_size_exn (self : TotalVariation) (shape : nat * nat) (e : exn) :
  _step_size self shape = Raise e -> e = ValueError.
Proof.
  unfold _step_size. intros H.
  destruct (Np.full _ _) eqn:E1; cbn [bind] in H;
    [|injection H as <-; eapply full_exn, E1].
  destruct (Np.zeros _) eqn:E2; cbn [bind] in H;
    [|injection H as <-; eapply full_exn, E2].
  destruct (foldM _ _ _) eqn:E3; cbn [bind] in H.
  2: { injection H as <-. eapply foldM_exn; [|exact E3].
       intros a1 x e1 H1. eapply iadd_exn, H1. }
  destruct (Np.iadd _ _ _ _) eqn:E4; cbn [bind] in H;
    [|injection H as <-; eapply iadd_exn, E4].
  cbv zeta in H.
  match type of H with bind ?c _ = _ => destruct c eqn:E5 end;
    cbn [bind] in H;
    [discriminate|injection H as <-; eapply full_exn, E5].
Qed.

(** C5 (as the code has it): [transform] has no check of its own, and
    rejects a non-empty image with a dimension smaller than the stencil
    length through numpy: the lines before the loop raise [ValueError] (a
    negative array size, or an in-place addition that does not fit its
    slice), so the loop is not entered and no result is returned. *)
Theorem small_image_raises (self : TotalVariation) (sqrt : Q -> Q)
    (X : ndarray2) :
  self_length self = (Z.of_nat (length (coef self)) - 1)%Z ->
  wf_ndarray2 X -> 1 <= nrows X -> 1 <= ncols X ->
  (Z.of_nat (nrows X) < self_length self)%Z
  \/ (Z.of_nat (ncols X) < self_length self)%Z ->
  initialize self X = Raise ValueError /\
  transform self sqrt X = Raise ValueError.
Proof.
  intros HL Hwf H1 H2 Hsmall.
  assert (Hinit : initialize self X = Raise ValueError).
  { assert (Htv : _tv self X = Raise ValueError).
    { apply (@tv_small_raises self (length (coef self) - 1)
               (nrows X) (ncols X) X); try lia.
      now apply wf_has_shape. }
    unfold initialize.
    destruct (_step_size self (nrows X, ncols X)) as [[tau sigma]|e] eqn:E1;
      cbn [bind]; [|f_equal; eapply step_size_exn, E1].
    destruct (Np.zeros _) eqn:E2; cbn [bind];
      [|f_equal; eapply full_exn, E2].
    rewrite Htv. reflexivity. }
  split; [exact Hinit|]. unfold transform. now rewrite Hinit.
Qed.

Lemma small_image_raises_witness :
  initialize example_stencil (mk_ndarray2 1 3 [[5; 6; 7]]%Q)
  = Raise ValueError /\
  transform example_stencil floor_sqrt (mk_ndarray2 1 3 [[5; 6; 7]]%Q)
  = Raise ValueError.
Proof.
  apply (@small_image_raises example_stencil floor_sqrt
           (mk_ndarray2 1 3 [[5; 6; 7]]%Q)).
  - reflexivity.
  - split; [reflexivity|]. repeat constructor.
  - cbn; lia.
  - cbn; lia.
  - left. cbn. lia.
Defined.

(** ** The step sizes against the columns of the stacked operator *)

Lemma sum_cons (x : Q) (a : list Q) : Np.sum (x :: a) = (x + Np.sum a)%Q.
Proof. reflexivity. Qed.

Lemma sum_app (a b : list Q) : (Np.sum (a ++ b) == Np.sum a + Np.sum b)%Q.
Proof.
  induction a as [|x a IH]; cbn [app].
  - change (Np.sum []) with 0%Q. ring.
  - rewrite !sum_cons, IH. ring.
Qed.

Lemma sum_zeros (k : nat) : (Np.sum (repeat 0%Q k) == 0)%Q.
Proof.
  induction k as [|k IH]; cbn [repeat]; [reflexivity|].
  rewrite sum_cons, IH. reflexivity.
Qed.

Lemma sum_nonneg (a : list Q) :
  Forall (fun x => 0 <= x)%Q a -> (0 <= Np.sum a)%Q.
Proof.
  induction 1 as [|x a Hx _ IH]; [discriminate|].
  rewrite sum_cons. lra.
Qed.

Lemma abs_nonneg (a : list Q) : Forall (fun x => 0 <= x)%Q (Np.abs a).
Proof.
  unfold Np.abs. rewrite Forall_map. apply Forall_forall.
  intros x _. apply Qabs_nonneg.
Qed.

Lemma sum_concat_map {A} (F : A -> list Q) (l : list A) :
  (Np.sum (concat (map F l)) == Np.sum (map (fun x => Np.sum (F x)) l))%Q.
Proof.
  induction l as [|x l IH]; cbn [map concat]; [reflexivity|].
  rewrite sum_app, sum_cons, IH. reflexivity.
Qed.

Lemma sum_map_ext {A} (F G : A -> Q) (l : list A) :
  (forall x, In x l -> (F x == G x)%Q) ->
  (Np.sum (map F l) == Np.sum (map G l))%Q.
Proof.
  induction l as [|x l IH]; intros H; cbn [map]; [reflexivity|].
  rewrite !sum_cons, (H x) by (now left).
  rewrite IH; [reflexivity|]. intros y Hy. apply H. now right.
Qed.

(** A sum over a range in which one index contributes. *)
Lemma sum_point (x : Q) (k a m : nat) :
  (Np.sum (map (fun j => if j =? k then x else 0%Q) (seq a m))
   == if (a <=? k) && (k <? a + m) then x else 0)%Q.
Proof.
  revert a. induction m as [|m IH]; intros a; cbn [seq map].
  - change (Np.sum []) with 0%Q.
    destruct (Nat.leb_spec a k); destruct (Nat.ltb_spec k (a + 0));
      cbn; try reflexivity; lia.
  - rewrite sum_cons, IH.
    destruct (Nat.eqb_spec a k); destruct (Nat.leb_spec a k);
      destruct (Nat.leb_spec (S a) k); destruct (Nat.ltb_spec k (a + S m));
      destruct (Nat.ltb_spec k (S a + m)); cbn; try lia; ring.
Qed.

Lemma unit_image_shape (h w r c : nat) : has_shape (unit_image h w r c) h w.
Proof.
  unfold unit_image. repeat split; cbn.
  - now rewrite length_map, length_seq.
  - rewrite Forall_map. apply Forall_forall. intros i _.
    now rewrite length_map, length_seq.
Qed.


Lemma firstn_range (k a m : nat) :
  firstn k (seq a m) = seq a (Nat.min k m).
Proof.
  revert a m. induction k as [|k IH]; intros a [|m]; cbn; try reflexivity.
  now rewrite IH.
Qed.

Lemma unit_row_window (w r c i' i m : nat) :
  i + m <= w ->
  firstn m (skipn i (map (fun j => if (i' =? r) && (j =? c) then 1%Q else 0%Q)
                         (seq 0 w)))
  = map (fun j => if (i' =? r) && (j =? c) then 1%Q else 0%Q) (seq i m).
Proof.
  intros H. rewrite skipn_map, firstn_map, skipn_seq, firstn_range.
  cbn [Nat.add]. now replace (Nat.min m (w - i)) with m by lia.
Qed.

Lemma unit_row_sum (r c i' i m : nat) :
  (Np.sum (map (fun j => if (i' =? r) && (j =? c) then 1%Q else 0%Q)
               (seq i m))
   == if i' =? r then ind ((i <=? c) && (c <? i + m)) else 0)%Q.
Proof.
  destruct (i' =? r); cbn [andb].
  - apply sum_point.
  - induction m as [|m IH] in i |- *; cbn [seq map]; [reflexivity|].
    rewrite sum_cons, IH. ring.
Qed.

Section UnitColumn.

Variable self : TotalVariation.
Variables n h w : nat.

Hypothesis HL : self_length self = Z.of_nat n.
Hypothesis Hcoef : length (coef self) = S n.
Hypothesis Hn : 1 <= n.
Hypothesis Hh : n < h.
Hypothesis Hw : n < w.

Variables r c : nat.
Hypothesis Hr : r < h.
Hypothesis Hc : c < w.

Local Abbreviation e := (unit_image h w r c).

Lemma unit_hshift_sum (i : nat) :
  i <= n ->
  (Np.sum (hshift self e i) == ind ((i <=? c) && (c <? i + (w - n))))%Q.
Proof using All.
  intros Hi. destruct (unit_image_shape h w r c) as (U1 & U2 & U3 & U4).
  rewrite (@hshift_valid self n h w HL Hcoef Hn Hh Hw e U1 U2 U3 U4 i Hi).
  unfold unit_image at 1. cbn [rows]. rewrite map_map.
  rewrite sum_concat_map.
  rewrite (sum_map_ext _
             (fun i' => if i' =? r
                        then ind ((i <=? c) && (c <? i + (w - n)))
                        else 0%Q)).
  - rewrite sum_point. destruct (Nat.leb_spec 0 r); [|lia].
    destruct (Nat.ltb_spec r (0 + h)); [reflexivity|lia].
  - intros i' _. rewrite unit_row_window by lia. apply unit_row_sum.
Qed.

Lemma unit_vshift_sum (i : nat) :
  i <= n ->
  (Np.sum (vshift self e i) == ind ((i <=? r) && (r <? i + (h - n))))%Q.
Proof using All.
  intros Hi. destruct (unit_image_shape h w r c) as (U1 & U2 & U3 & U4).
  rewrite (@vshift_valid self n h w HL Hcoef Hn Hh Hw e U1 U2 U3 U4 i Hi).
  unfold unit_image at 1. cbn [rows].
  rewrite skipn_map, firstn_map, skipn_seq, firstn_range. cbn [Nat.add].
  replace (Nat.min (h - n) (h - i)) with (h - n) by lia.
  rewrite sum_concat_map.
  rewrite (sum_map_ext _ (fun i' => if i' =? r then 1%Q else 0%Q)).
  - apply sum_point.
  - intros i' _. rewrite unit_row_sum.
    destruct (i' =? r); [|reflexivity].
    destruct (Nat.leb_spec 0 c); [|lia].
    destruct (Nat.ltb_spec c (0 + w)); [reflexivity|lia].
Qed.


End UnitColumn.

(** *** Entries of [tau] before the reciprocal *)

Lemma nth_add_scalar_at (t : list Q) (a m p : nat) (x : Q) :
  a + m <= length t -> p < length t ->
  (nth p (add_scalar_at t a m x) 0
   == nth p t 0 + (if (a <=? p) && (p <? a + m) then x else 0))%Q.
Proof.
  intros Ham Hp. unfold add_scalar_at.
  assert (L1 : length (firstn a t) = a) by (rewrite length_firstn; lia).
  assert (L2 : length (map (fun y => (y + x)%Q) (firstn m (skipn a t))) = m)
    by (rewrite length_map, length_firstn, length_skipn; lia).
  destruct (Nat.leb_spec a p) as [Hap|Hap]; cbn [andb].
  - rewrite app_nth2 by lia. rewrite L1.
    destruct (Nat.ltb_spec p (a + m)) as [Hpm|Hpm].
    + rewrite app_nth1 by lia.
      rewrite (nth_map_in _ _ 0%Q)
        by (rewrite length_firstn, length_skipn; lia).
      rewrite nth_firstn. destruct (Nat.ltb_spec (p - a) m); [|lia].
      rewrite nth_skipn. replace (a + (p - a)) with p by lia. reflexivity.
    + rewrite app_nth2 by lia. rewrite L2, nth_skipn.
      replace (a + m + (p - a - m)) with p by lia. ring.
  - rewrite app_nth1 by lia. rewrite nth_firstn.
    destruct (Nat.ltb_spec p a); [ring|lia].
Qed.

Lemma nth_add_at (t vals : list Q) (a p : nat) :
  a + length vals <= length t -> p < length t ->
  (nth p (add_at t a vals) 0
   == nth p t 0
      + (if (a <=? p) && (p <? a + length vals)
         then nth (p - a) vals 0 else 0))%Q.
Proof.
  intros Ham Hp. unfold add_at. set (m := length vals) in *.
  assert (L1 : length (firstn a t) = a) by (rewrite length_firstn; lia).
  assert (L0 : length (firstn m (skipn a t)) = m)
    by (rewrite length_firstn, length_skipn; lia).
  assert (L2 : length (Np.map2 Qplus (firstn m (skipn a t)) vals) = m)
    by (rewrite map2_length, L0; fold m; lia).
  destruct (Nat.leb_spec a p) as [Hap|Hap]; cbn [andb].
  - rewrite app_nth2 by lia. rewrite L1.
    destruct (Nat.ltb_spec p (a + m)) as [Hpm|Hpm].
    + rewrite app_nth1 by lia.
      rewrite nth_map2 by (rewrite ?L0; fold m; lia).
      rewrite nth_firstn. destruct (Nat.ltb_spec (p - a) m); [|lia].
      rewrite nth_skipn. replace (a + (p - a)) with p by lia. reflexivity.
    + rewrite app_nth2 by lia. rewrite L2, nth_skipn.
      replace (a + m + (p - a - m)) with p by lia. ring.
  - rewrite app_nth1 by lia. rewrite nth_firstn.
    destruct (Nat.ltb_spec p a); [ring|lia].
Qed.

Lemma nth_tile_of (a : list Q) (w m c : nat) :
  m + length a <= S w -> c < w ->
  (nth c (tile_of a w m) 0
   == Np.sum (map (fun j => if (j <=? c) && (c <? j + length a)
                            then nth (c - j) a 0 else 0%Q)
                  (seq 0 m)))%Q.
Proof.
  intros Hm Hc. unfold tile_of.
  assert (G : forall l t,
             (forall j, In j l -> j + length a <= w) -> length t = w ->
             (nth c (fold_left (fun t j => add_at t j a) l t) 0
              == nth c t 0
                 + Np.sum (map (fun j => if (j <=? c) && (c <? j + length a)
                                         then nth (c - j) a 0 else 0%Q) l))%Q).
  { induction l as [|j l IH]; intros t Hl Ht; cbn [fold_left map].
    - change (Np.sum []) with 0%Q. ring.
    - assert (Hj : j + length a <= w) by (apply Hl; now left).
      rewrite IH.
      + rewrite nth_add_at by lia. rewrite sum_cons. ring.
      + intros j' Hj'. apply Hl. now right.
      + rewrite add_at_length; lia. }
  rewrite G.
  - rewrite nth_repeat. ring.
  - intros j Hj. apply in_seq in Hj. lia.
  - apply repeat_length.
Qed.

Lemma sum_over_zero (l : list (nat * Q)) (F : nat -> Q) :
  (forall i c, In (i, c) l -> (F i == 0)%Q) -> (sum_over l F == 0)%Q.
Proof.
  induction l as [|[i c] l IH]; intros H; cbn [sum_over]; [reflexivity|].
  rewrite (H i c) by (now left). rewrite IH; [ring|].
  intros j d Hj. apply (H j d). now right.
Qed.

(** The sum over the enumerated list in which one index contributes. *)
Lemma sum_over_point (l : list Q) (s k : nat) :
  (sum_over (combine (seq s (length l)) l) (fun i => ind (i =? k))
   == if s <=? k then nth (k - s) l 0 else 0)%Q.
Proof.
  revert s. induction l as [|x l IH]; intros s;
    cbn [length seq combine sum_over].
  - destruct (s <=? k); destruct (k - s); reflexivity.
  - rewrite IH.
    destruct (Nat.eqb_spec s k) as [->|Hne].
    + rewrite Nat.sub_diag, Nat.leb_refl.
      destruct (Nat.leb_spec (S k) k); [lia|]. cbn [ind nth]. ring.
    + destruct (Nat.leb_spec s k); destruct (Nat.leb_spec (S s) k);
        try lia; cbn [ind]; [|ring].
      replace (k - s) with (S (k - S s)) by lia. cbn [nth]. ring.
Qed.

(** [tile[c]], accumulated position by position, is the sum over the taps
    that cover column [c]. *)
Lemma tile_by_taps (a : list Q) (n m c : nat) :
  length a = S n ->
  (Np.sum (map (fun j => if (j <=? c) && (c <? j + length a)
                         then nth (c - j) a 0 else 0%Q)
               (seq 0 m))
   == sum_over (enumerate a) (fun i => ind ((i <=? c) && (c <? i + m))))%Q.
Proof.
  intros Ha. induction m as [|m IH].
  - cbn [seq map]. change (Np.sum []) with 0%Q. symmetry.
    apply sum_over_zero. intros i x _.
    destruct (Nat.leb_spec i c); destruct (Nat.ltb_spec c (i + 0));
      cbn; try reflexivity; lia.
  - rewrite seq_S, map_app, sum_app, IH. cbn [Nat.add map].
    rewrite sum_cons. change (Np.sum []) with 0%Q.
    rewrite (sum_over_ext _
               (fun i => ind ((i <=? c) && (c <? i + S m)))
               (fun i => ind ((i <=? c) && (c <? i + m))
                         + ind (i =? c - m) * ind (m <=? c))%Q).
    2: { intros i x _.
         destruct (Nat.leb_spec i c); destruct (Nat.ltb_spec c (i + S m));
           destruct (Nat.ltb_spec c (i + m)); destruct (Nat.eqb_spec i (c - m));
           destruct (Nat.leb_spec m c); cbn; try lia; ring. }
    rewrite sum_over_plus.
    assert (P : (sum_over (enumerate a)
                   (fun i => ind (i =? c - m) * ind (m <=? c))
                 == (if (m <=? c) && (c <? m + length a)
                     then nth (c - m) a 0 else 0))%Q).
    { destruct (Nat.leb_spec m c) as [Hmc|Hmc]; cbn [andb ind].
      - rewrite (sum_over_ext _ _ (fun i => ind (i =? c - m))).
        2: { intros i x _. ring. }
        unfold enumerate. rewrite sum_over_point. cbn [Nat.leb].
        rewrite Nat.sub_0_r.
        destruct (Nat.ltb_spec c (m + length a)); [reflexivity|].
        rewrite nth_overflow by lia. reflexivity.
      - apply sum_over_zero. intros i x _. ring. }
    rewrite P. ring.
Qed.

Lemma covered_rows (n h w r c i : nat) :
  c < w -> n < h ->
  (w * i <=? r * w + c) && (r * w + c <? w * i + (h - n) * w)
  = (i <=? r) && (r <? i + (h - n)).
Proof.
  intros Hc Hh.
  destruct (Nat.leb_spec (w * i) (r * w + c));
    destruct (Nat.ltb_spec (r * w + c) (w * i + (h - n) * w));
    destruct (Nat.leb_spec i r); destruct (Nat.ltb_spec r (i + (h - n)));
    cbn; try reflexivity; exfalso; nia.
Qed.

Lemma enumerate_abs (l : list Q) :
  enumerate (Np.abs l) = map (fun '(i, c) => (i, Qabs c)) (enumerate l).
Proof.
  unfold enumerate, Np.abs. rewrite length_map. generalize 0.
  induction l as [|x l IH]; intros s; cbn; [reflexivity|].
  now rewrite IH.
Qed.

Lemma sum_over_nonneg (l : list (nat * Q)) (F : nat -> Q) :
  (forall i c, In (i, c) l -> (0 <= c)%Q) ->
  (forall i, (0 <= F i)%Q) ->
  (0 <= sum_over l F)%Q.
Proof.
  intros Hc HF. induction l as [|[i c] l IH]; cbn [sum_over]; [discriminate|].
  assert (H1 : (0 <= c)%Q) by (apply (Hc i c); now left).
  assert (H2 : (0 <= sum_over l F)%Q).
  { apply IH. intros j d Hj. apply (Hc j d). now right. }
  assert (H3 := HF i). nra.
Qed.

Lemma in_enumerate_abs_nonneg (l : list Q) (i : nat) (c : Q) :
  In (i, c) (enumerate (Np.abs l)) -> (0 <= c)%Q.
Proof.
  unfold enumerate. intros H. apply in_combine_r in H.
  unfold Np.abs in H. apply in_map_iff in H. destruct H as [x [<- _]].
  apply Qabs_nonneg.
Qed.

Lemma ind_nonneg (b : bool) : (0 <= ind b)%Q.
Proof. destruct b; discriminate. Qed.


Lemma inner_le_sum (s b : list Q) :
  Forall (fun x => 0 <= x /\ x <= 1)%Q s -> Forall (fun y => 0 <= y)%Q b ->
  (inner s b <= Np.sum b)%Q.
Proof.
  intros Hs. revert b. induction Hs as [|x s [Hx0 Hx1] _ IH]; intros b Hb.
  - cbn. now apply sum_nonneg.
  - destruct Hb as [|y b Hy Hb]; [cbn; lra|].
    cbn [inner]. rewrite sum_cons. assert (I := IH b Hb). nra.
Qed.

Lemma abs_length (l : list Q) : length (Np.abs l) = length l.
Proof. apply length_map. Qed.

Lemma sum_ext_nth (a b : list Q) :
  length a = length b ->
  (forall k, k < length a -> (nth k a 0 == nth k b 0)%Q) ->
  (Np.sum a == Np.sum b)%Q.
Proof.
  revert b. induction a as [|x a IH]; intros [|y b] Hlen H; try discriminate.
  - reflexivity.
  - rewrite !sum_cons. cbn in Hlen.
    rewrite (H 0) by (cbn; lia). cbn [nth].
    rewrite (IH b); [reflexivity|lia|].
    intros k Hk. apply (H (S k)). cbn. lia.
Qed.

Lemma sum_map2_plus (a b : list Q) :
  length a = length b ->
  (Np.sum (Np.map2 Qplus a b) == Np.sum a + Np.sum b)%Q.
Proof.
  revert b. induction a as [|x a IH]; intros [|y b] H; try discriminate.
  - cbn. ring.
  - cbn [Np.map2]. rewrite !sum_cons, IH by (cbn in H; lia). ring.
Qed.

Lemma sum_scale (c : Q) (a : list Q) :
  (Np.sum (Np.scale c a) == c * Np.sum a)%Q.
Proof.
  induction a as [|x a IH]; cbn [Np.scale map].
  - cbn. ring.
  - fold (Np.scale c a). rewrite !sum_cons, IH. ring.
Qed.

Lemma sum_accumulate (f : nat -> list Q) l (acc : list Q) :
  (forall i c, In (i, c) l -> length (f i) = length acc) ->
  (Np.sum (accumulate f l acc)
   == Np.sum acc + sum_over l (fun i => Np.sum (f i)))%Q.
Proof.
  revert acc. induction l as [|[i c] l IH]; intros acc H;
    cbn [accumulate fold_left sum_over].
  - ring.
  - assert (Hf : length (f i) = length acc) by (apply (H i c); now left).
    assert (E : length (Np.map2 Qplus acc (Np.scale c (f i))) = length acc).
    { rewrite map2_length, scale_length, Hf. lia. }
    fold (accumulate f l (Np.map2 Qplus acc (Np.scale c (f i)))).
    rewrite IH.
    + rewrite sum_map2_plus, sum_scale by (now rewrite scale_length).
      ring.
    + intros j d Hj. rewrite E. apply (H j d). now right.
Qed.

(** A sum over the enumerated coefficients in which the tap [k0]
    contributes, when [b] holds. *)
Lemma sum_over_tap (l : list Q) (F : nat -> Q) (k0 : nat) (b : bool) :
  (forall i, i < length l -> (F i == if b then ind (i =? k0) else 0)%Q) ->
  (sum_over (enumerate l) F == if b then nth k0 l 0 else 0)%Q.
Proof.
  intros H. destruct b.
  - rewrite (sum_over_ext _ F (fun i => ind (i =? k0))).
    + unfold enumerate. rewrite sum_over_point. cbn [Nat.leb].
      now rewrite Nat.sub_0_r.
    + intros i x Hin. apply in_enumerate in Hin. now apply H.
  - apply sum_over_zero. intros i x Hin. apply in_enumerate in Hin.
    now apply H.
Qed.

Lemma px_unit_image (h w r c i j : nat) :
  i < h -> j < w ->
  px (unit_image h w r c) i j = if (i =? r) && (j =? c) then 1%Q else 0%Q.
Proof.
  intros Hi Hj. unfold px, unit_image. cbn [rows].
  rewrite (nth_map_in _ _ 0) by (now rewrite length_seq).
  rewrite (nth_map_in _ _ 0) by (now rewrite length_seq).
  now rewrite !seq_nth by assumption.
Qed.

Section Feasibility.

Variable self : TotalVariation.
Variables n h w : nat.

Hypothesis HL : self_length self = Z.of_nat n.
Hypothesis Hcoef : length (coef self) = S n.
Hypothesis Hn : 1 <= n.
Hypothesis Hh : n < h.
Hypothesis Hw : n < w.

Variables r c : nat.
Hypothesis Hr : r < h.
Hypothesis Hc : c < w.

Local Abbreviation e := (unit_image h w r c).
Local Abbreviation abs_coef := (Np.abs (coef self)).

Local Abbreviation rw := (row_weight self n w c).
Local Abbreviation cw := (column_weight self n h r).

Lemma tau_sums_entry :
  (nth (r * w + c) (tau_sums self n h w) 0
   == lambd self + rw + cw)%Q.
Proof using All.
  unfold tau_sums.
  assert (Hp : r * w + c < h * w) by nia.
  assert (Habs := @abs_coef_length self n h w HL Hcoef Hn Hh Hw).
  assert (Htile : length (tile_of abs_coef w (w - n)) = w).
  { apply tile_of_length. rewrite Habs. lia. }
  assert (G : forall l t,
             (forall i x, In (i, x) l -> i <= n) -> length t = h * w ->
             (nth (r * w + c)
                (fold_left (fun tau '(i, x) =>
                              add_scalar_at tau (w * i) ((h - n) * w) x) l t) 0
              == nth (r * w + c) t 0
                 + sum_over l (fun i => ind ((i <=? r) && (r <? i + (h - n)))))%Q).
  { induction l as [|[i x] l IH]; intros t Hl Ht; cbn [fold_left sum_over].
    - ring.
    - assert (Hi : i <= n) by (apply (Hl i x); now left).
      destruct (slices_inside Hn Hh Hw Hi) as (_ & S2 & _).
      rewrite IH.
      + rewrite nth_add_scalar_at by (rewrite Ht; assumption).
        rewrite (@covered_rows n h w r c i Hc Hh).
        destruct ((i <=? r) && (r <? i + (h - n))); cbn [ind]; ring.
      + intros j d Hj. apply (Hl j d). now right.
      + now rewrite add_scalar_at_length. }
  rewrite G.
  2: { intros i x Hin. apply in_enumerate in Hin. rewrite Habs in Hin. lia. }
  2: { rewrite map2_length, repeat_length, tile_length, Htile. lia. }
  rewrite nth_map2.
  2: { now rewrite repeat_length. }
  2: { now rewrite tile_length, Htile. }
  rewrite nth_repeat_lt by exact Hp.
  unfold Np.tile. rewrite nth_concat_uniform.
  2: { apply Forall_forall. intros x Hx. apply repeat_spec in Hx.
       now subst x. }
  2: exact Hc.
  rewrite nth_repeat_lt by exact Hr.
  rewrite nth_tile_of by (rewrite ?Habs; lia).
  rewrite (@tile_by_taps abs_coef n (w - n) c Habs).
  unfold row_weight, column_weight. ring.
Qed.

(** The entries of the column of [_tv] at the pixel, for any list of
    [n + 1] coefficients: the entry of the row at [(i, j)] is the tap that
    reaches the pixel from there. *)
Lemma unit_h_entry (cs : list Q) (k : nat) :
  length cs = S n -> k < h * (w - n) ->
  (nth k (accumulate (hshift self e) (enumerate cs)
            (repeat 0%Q (h * (w - n)))) 0
   == if (k / (w - n) =? r) && (k mod (w - n) <=? c)
      then nth (c - k mod (w - n)) cs 0 else 0)%Q.
Proof using All.
  intros Hcs Hk.
  destruct (unit_image_shape h w r c) as (U1 & U2 & U3 & U4).
  assert (Hm : w - n <> 0) by lia.
  assert (Hj : k mod (w - n) < w - n) by (now apply Nat.mod_upper_bound).
  assert (Hi : k / (w - n) < h).
  { apply Nat.Div0.div_lt_upper_bound. lia. }
  assert (Ek : k = k / (w - n) * (w - n) + k mod (w - n)).
  { rewrite (Nat.div_mod_eq k (w - n)) at 1. lia. }
  set (i' := k / (w - n)) in *. set (j := k mod (w - n)) in *.
  rewrite nth_accumulate.
  2: { intros i x Hin. apply in_enumerate in Hin. rewrite repeat_length.
       apply (@hshift_length self n h w HL Hcoef Hn Hh Hw e U1 U2 U3 U4 i).
       lia. }
  2: { now rewrite repeat_length. }
  rewrite nth_repeat, Qplus_0_l.
  apply sum_over_tap. intros i Hi'. rewrite Ek.
  rewrite (@hshift_entry self n h w HL Hcoef Hn Hh Hw e U1 U2 U3 U4 i i' j)
    by lia.
  rewrite px_unit_image by lia.
  destruct (Nat.eqb_spec i' r); destruct (Nat.eqb_spec (i + j) c);
    destruct (Nat.leb_spec j c); destruct (Nat.eqb_spec i (c - j));
    cbn; try reflexivity; lia.
Qed.

Lemma unit_v_entry (cs : list Q) (k : nat) :
  length cs = S n -> k < (h - n) * w ->
  (nth k (accumulate (vshift self e) (enumerate cs)
            (repeat 0%Q ((h - n) * w))) 0
   == if (k mod w =? c) && (k / w <=? r)
      then nth (r - k / w) cs 0 else 0)%Q.
Proof using All.
  intros Hcs Hk.
  destruct (unit_image_shape h w r c) as (U1 & U2 & U3 & U4).
  assert (Hm : w <> 0) by lia.
  assert (Hj : k mod w < w) by (now apply Nat.mod_upper_bound).
  assert (Hi : k / w < h - n).
  { apply Nat.Div0.div_lt_upper_bound. lia. }
  assert (Ek : k = k / w * w + k mod w).
  { rewrite (Nat.div_mod_eq k w) at 1. lia. }
  set (i' := k / w) in *. set (j := k mod w) in *.
  rewrite nth_accumulate.
  2: { intros i x Hin. apply in_enumerate in Hin. rewrite repeat_length.
       apply (@vshift_length self n h w HL Hcoef Hn Hh Hw e U1 U2 U3 U4 i).
       lia. }
  2: { now rewrite repeat_length. }
  rewrite nth_repeat, Qplus_0_l.
  apply sum_over_tap. intros i Hi'. rewrite Ek.
  rewrite (@vshift_entry self n h w HL Hcoef Hn Hh Hw e U1 U2 U3 U4 i i' j)
    by lia.
  rewrite px_unit_image by lia.
  destruct (Nat.eqb_spec (i + i') r); destruct (Nat.eqb_spec j c);
    destruct (Nat.leb_spec i' r); destruct (Nat.eqb_spec i (r - i'));
    cbn; try reflexivity; lia.
Qed.

Lemma nth_abs (l : list Q) (k : nat) :
  nth k (Np.abs l) 0%Q = Qabs (nth k l 0%Q).
Proof using Type.
  unfold Np.abs. change 0%Q with (Qabs 0) at 1. apply map_nth.
Qed.

(** The absolute column sum of [_tv] at the pixel is the weight of the
    taps that touch it. *)
Lemma tv_column_sum (t : list Q) :
  _tv self e = Ok t -> (Np.sum (Np.abs t) == rw + cw)%Q.
Proof using All.
  destruct (unit_image_shape h w r c) as (U1 & U2 & U3 & U4).
  rewrite (@tv_closed self n h w HL Hcoef Hn Hh Hw e U1 U2 U3 U4).
  intros [= <-].
  assert (Habs := @abs_coef_length self n h w HL Hcoef Hn Hh Hw).
  assert (Hhl : forall cs : list Q, length cs = S n ->
            forall i x, In (i, x) (enumerate cs) ->
            length (hshift self e i) = length (repeat 0%Q (h * (w - n)))).
  { intros cs Hcs i x Hin. apply in_enumerate in Hin. rewrite repeat_length.
    apply (@hshift_length self n h w HL Hcoef Hn Hh Hw e U1 U2 U3 U4 i).
    lia. }
  assert (Hvl : forall cs : list Q, length cs = S n ->
            forall i x, In (i, x) (enumerate cs) ->
            length (vshift self e i) = length (repeat 0%Q ((h - n) * w))).
  { intros cs Hcs i x Hin. apply in_enumerate in Hin. rewrite repeat_length.
    apply (@vshift_length self n h w HL Hcoef Hn Hh Hw e U1 U2 U3 U4 i).
    lia. }
  unfold Np.abs at 1. rewrite map_app, sum_app.
  fold (Np.abs (accumulate (hshift self e) (enumerate (coef self))
                  (repeat 0%Q (h * (w - n))))).
  fold (Np.abs (accumulate (vshift self e) (enumerate (coef self))
                  (repeat 0%Q ((h - n) * w)))).
  rewrite (@sum_ext_nth _ (accumulate (hshift self e) (enumerate abs_coef)
                             (repeat 0%Q (h * (w - n))))).
  2: { rewrite abs_length.
       rewrite !accumulate_length; [reflexivity| |];
         [apply (Hhl _ Habs)|apply (Hhl _ Hcoef)]. }
  2: { intros k Hk. rewrite abs_length in Hk.
       rewrite accumulate_length, repeat_length in Hk by apply (Hhl _ Hcoef).
       rewrite nth_abs, !unit_h_entry by assumption.
       destruct ((k / (w - n) =? r) && (k mod (w - n) <=? c));
         [now rewrite nth_abs|reflexivity]. }
  rewrite (@sum_ext_nth
             (Np.abs (accumulate (vshift self e) (enumerate (coef self))
                        (repeat 0%Q ((h - n) * w))))
             (accumulate (vshift self e) (enumerate abs_coef)
                (repeat 0%Q ((h - n) * w)))).
  2: { rewrite abs_length.
       rewrite !accumulate_length; [reflexivity| |];
         [apply (Hvl _ Habs)|apply (Hvl _ Hcoef)]. }
  2: { intros k Hk. rewrite abs_length in Hk.
       rewrite accumulate_length, repeat_length in Hk by apply (Hvl _ Hcoef).
       rewrite nth_abs, !unit_v_entry by assumption.
       destruct ((k mod w =? c) && (k / w <=? r));
         [now rewrite nth_abs|reflexivity]. }
  rewrite !sum_accumulate by (apply (Hhl _ Habs) || apply (Hvl _ Habs)).
  rewrite !sum_zeros.
  rewrite (sum_over_ext _ (fun i => Np.sum (hshift self e i))
             (fun i => ind ((i <=? c) && (c <? i + (w - n))))).
  2: { intros i x H. apply in_enumerate in H. rewrite Habs in H.
       apply (@unit_hshift_sum self n h w HL Hcoef Hn Hh Hw r c Hr Hc i).
       lia. }
  rewrite (sum_over_ext _ (fun i => Np.sum (vshift self e i))
             (fun i => ind ((i <=? r) && (r <? i + (h - n))))).
  2: { intros i x H. apply in_enumerate in H. rewrite Habs in H.
       apply (@unit_vshift_sum self n h w HL Hcoef Hn Hh Hw r c Hr Hc i).
       lia. }
  unfold row_weight, column_weight. ring.
Qed.

End Feasibility.

Lemma weights_nonneg (self : TotalVariation) (n h w r c : nat) :
  (0 <= row_weight self n w c)%Q /\ (0 <= column_weight self n h r)%Q.
Proof.
  split; apply sum_over_nonneg;
    (intros i x H; eapply in_enumerate_abs_nonneg, H) || (intros i; apply ind_nonneg).
Qed.











(** * Further properties of the code *)

(** ** Sizes of what the operators return, on every shape *)

Lemma foldM_length {B} (f : list Q -> B -> result (list Q)) (l : list B)
    (a r : list Q) :
  (forall a x a', f a x = Ok a' -> length a' = length a) ->
  foldM f l a = Ok r -> length r = length a.
Proof.
  intros Hf. revert a. induction l as [|x l IH]; intros a H; cbn in H.
  - now injection H as <-.
  - bind_inv H. rewrite (IH _ H). eapply Hf, E.
Qed.

Lemma full_length (k : Z) (x : Q) (l : list Q) :
  Np.full k x = Ok l -> (0 <= k)%Z /\ length l = Z.to_nat k.
Proof.
  unfold Np.full. destruct (Z.ltb_spec k 0); [discriminate|].
  intros [= <-]. split; [assumption|apply repeat_length].
Qed.

(** X1: Whenever [_tv] returns, on an image of any shape, its result has the
    [2*h*w - length*(h+w)] entries of the array it allocated. *)
Theorem tv_result_size (self : TotalVariation) (u : ndarray2) (t : list Q) :
  _tv self u = Ok t ->
  Z.of_nat (length t)
  = (2 * Z.of_nat (nrows u) * Z.of_nat (ncols u)
     - self_length self * (Z.of_nat (nrows u) + Z.of_nat (ncols u)))%Z.
Proof.
  unfold _tv. intros H. bind_inv H.
  apply full_length in E. destruct E as [Hpos Hlen].
  apply foldM_length in H.
  - rewrite H, Hlen. lia.
  - intros a0 [i c] a' H0. bind_inv H0.
    apply iadd_length in H0. apply iadd_length in E. congruence.
Qed.

Lemma tv_result_size_witness :
  exists t, _tv default_solver one_pixel_image = Ok t /\ length t = 0.
Proof.
  destruct (_tv default_solver one_pixel_image) as [t|e] eqn:E.
  - exists t. split; [reflexivity|].
    assert (H := @tv_result_size default_solver one_pixel_image t E).
    cbn in H. lia.
  - vm_compute in E. discriminate E.
Defined.

(** X2: Whenever [_transposed_tv] returns, for any vector and any shape, its
    result has [h*w] entries. *)
Theorem transposed_tv_result_size (self : TotalVariation) (v : list Q)
    (shape : nat * nat) (r : list Q) :
  _transposed_tv self v shape = Ok r -> length r = fst shape * snd shape.
Proof.
  unfold _transposed_tv. intros H. bind_inv H. bind_inv H.
  apply full_length in E. destruct E as [Hpos Hlen].
  apply foldM_length in H.
  - rewrite H, Hlen. lia.
  - intros a1 [i c] a' H0. cbv zeta in H0. bind_inv H0.
    apply iadd_length in H0. apply iadd_length in E. congruence.
Qed.

Lemma transposed_tv_result_size_witness :
  exists r, _transposed_tv default_solver [] (1, 1) = Ok r /\ length r = 1.
Proof.
  destruct (_transposed_tv default_solver [] (1, 1)) as [r|e] eqn:E.
  - exists r. split; [reflexivity|].
    apply (@transposed_tv_result_size default_solver [] (1, 1) r E).
  - vm_compute in E. discriminate E.
Defined.

Lemma fold_left_length {B} (f : list Q -> B -> list Q) (l : list B)
    (t : list Q) :
  (forall t x, length (f t x) = length t) ->
  length (fold_left f l t) = length t.
Proof.
  intros Hf. revert t. induction l as [|x l IH]; intros t; cbn [fold_left];
    [reflexivity|].
  now rewrite IH, Hf.
Qed.

(** X3: Whenever [_step_size] returns, for any shape, [tau] has [h*w] entries
    and [sigma] has [3*h*w - length*(h+w)] entries. *)
Theorem step_size_result_sizes (self : TotalVariation) (shape : nat * nat)
    (tau sigma : list Q) :
  _step_size self shape = Ok (tau, sigma) ->
  length tau = fst shape * snd shape /\
  Z.of_nat (length sigma)
  = (3 * (Z.of_nat (fst shape) * Z.of_nat (snd shape))
     - self_length self * (Z.of_nat (fst shape) + Z.of_nat (snd shape)))%Z.
Proof.
  unfold _step_size. intros H.
  bind_inv H. bind_inv H. bind_inv H. bind_inv H. cbv zeta in H.
  bind_inv H. injection H as <- <-.
  apply full_length in E. destruct E as [_ Hl].
  apply iadd_length in E2.
  apply full_length in E3. destruct E3 as [Hpos Hs].
  unfold Np.reciprocal. rewrite !length_map. split.
  - rewrite fold_left_length.
    + rewrite E2, Hl. lia.
    + intros t [i c]. apply iadd_scalar_length.
  - rewrite !iadd_scalar_length, Hs. lia.
Qed.

Lemma step_size_result_sizes_witness :
  exists tau sigma,
    _step_size default_solver (1, 1) = Ok (tau, sigma) /\
    length tau = 1 /\ length sigma = 1.
Proof.
  destruct (_step_size default_solver (1, 1)) as [[tau sigma]|e] eqn:E.
  - exists tau, sigma. split; [reflexivity|].
    destruct (@step_size_result_sizes default_solver (1, 1) tau sigma E)
      as [H1 H2].
    split; [exact H1|]. cbn in H2. lia.
  - vm_compute in E. discriminate E.
Defined.

(** ** The images on which [_tv] returns *)

Lemma tv_loop_any (self : TotalVariation) (n h w : nat) (u : ndarray2)
    (l : list (nat * Q)) (A B : list Q) :
  self_length self = Z.of_nat n -> 1 <= n -> n <= h -> n <= w ->
  has_shape u h w ->
  length A = h * (w - n) -> length B = (h - n) * w ->
  foldM (fun ret '(i, c) =>
           ret <- Np.iadd ret None
                    (Some (Z.of_nat (nrows u) * Z.of_nat (ncols u)
                           - self_length self * Z.of_nat (nrows u))%Z)
                    (Np.scale c (hshift self u i)) ;;
           Np.iadd ret
             (Some (Z.of_nat (nrows u) * Z.of_nat (ncols u)
                    - self_length self * Z.of_nat (nrows u))%Z) None
             (Np.scale c (vshift self u i)))
        l (A ++ B)
  = Ok (accumulate (hshift self u) l A ++ accumulate (vshift self u) l B).
Proof.
  intros HL Hn Hh Hw Hu.
  assert (LH := @hshift_length_any self n h w u HL Hn Hu).
  assert (LV := @vshift_length_any self n h w u HL Hn Hu).
  destruct Hu as (Hnr & Hnc & _ & _).
  rewrite Hnr, Hnc, HL.
  replace (Z.of_nat h * Z.of_nat w - Z.of_nat n * Z.of_nat h)%Z
    with (Z.of_nat (h * (w - n))) by nia.
  revert A B. induction l as [|[i c] l IH]; intros A B HA HB.
  - reflexivity.
  - cbn [foldM].
    rewrite (@iadd_inside (A ++ B) _ 0).
    2: reflexivity.
    2: { cbn [Np.stop_of]. rewrite bound_of_nat, length_app, scale_length,
           LH. lia. }
    cbn [bind].
    rewrite add_at_prefix by (now rewrite scale_length, LH).
    set (A' := Np.map2 Qplus A (Np.scale c (hshift self u i))).
    assert (HA' : length A' = h * (w - n)).
    { unfold A'. rewrite map2_length, scale_length, LH. lia. }
    rewrite (@iadd_inside (A' ++ B) _ (length A')).
    2: { cbn [Np.start_of]. rewrite bound_of_nat, length_app. lia. }
    2: { cbn [Np.stop_of]. rewrite length_app, scale_length, LV. lia. }
    rewrite add_at_suffix by (now rewrite scale_length, LV).
    cbn [bind]. rewrite IH.
    + reflexivity.
    + exact HA'.
    + rewrite map2_length, scale_length, LV. lia.
Qed.

Lemma tv_returns_any (self : TotalVariation) (n h w : nat) (u : ndarray2) :
  self_length self = Z.of_nat n -> 1 <= n -> n <= h -> n <= w ->
  has_shape u h w ->
  _tv self u
  = Ok (accumulate (hshift self u) (enumerate (coef self))
          (repeat 0%Q (h * (w - n)))
        ++ accumulate (vshift self u) (enumerate (coef self))
             (repeat 0%Q ((h - n) * w))).
Proof.
  intros HL Hn Hh Hw Hu.
  assert (Hu' := Hu). destruct Hu' as (Hnr & Hnc & _ & _).
  unfold _tv, Np.zeros, Np.full.
  destruct (Z.ltb_spec
              (2 * Z.of_nat (nrows u) * Z.of_nat (ncols u)
               - self_length self * (Z.of_nat (nrows u) + Z.of_nat (ncols u)))
              0) as [Hneg|Hpos].
  { rewrite Hnr, Hnc, HL in Hneg. nia. }
  cbn [bind].
  replace (Z.to_nat
             (2 * Z.of_nat (nrows u) * Z.of_nat (ncols u)
              - self_length self * (Z.of_nat (nrows u) + Z.of_nat (ncols u))))
    with (h * (w - n) + (h - n) * w)
    by (rewrite Hnr, Hnc, HL; nia).
  rewrite repeat_app.
  apply (@tv_loop_any self n h w u); try assumption; apply repeat_length.
Qed.

(** X4: For a solver whose [length] is [len(coef) - 1 >= 1] and a non-empty
    image, [_tv] returns exactly when both dimensions are at least
    [length]; its result then has [h*(w-length) + (h-length)*w] entries,
    and otherwise it raises [ValueError]. *)
Theorem tv_returns_iff (self : TotalVariation) (n h w : nat) (u : ndarray2) :
  self_length self = Z.of_nat n -> length (coef self) = S n -> 1 <= n ->
  has_shape u h w -> 1 <= h -> 1 <= w ->
  ((exists t, _tv self u = Ok t) <-> n <= h /\ n <= w) /\
  (n <= h -> n <= w ->
   exists t, _tv self u = Ok t /\ length t = h * (w - n) + (h - n) * w) /\
  (h < n \/ w < n -> _tv self u = Raise ValueError).
Proof.
  intros HL Hcoef Hn Hu H1 H2.
  assert (Hok : n <= h -> n <= w ->
    exists t, _tv self u = Ok t /\ length t = h * (w - n) + (h - n) * w).
  { intros Hh Hw. eexists. split.
    - apply (@tv_returns_any self n h w u); assumption.
    - rewrite length_app, !accumulate_length, !repeat_length;
        [reflexivity| |]; intros i c _; rewrite repeat_length.
      + apply (@vshift_length_any self n h w u HL Hn Hu).
      + apply (@hshift_length_any self n h w u HL Hn Hu). }
  assert (Hbad : h < n \/ w < n -> _tv self u = Raise ValueError).
  { intros Hsmall. apply (@tv_small_raises self n h w u); assumption. }
  split; [|split; assumption].
  split.
  - intros [t Ht].
    destruct (Nat.le_gt_cases n h) as [Hh|Hh];
      [destruct (Nat.le_gt_cases n w) as [Hw|Hw]|].
    + split; assumption.
    + rewrite Hbad in Ht by (now right). discriminate.
    + rewrite Hbad in Ht by (now left). discriminate.
  - intros [Hh Hw]. destruct (Hok Hh Hw) as (t & Ht & _). now exists t.
Qed.

Lemma tv_returns_iff_witness :
  ((exists t, _tv example_stencil (mk_ndarray2 2 3 [[1; 2; 3]; [4; 5; 6]]%Q)
              = Ok t) <-> 2 <= 2 /\ 2 <= 3) /\
  (exists t, _tv example_stencil (mk_ndarray2 2 3 [[1; 2; 3]; [4; 5; 6]]%Q)
             = Ok t /\ length t = 2).
Proof.
  destruct (@tv_returns_iff example_stencil 2 2 3
              (mk_ndarray2 2 3 [[1; 2; 3]; [4; 5; 6]]%Q))
    as (H1 & H2 & _).
  - reflexivity.
  - reflexivity.
  - lia.
  - repeat split; repeat constructor.
  - lia.
  - lia.
  - split; [exact H1|]. apply H2; lia.
Defined.

(** ** A stencil of one coefficient *)

Lemma concat_map_nil {A B} (F : A -> list B) (l : list A) :
  (forall x, F x = []) -> concat (map F l) = [].
Proof.
  intros HF. induction l as [|x l IH]; cbn [map concat]; [reflexivity|].
  now rewrite HF, IH.
Qed.

Lemma hshift_one_coefficient (self : TotalVariation) (u : ndarray2) (i : nat) :
  self_length self = 0%Z -> hshift self u i = [].
Proof.
  intros HL. unfold hshift. apply concat_map_nil. intros row.
  rewrite HL. unfold Np.slice. cbn [Np.start_of Np.stop_of Z.opp].
  unfold Np.bound. cbn. now rewrite Nat.min_0_r.
Qed.

Lemma tv_one_coefficient (self : TotalVariation) (u : ndarray2) :
  self_length self = 0%Z -> coef self <> [] ->
  1 <= nrows u -> 1 <= ncols u ->
  _tv self u = Raise ValueError.
Proof.
  intros HL Hc H1 H2. unfold _tv, Np.zeros, Np.full. rewrite HL.
  destruct (Z.ltb_spec
              (2 * Z.of_nat (nrows u) * Z.of_nat (ncols u)
               - 0 * (Z.of_nat (nrows u) + Z.of_nat (ncols u))) 0)
    as [Hneg|HS]; [reflexivity|].
  cbn [bind].
  destruct (coef self) as [|c0 cs]; [contradiction|].
  cbn [enumerate length seq combine foldM].
  rewrite hshift_one_coefficient by exact HL.
  unfold Np.iadd at 1. cbn [Np.start_of Np.stop_of].
  replace (Z.of_nat (nrows u) * Z.of_nat (ncols u)
           - 0 * Z.of_nat (nrows u))%Z
    with (Z.of_nat (nrows u * ncols u)) by lia.
  rewrite bound_of_nat, repeat_length, Nat.sub_0_r.
  rewrite broadcast_to_raise; [reflexivity| |]; cbn [Np.scale map length];
    nia.
Qed.

(** X5: With a coefficient sequence of one entry ([length = 0]) the slices
    [[:, :-0]] are empty: [_tv] raises [ValueError] on every non-empty
    image, and so does [transform], before its loop. *)
Theorem one_coefficient_raises (lambd : Q) (max_iter : Z) (c tol eps : Q)
    (saturation extended_output : bool) (self : TotalVariation)
    (sqrt : Q -> Q) (X : ndarray2) :
  __init__ lambd max_iter [c] tol eps saturation extended_output = Ok self ->
  1 <= nrows X -> 1 <= ncols X ->
  _tv self X = Raise ValueError /\
  transform self sqrt X = Raise ValueError.
Proof.
  intros Hinit H1 H2. injection Hinit as <-.
  set (self := mk_TotalVariation _ _ _ _ _ _ _ _).
  assert (Htv : _tv self X = Raise ValueError).
  { apply tv_one_coefficient; [reflexivity|discriminate|exact H1|exact H2]. }
  split; [exact Htv|].
  unfold transform, initialize.
  destruct (_step_size self (nrows X, ncols X)) as [[tau sigma]|e] eqn:E1;
    cbn [bind]; [|f_equal; eapply step_size_exn, E1].
  destruct (Np.zeros _) eqn:E2; cbn [bind];
    [|f_equal; eapply full_exn, E2].
  rewrite Htv. reflexivity.
Qed.

Lemma one_coefficient_raises_witness :
  _tv (mk_TotalVariation 1%Q 10%Z [1%Q] (1 # 1000)%Q 0%Q false false 0%Z) example_image
  = Raise ValueError /\
  transform (mk_TotalVariation 1%Q 10%Z [1%Q] (1 # 1000)%Q 0%Q false false 0%Z)
    floor_sqrt example_image
  = Raise ValueError.
Proof.
  apply (@one_coefficient_raises 1%Q 10%Z 1%Q (1 # 1000)%Q 0%Q false false).
  - reflexivity.
  - cbn; lia.
  - cbn; lia.
Defined.

(** ** The stencil behind [_tv], for every coefficient sequence *)

Lemma Forall2_Qeq_nth (a b : list Q) :
  length a = length b ->
  (forall k, k < length a -> (nth k a 0 == nth k b 0)%Q) ->
  Forall2 Qeq a b.
Proof.
  revert b. induction a as [|x a IH]; intros [|y b] Hlen H; try discriminate.
  - constructor.
  - constructor.
    + apply (H 0). cbn. lia.
    + apply IH; [cbn in Hlen; lia|].
      intros k Hk. apply (H (S k)). cbn. lia.
Qed.

Lemma Forall_Qeq_nth (P : Q -> Prop) (a : list Q) :
  (forall k, k < length a -> P (nth k a 0%Q)) -> Forall P a.
Proof.
  induction a as [|x a IH]; intros H; constructor.
  - apply (H 0). cbn. lia.
  - apply IH. intros k Hk. apply (H (S k)). cbn. lia.
Qed.

Lemma sum_over_linear (l : list (nat * Q)) (a b : Q) (F G : nat -> Q) :
  (sum_over l (fun i => a * F i + b * G i)
   == a * sum_over l F + b * sum_over l G)%Q.
Proof.
  induction l as [|[i c] l IH]; cbn [sum_over]; [ring|].
  rewrite IH. ring.
Qed.

Lemma sum_over_const (l : list Q) (s : nat) (c : Q) :
  (sum_over (combine (seq s (length l)) l) (fun _ => c) == c * Np.sum l)%Q.
Proof.
  revert s. induction l as [|x l IH]; intros s;
    cbn [length seq combine sum_over].
  - change (Np.sum []) with 0%Q. ring.
  - rewrite sum_cons, IH. ring.
Qed.

Lemma px_map_nd (f : Q -> Q) (u : ndarray2) (h w r c : nat) :
  has_shape u h w -> r < h -> c < w ->
  px (map_nd f u) r c = f (px u r c).
Proof.
  intros (_ & _ & H3 & H4) Hr Hc. unfold px, map_nd. cbn [rows].
  rewrite (nth_map_in _ _ []) by lia.
  rewrite (nth_map_in _ _ 0%Q); [reflexivity|].
  rewrite Forall_forall in H4. rewrite H4; [exact Hc|].
  apply nth_In. lia.
Qed.

Lemma nth_zip_rows (f : Q -> Q -> Q) (a b : list (list Q)) (r : nat) :
  r < length a -> r < length b ->
  nth r (zip_rows f a b) [] = Np.map2 f (nth r a []) (nth r b []).
Proof.
  revert b r. induction a as [|x a IH]; intros [|y b] [|r] Ha Hb;
    cbn in Ha, Hb; try lia; cbn [zip_rows nth]; [reflexivity|].
  apply IH; lia.
Qed.

Lemma px_map2_nd (f : Q -> Q -> Q) (u v : ndarray2) (h w r c : nat) :
  has_shape u h w -> has_shape v h w -> r < h -> c < w ->
  px (map2_nd f u v) r c = f (px u r c) (px v r c).
Proof.
  intros (_ & _ & H3 & H4) (_ & _ & G3 & G4) Hr Hc.
  unfold px, map2_nd. cbn [rows].
  rewrite nth_zip_rows by lia.
  rewrite Forall_forall in H4, G4.
  apply nth_map2.
  - rewrite H4; [exact Hc|]. apply nth_In. lia.
  - rewrite G4; [exact Hc|]. apply nth_In. lia.
Qed.

Lemma px_linear_combination (a b : Q) (u v : ndarray2) (h w r c : nat) :
  has_shape u h w -> has_shape v h w -> r < h -> c < w ->
  px (linear_combination a b u v) r c = (a * px u r c + b * px v r c)%Q.
Proof.
  intros Hu Hv Hr Hc. unfold linear_combination.
  rewrite (@px_map2_nd Qplus _ _ h w) by (try apply has_shape_map; assumption).
  now rewrite !(@px_map_nd _ _ h w) by assumption.
Qed.

Lemma px_all_eq (c : Q) (u : ndarray2) (h w i j : nat) :
  has_shape u h w -> all_eq c u -> i < h -> j < w -> (px u i j == c)%Q.
Proof.
  intros (_ & _ & H3 & H4) Hc Hi Hj. unfold px.
  unfold all_eq in Hc. rewrite Forall_forall in Hc, H4.
  assert (Hin : In (nth i (rows u) []) (rows u)) by (apply nth_In; lia).
  specialize (Hc _ Hin). rewrite Forall_forall in Hc.
  apply Hc, nth_In. rewrite (H4 _ Hin). exact Hj.
Qed.

Lemma block_index (m h k : nat) :
  0 < m -> k < h * m -> k / m < h /\ k mod m < m /\ k = k / m * m + k mod m.
Proof.
  intros Hm Hk. split; [|split].
  - apply Nat.Div0.div_lt_upper_bound. lia.
  - apply Nat.mod_upper_bound. lia.
  - rewrite (Nat.div_mod_eq k m) at 1. lia.
Qed.

Section Stencil.

Variable self : TotalVariation.
Variables n h w : nat.

Hypothesis HL : self_length self = Z.of_nat n.
Hypothesis Hcoef : length (coef self) = S n.
Hypothesis Hn : 1 <= n.
Hypothesis Hh : n < h.
Hypothesis Hw : n < w.

Lemma tv_nth (u : ndarray2) (k : nat) :
  has_shape u h w -> k < h * (w - n) + (h - n) * w ->
  (nth k (accumulate (hshift self u) (enumerate (coef self))
            (repeat 0%Q (h * (w - n)))
          ++ accumulate (vshift self u) (enumerate (coef self))
               (repeat 0%Q ((h - n) * w))) 0
   == stencil_at self n h w u k)%Q.
Proof using All.
  intros (U1 & U2 & U3 & U4) Hk. unfold stencil_at.
  destruct (Nat.ltb_spec k (h * (w - n))) as [Hlt|Hge].
  - destruct (@block_index (w - n) h k) as (Hr & Hj & E); [lia|exact Hlt|].
    remember (k / (w - n)) as r eqn:Er.
    remember (k mod (w - n)) as j eqn:Ej.
    rewrite E.
    apply (@tv_entry_h self n h w HL Hcoef Hn Hh Hw u U1 U2 U3 U4 r j Hr Hj).
  - destruct (@block_index w (h - n) (k - h * (w - n)))
      as (Hr & Hj & E); [lia|lia|].
    remember ((k - h * (w - n)) / w) as r eqn:Er.
    remember ((k - h * (w - n)) mod w) as j eqn:Ej.
    replace k with (h * (w - n) + (r * w + j)) by lia.
    apply (@tv_entry_v self n h w HL Hcoef Hn Hh Hw u U1 U2 U3 U4 r j Hr Hj).
Qed.

Lemma stencil_at_linear (a b : Q) (u v : ndarray2) (k : nat) :
  has_shape u h w -> has_shape v h w -> k < h * (w - n) + (h - n) * w ->
  (stencil_at self n h w (linear_combination a b u v) k
   == a * stencil_at self n h w u k + b * stencil_at self n h w v k)%Q.
Proof using All.
  intros Hu Hv Hk. unfold stencil_at.
  assert (Hin : forall i c, In (i, c) (enumerate (coef self)) -> i <= n).
  { intros i c H. apply in_enumerate in H. lia. }
  destruct (Nat.ltb_spec k (h * (w - n))) as [Hlt|Hge].
  - destruct (@block_index (w - n) h k) as (Hr & Hj & _); [lia|exact Hlt|].
    rewrite <- sum_over_linear. apply sum_over_ext. intros i c H.
    rewrite (@px_linear_combination a b u v h w); try assumption;
      [reflexivity|]. specialize (Hin i c H). lia.
  - destruct (@block_index w (h - n) (k - h * (w - n)))
      as (Hr & Hj & _); [lia|lia|].
    rewrite <- sum_over_linear. apply sum_over_ext. intros i c H.
    rewrite (@px_linear_combination a b u v h w); try assumption;
      [reflexivity|]. specialize (Hin i c H). lia.
Qed.

Lemma stencil_at_constant (c : Q) (u : ndarray2) (k : nat) :
  has_shape u h w -> all_eq c u -> k < h * (w - n) + (h - n) * w ->
  (stencil_at self n h w u k == c * Np.sum (coef self))%Q.
Proof using All.
  intros Hu Hc Hk. unfold stencil_at.
  assert (Hin : forall i d, In (i, d) (enumerate (coef self)) -> i <= n).
  { intros i d H. apply in_enumerate in H. lia. }
  rewrite <- (sum_over_const (coef self) 0 c). fold (enumerate (coef self)).
  destruct (Nat.ltb_spec k (h * (w - n))) as [Hlt|Hge].
  - destruct (@block_index (w - n) h k) as (Hr & Hj & _); [lia|exact Hlt|].
    apply sum_over_ext. intros i d H.
    apply (@px_all_eq c u h w); try assumption. specialize (Hin i d H). lia.
  - destruct (@block_index w (h - n) (k - h * (w - n)))
      as (Hr & Hj & _); [lia|lia|].
    apply sum_over_ext. intros i d H.
    apply (@px_all_eq c u h w); try assumption. specialize (Hin i d H). lia.
Qed.

End Stencil.

Lemma tv_stencil (self : TotalVariation) (n h w : nat) (u : ndarray2) :
  self_length self = Z.of_nat n -> length (coef self) = S n ->
  1 <= n -> n < h -> n < w -> has_shape u h w ->
  exists t,
    _tv self u = Ok t /\ length t = h * (w - n) + (h - n) * w /\
    forall k, k < h * (w - n) + (h - n) * w ->
      (nth k t 0 == stencil_at self n h w u k)%Q.
Proof.
  intros HL Hcoef Hn Hh Hw Hu. assert (Hu' := Hu).
  destruct Hu' as (U1 & U2 & U3 & U4).
  eexists. split; [|split].
  - apply (@tv_closed self n h w HL Hcoef Hn Hh Hw u U1 U2 U3 U4).
  - apply (@tv_closed_length self n h w HL Hcoef Hn Hh Hw u U1 U2 U3 U4).
  - intros k Hk. apply (@tv_nth self n h w HL Hcoef Hn Hh Hw u k Hu Hk).
Qed.

(** X6: For every coefficient sequence of at least two entries and every image
    larger than [length] in both directions, [_tv] applies the stencil along
    the rows and then along the columns: the entry for row [i] and column
    [j] of the first block is the sum of [coef[d] * u[i, j + d]], and the
    one of the second block the sum of [coef[d] * u[i + d, j]]. *)
Theorem tv_applies_stencil (self : TotalVariation) (n : nat) (u : ndarray2) :
  valid self (nrows u) (ncols u) -> wf_ndarray2 u ->
  n = length (coef self) - 1 ->
  exists t,
    _tv self u = Ok t /\
    length t = nrows u * (ncols u - n) + (nrows u - n) * ncols u /\
    (forall i j, i < nrows u -> j < ncols u - n ->
       (nth (i * (ncols u - n) + j) t 0
        == sum_over (enumerate (coef self)) (fun d => px u i (j + d)))%Q) /\
    (forall i j, i < nrows u - n -> j < ncols u ->
       (nth (nrows u * (ncols u - n) + (i * ncols u + j)) t 0
        == sum_over (enumerate (coef self)) (fun d => px u (i + d) j))%Q).
Proof.
  intros Hvalid [Hrows Hcols] En.
  destruct Hvalid as (HL0 & Hc & Hh0 & Hw0).
  assert (HL : self_length self = Z.of_nat n) by lia.
  assert (Hcoef : length (coef self) = S n) by lia.
  assert (Hn : 1 <= n) by lia.
  assert (Hh : n < nrows u) by lia.
  assert (Hw : n < ncols u) by lia.
  eexists. split; [|split; [|split]].
  - apply (@tv_closed self n _ _ HL Hcoef Hn Hh Hw u eq_refl eq_refl
             Hrows Hcols).
  - apply (@tv_closed_length self n _ _ HL Hcoef Hn Hh Hw u eq_refl eq_refl
             Hrows Hcols).
  - intros i j Hi Hj.
    rewrite (@tv_entry_h self n _ _ HL Hcoef Hn Hh Hw u eq_refl eq_refl
               Hrows Hcols i j Hi Hj).
    apply sum_over_ext. intros d c _. now rewrite Nat.add_comm.
  - intros i j Hi Hj.
    rewrite (@tv_entry_v self n _ _ HL Hcoef Hn Hh Hw u eq_refl eq_refl
               Hrows Hcols i j Hi Hj).
    apply sum_over_ext. intros d c _. now rewrite Nat.add_comm.
Qed.

Lemma tv_applies_stencil_witness :
  exists t,
    _tv example_stencil example_image = Ok t /\
    (nth (1 * (4 - 2) + 1) t 0 == 9 - 2 * 27 + 81)%Q /\
    (nth (3 * (4 - 2) + (0 * 4 + 3)) t 0 == 8 - 2 * 81 + 625)%Q.
Proof.
  destruct (@tv_applies_stencil example_stencil 2 example_image)
    as (t & Ht & _ & Hh & Hv).
  - repeat split; cbn; lia.
  - split; [reflexivity|]. repeat constructor.
  - reflexivity.
  - exists t. split; [exact Ht|]. split.
    + rewrite (Hh 1 1) by (cbn; lia). vm_compute. reflexivity.
    + rewrite (Hv 0 3) by (cbn; lia). vm_compute. reflexivity.
Defined.

(** X7: [_tv] is linear: on two images of the same shape,
    [_tv(a * u + b * v)] is [a * _tv(u) + b * _tv(v)], entry by entry. *)
Theorem tv_linear (self : TotalVariation) (a b : Q) (u v : ndarray2) :
  valid self (nrows u) (ncols u) -> wf_ndarray2 u -> wf_ndarray2 v ->
  nrows v = nrows u -> ncols v = ncols u ->
  exists tu tv t,
    _tv self u = Ok tu /\ _tv self v = Ok tv /\
    _tv self (linear_combination a b u v) = Ok t /\
    Forall2 Qeq t (Np.map2 Qplus (Np.scale a tu) (Np.scale b tv)).
Proof.
  intros Hvalid Hu Hv E1 E2.
  destruct (valid_nat Hvalid) as (n & HL & Hcoef & Hn & Hh & Hw).
  apply wf_has_shape in Hu, Hv. rewrite E1, E2 in Hv.
  set (h := nrows u) in *. set (w := ncols u) in *.
  assert (Hc : has_shape (linear_combination a b u v) h w).
  { unfold linear_combination.
    apply has_shape_map2; apply has_shape_map; assumption. }
  destruct (@tv_stencil self n h w u HL Hcoef Hn Hh Hw Hu)
    as (tu & Htu & Lu & Nu).
  destruct (@tv_stencil self n h w v HL Hcoef Hn Hh Hw Hv)
    as (tv & Htv & Lv & Nv).
  destruct (@tv_stencil self n h w _ HL Hcoef Hn Hh Hw Hc)
    as (t & Ht & Lt & Nt).
  exists tu, tv, t. repeat (split; [assumption|]).
  apply Forall2_Qeq_nth.
  - rewrite map2_length, !scale_length. lia.
  - intros k Hk. rewrite Lt in Hk.
    rewrite nth_map2 by (rewrite scale_length; lia).
    unfold Np.scale. rewrite !(nth_map_in _ _ 0%Q) by lia.
    rewrite (Nt k Hk), (Nu k Hk), (Nv k Hk).
    apply (@stencil_at_linear self n h w HL Hcoef Hn Hh Hw a b u v k Hu Hv Hk).
Qed.

Lemma tv_linear_witness :
  exists tu tv t,
    _tv example_stencil example_image = Ok tu /\
    _tv example_stencil second_image = Ok tv /\
    _tv example_stencil
      (linear_combination 2 (-3) example_image second_image) = Ok t /\
    Forall2 Qeq t (Np.map2 Qplus (Np.scale 2 tu) (Np.scale (-3) tv)).
Proof.
  apply (@tv_linear example_stencil 2%Q (-3)%Q example_image second_image).
  - repeat split; cbn; lia.
  - split; [reflexivity|]. repeat constructor.
  - split; [reflexivity|]. repeat constructor.
  - reflexivity.
  - reflexivity.
Defined.

Lemma tv_constant (self : TotalVariation) (n h w : nat) (c : Q)
    (u : ndarray2) (t : list Q) :
  self_length self = Z.of_nat n -> length (coef self) = S n ->
  1 <= n -> n < h -> n < w -> has_shape u h w -> all_eq c u ->
  _tv self u = Ok t ->
  Forall (fun x => x == c * Np.sum (coef self))%Q t.
Proof.
  intros HL Hcoef Hn Hh Hw Hu Hc Ht.
  destruct (@tv_stencil self n h w u HL Hcoef Hn Hh Hw Hu)
    as (t' & Ht' & Lt & Nt).
  assert (t' = t) as -> by congruence.
  apply Forall_Qeq_nth. intros k Hk. rewrite Lt in Hk.
  rewrite (Nt k Hk).
  apply (@stencil_at_constant self n h w HL Hcoef Hn Hh Hw c u k Hu Hc Hk).
Qed.

(** X8: On an image whose pixels all have the value [c], every entry of [_tv]
    is [c * sum(coef)]: a constant image has no variation when the
    coefficients sum to zero, as the default [[1, -1]] do. *)
Theorem tv_constant_image (self : TotalVariation) (c : Q) (u : ndarray2) :
  valid self (nrows u) (ncols u) -> wf_ndarray2 u -> all_eq c u ->
  exists t,
    _tv self u = Ok t /\
    Forall (fun x => x == c * Np.sum (coef self))%Q t /\
    ((Np.sum (coef self) == 0)%Q -> all_zero t).
Proof.
  intros Hvalid Hu Hc.
  destruct (valid_nat Hvalid) as (n & HL & Hcoef & Hn & Hh & Hw).
  apply wf_has_shape in Hu.
  destruct (@tv_stencil self n _ _ u HL Hcoef Hn Hh Hw Hu)
    as (t & Ht & _ & _).
  assert (Hall := @tv_constant self n _ _ c u t HL Hcoef Hn Hh Hw Hu Hc Ht).
  exists t. split; [exact Ht|]. split; [exact Hall|].
  intros Hsum. eapply Forall_impl; [|exact Hall].
  cbv beta. intros x Hx. rewrite Hx, Hsum. ring.
Qed.

Lemma tv_constant_image_witness :
  exists t,
    _tv example_stencil constant_image = Ok t /\
    Forall (fun x => x == 7 * Np.sum (coef example_stencil))%Q t /\
    ((Np.sum (coef example_stencil) == 0)%Q -> all_zero t).
Proof.
  apply (@tv_constant_image example_stencil 7%Q constant_image).
  - repeat split; cbn; lia.
  - split; [reflexivity|]. repeat constructor.
  - repeat constructor.
Defined.

(** ** The values of the step sizes *)

Lemma sum_over_le (l : list (nat * Q)) (F G : nat -> Q) :
  (forall i c, In (i, c) l -> (0 <= c)%Q) ->
  (forall i c, In (i, c) l -> (F i <= G i)%Q) ->
  (sum_over l F <= sum_over l G)%Q.
Proof.
  induction l as [|[i c] l IH]; intros Hc HF; cbn [sum_over].
  - apply Qle_refl.
  - assert (H1 : (c * F i <= c * G i)%Q).
    { rewrite (Qmult_comm c (F i)), (Qmult_comm c (G i)).
      apply Qmult_le_compat_r; [apply (HF i c)|apply (Hc i c)]; now left. }
    assert (H2 : (sum_over l F <= sum_over l G)%Q).
    { apply IH; intros j d Hj; [apply (Hc j d)|apply (HF j d)]; now right. }
    lra.
Qed.

Lemma weight_le_sum (l : list Q) (b : nat -> bool) :
  (sum_over (enumerate (Np.abs l)) (fun i => ind (b i))
   <= Np.sum (Np.abs l))%Q.
Proof.
  assert (E : (Np.sum (Np.abs l)
               == sum_over (enumerate (Np.abs l)) (fun _ => 1))%Q).
  { unfold enumerate. rewrite sum_over_const. ring. }
  rewrite E. apply sum_over_le.
  - intros i c H. eapply in_enumerate_abs_nonneg, H.
  - intros i c _. destruct (b i); discriminate.
Qed.

Lemma weight_full (l : list Q) (b : nat -> bool) :
  (forall i, i < length l -> b i = true) ->
  (sum_over (enumerate (Np.abs l)) (fun i => ind (b i))
   == Np.sum (Np.abs l))%Q.
Proof.
  intros Hb.
  assert (E : (Np.sum (Np.abs l)
               == sum_over (enumerate (Np.abs l)) (fun _ => 1))%Q).
  { unfold enumerate. rewrite sum_over_const. ring. }
  rewrite E. apply sum_over_ext. intros i c H.
  apply in_enumerate in H. rewrite abs_length in H.
  rewrite Hb by lia. reflexivity.
Qed.

Lemma reciprocal_antitone (x y : Q) :
  (0 < x)%Q -> (x <= y)%Q -> (1 / y <= 1 / x)%Q.
Proof.
  intros Hx Hxy. apply Qle_shift_div_r; [lra|].
  setoid_replace (1 / x * y)%Q with (y / x)%Q by (unfold Qdiv; ring).
  apply Qle_shift_div_l; lra.
Qed.

(** X9: The primal step sizes, for [lambd > 0]: the step at every pixel lies
    between [1 / (lambd + 2 * sum(|coef|))] and [1 / lambd], and it is the
    lower bound at every pixel at least [length] away from the four edges,
    where all the taps of the stencil cover the pixel in both directions. *)
Theorem tau_values (self : TotalVariation) (n h w r c : nat) :
  valid self h w -> n = length (coef self) - 1 ->
  (0 < lambd self)%Q -> r < h -> c < w ->
  exists tau sigma,
    _step_size self (h, w) = Ok (tau, sigma) /\
    (1 / (lambd self + 2 * Np.sum (Np.abs (coef self)))
     <= nth (r * w + c) tau 0)%Q /\
    (nth (r * w + c) tau 0 <= 1 / lambd self)%Q /\
    (n <= r -> r < h - n -> n <= c -> c < w - n ->
     (nth (r * w + c) tau 0
      == 1 / (lambd self + 2 * Np.sum (Np.abs (coef self))))%Q).
Proof.
  intros Hvalid En Hlam Hr Hc.
  destruct Hvalid as (HL0 & Hc0 & Hh0 & Hw0).
  assert (HL : self_length self = Z.of_nat n) by lia.
  assert (Hcoef : length (coef self) = S n) by lia.
  assert (Hn : 1 <= n) by lia.
  assert (Hh : n < h) by lia.
  assert (Hw : n < w) by lia.
  exists (Np.reciprocal (tau_sums self n h w)),
         (Np.reciprocal (sigma_sums self n h w)).
  split; [apply (@step_size_closed self n h w HL Hcoef Hn Hh Hw)|].
  assert (Hp : r * w + c < h * w) by nia.
  assert (Etau : nth (r * w + c) (Np.reciprocal (tau_sums self n h w)) 0%Q
                 = (1 / nth (r * w + c) (tau_sums self n h w) 0)%Q).
  { unfold Np.reciprocal. apply nth_map_in.
    now rewrite (@tau_sums_length self n h w HL Hcoef Hn Hh Hw). }
  assert (ET := @tau_sums_entry self n h w HL Hcoef Hn Hh Hw r c Hr Hc).
  destruct (weights_nonneg self n h w r c) as [W1 W2].
  assert (R1 : (row_weight self n w c <= Np.sum (Np.abs (coef self)))%Q)
    by apply weight_le_sum.
  assert (R2 : (column_weight self n h r <= Np.sum (Np.abs (coef self)))%Q)
    by apply weight_le_sum.
  rewrite Etau. clear Etau.
  set (T := nth (r * w + c) (tau_sums self n h w) 0%Q) in *.
  set (A := Np.sum (Np.abs (coef self))) in *.
  split; [|split].
  - apply reciprocal_antitone; lra.
  - apply reciprocal_antitone; lra.
  - intros I1 I2 I3 I4.
    assert (F1 : (row_weight self n w c == A)%Q).
    { apply weight_full. intros i Hi.
      apply andb_true_intro. split;
        [apply Nat.leb_le|apply Nat.ltb_lt]; lia. }
    assert (F2 : (column_weight self n h r == A)%Q).
    { apply weight_full. intros i Hi.
      apply andb_true_intro. split;
        [apply Nat.leb_le|apply Nat.ltb_lt]; lia. }
    rewrite ET, F1, F2.
    setoid_replace (lambd self + A + A)%Q with (lambd self + 2 * A)%Q
      by ring.
    reflexivity.
Qed.

Lemma tau_values_witness :
  exists tau sigma,
    _step_size example_stencil (5, 6) = Ok (tau, sigma) /\
    (1 / (1 + 2 * 4) <= nth (2 * 6 + 3) tau 0)%Q /\
    (nth (2 * 6 + 3) tau 0 <= 1 / 1)%Q /\
    (nth (2 * 6 + 3) tau 0 == 1 / (1 + 2 * 4))%Q.
Proof.
  destruct (@tau_values example_stencil 2 5 6 2 3)
    as (tau & sigma & H1 & H2 & H3 & H4).
  - repeat split; cbn; lia.
  - reflexivity.
  - reflexivity.
  - lia.
  - lia.
  - exists tau, sigma. split; [exact H1|]. split; [exact H2|].
    split; [exact H3|]. apply H4; lia.
Defined.

Lemma split_at_length {A} (a b : list A) (k : nat) :
  length a = k -> firstn k (a ++ b) = a /\ skipn k (a ++ b) = b.
Proof.
  intros <-. split.
  - rewrite firstn_app, Nat.sub_diag, firstn_O, firstn_all. apply app_nil_r.
  - rewrite skipn_app, Nat.sub_diag, skipn_O, skipn_all. reflexivity.
Qed.

(** X10: The dual step sizes, for [lambd > 0] and coefficients that are not
    all zero: every entry of [sigma[:-hw]] is [1 / sum(|coef|)] and every
    entry of [sigma[-hw:]] is [1 / lambd]. *)
Theorem sigma_values (self : TotalVariation) (h w : nat) :
  valid self h w ->
  (0 < lambd self)%Q -> (0 < Np.sum (Np.abs (coef self)))%Q ->
  exists tau sigma,
    _step_size self (h, w) = Ok (tau, sigma) /\
    Forall (fun x => x == 1 / Np.sum (Np.abs (coef self)))%Q
      (Np.slice sigma None (Some (- (Z.of_nat h * Z.of_nat w))%Z)) /\
    Forall (fun x => x == 1 / lambd self)%Q
      (Np.slice sigma (Some (- (Z.of_nat h * Z.of_nat w))%Z) None) /\
    length (Np.slice sigma (Some (- (Z.of_nat h * Z.of_nat w))%Z) None)
    = h * w.
Proof.
  intros Hvalid _ _.
  destruct (valid_nat Hvalid) as (n & HL & Hcoef & Hn & Hh & Hw).
  exists (Np.reciprocal (tau_sums self n h w)),
         (Np.reciprocal (sigma_sums self n h w)).
  split; [apply (@step_size_closed self n h w HL Hcoef Hn Hh Hw)|].
  assert (Hlen : length (Np.reciprocal (sigma_sums self n h w))
                 = h * (w - n) + (h - n) * w + h * w).
  { unfold Np.reciprocal. rewrite length_map.
    apply (@sigma_sums_length self n h w HL Hcoef Hn Hh Hw). }
  destruct (@dual_blocks self n h w HL Hcoef Hn Hh Hw _ Hlen) as [B1 B2].
  rewrite B1, B2. clear B1 B2 Hlen.
  unfold Np.reciprocal, sigma_sums. rewrite map_app.
  assert (L1 : length (map (fun x : Q => 1 / x)
                         (map (fun x : Q => x + Np.sum (Np.abs (coef self)))
                            (repeat 0 (h * (w - n) + (h - n) * w))))%Q
               = h * (w - n) + (h - n) * w).
  { now rewrite !length_map, repeat_length. }
  rewrite (proj1 (split_at_length _ _ L1)), (proj2 (split_at_length _ _ L1)).
  split; [|split].
  - rewrite !Forall_map. apply Forall_forall. intros x Hx.
    apply repeat_spec in Hx. subst x. now rewrite Qplus_0_l.
  - rewrite !Forall_map. apply Forall_forall. intros x Hx.
    apply repeat_spec in Hx. subst x. now rewrite Qplus_0_l.
  - now rewrite !length_map, repeat_length.
Qed.

Lemma sigma_values_witness :
  exists tau sigma,
    _step_size example_stencil (3, 4) = Ok (tau, sigma) /\
    Forall (fun x => x == 1 / Np.sum (Np.abs (coef example_stencil)))%Q
      (Np.slice sigma None (Some (- (Z.of_nat 3 * Z.of_nat 4))%Z)) /\
    Forall (fun x => x == 1 / lambd example_stencil)%Q
      (Np.slice sigma (Some (- (Z.of_nat 3 * Z.of_nat 4))%Z) None) /\
    length (Np.slice sigma (Some (- (Z.of_nat 3 * Z.of_nat 4))%Z) None)
    = 3 * 4.
Proof.
  apply (@sigma_values example_stencil 3 4).
  - repeat split; cbn; lia.
  - reflexivity.
  - reflexivity.
Defined.

(** ** The recorded objective values *)

Lemma transform_objectives (self : TotalVariation) (sqrt : Q -> Q)
    (X r : ndarray2) (o : list Q) :
  transform self sqrt X = Ok (r, o) ->
  (extended_output self = false /\ o = []) \/
  (extended_output self = true /\
   exists sts,
     length sts <= Z.to_nat (max_iter self) /\
     (0 < Z.to_nat (max_iter self) -> 0 < length sts) /\
     Forall2 (fun u v => objective self X u = Ok v) (X :: map res sts) o).
Proof.
  intros H.
  destruct (transform_run _ _ _ H)
    as (tau & sigma & s0 & k & sts & Hinit & Hk & Ht & Hlen & Hle & Hpos
        & Hr & Ho).
  destruct (initialize_post _ _ Hinit) as (_ & Hres & _ & Hrec).
  apply record_objective_inv in Hrec.
  destruct Hrec as [[Hext H0]|[Hext (v & Hv & H0)]].
  - left. split; [exact Hext|].
    rewrite Ho, (trace_no_objective _ _ _ _ _ _ Hext Ht). exact H0.
  - right. split; [exact Hext|]. exists sts. rewrite Hlen.
    split; [exact Hle|]. split; [exact Hpos|].
    destruct (trace_objective _ _ _ _ _ _ Hext Ht) as (os & Hlast & Hall).
    rewrite Ho, Hlast, H0. cbn [app]. constructor; assumption.
Qed.

Lemma objective_nonneg (self : TotalVariation) (X u : ndarray2) (v : Q) :
  (0 <= lambd self)%Q -> objective self X u = Ok v -> (0 <= v)%Q.
Proof.
  intros Hlam H. unfold objective in H. bind_inv H. injection H as <-.
  assert (H1 := sum_nonneg (abs_nonneg a)).
  assert (H2 := sum_nonneg (abs_nonneg (flatten (map2_nd Qminus u X)))).
  assert (H3 := Qmult_le_0_compat _ _ Hlam H2). lra.
Qed.

(** X11: With [lambd > 0] and coefficients that are not all zero, every
    value that [transform] records in [obj] is non-negative. *)
Theorem objective_nonnegative (self : TotalVariation) (sqrt : Q -> Q)
    (X r : ndarray2) (o : list Q) :
  (0 < lambd self)%Q -> (0 < Np.sum (Np.abs (coef self)))%Q ->
  transform self sqrt X = Ok (r, o) ->
  Forall (fun v => 0 <= v)%Q o.
Proof.
  intros Hlam0 _ H. assert (Hlam : (0 <= lambd self)%Q) by lra.
  destruct (@transform_objectives _ _ _ _ _ H) as [[_ ->]|[_ (sts & _ & _ & Hall)]];
    [constructor|].
  revert Hall. generalize (X :: map res sts). intros us Hall.
  clear H.
  induction Hall as [|u v us o Hv _ IH]; [constructor|].
  constructor; [|exact IH].
  eapply objective_nonneg; eassumption.
Qed.

Lemma objective_nonnegative_witness :
  exists r o,
    transform saturating_solver floor_sqrt out_of_range_image = Ok (r, o) /\
    o <> [] /\ Forall (fun v => 0 <= v)%Q o.
Proof.
  destruct (transform saturating_solver floor_sqrt out_of_range_image)
    as [[r o]|e] eqn:E.
  - exists r, o. split; [reflexivity|]. split.
    + vm_compute in E. injection E as _ <-. discriminate.
    + apply (@objective_nonnegative saturating_solver floor_sqrt
               out_of_range_image r o); [reflexivity|reflexivity|exact E].
  - vm_compute in E. discriminate E.
Defined.

Lemma zip_rows_minus_self (a : list (list Q)) :
  Forall (Forall (fun x => x == 0)%Q) (zip_rows Qminus a a).
Proof.
  induction a as [|x a IH]; cbn [zip_rows]; constructor; [|exact IH].
  clear IH. induction x as [|y x IH]; cbn [Np.map2]; constructor;
    [ring|exact IH].
Qed.

Lemma sum_abs_zero (l : list Q) : all_zero l -> (Np.sum (Np.abs l) == 0)%Q.
Proof.
  induction 1 as [|x l Hx _ IH]; [reflexivity|].
  unfold Np.abs in *. cbn [map]. rewrite sum_cons, IH, Hx. reflexivity.
Qed.

(** X12: With [extended_output], the first value of [obj] is the total variation
    of the input, [sum(|_tv(X)|)]: the data term vanishes at [res = X]. *)
Theorem initial_objective (self : TotalVariation) (sqrt : Q -> Q)
    (X r : ndarray2) (o : list Q) :
  extended_output self = true ->
  transform self sqrt X = Ok (r, o) ->
  exists t v rest,
    _tv self X = Ok t /\ o = v :: rest /\ (v == Np.sum (Np.abs t))%Q.
Proof.
  intros Hext H.
  destruct (@transform_objectives _ _ _ _ _ H)
    as [[Hf _]|[_ (sts & _ & _ & Hall)]]; [congruence|].
  inversion Hall as [|u v us rest Hv _ Eu Eo]. subst u us.
  unfold objective in Hv. bind_inv Hv. injection Hv as Hv.
  exists a, v, rest. split; [reflexivity|]. split; [reflexivity|].
  rewrite <- Hv.
  assert (Z0 : (Np.sum (Np.abs (flatten (map2_nd Qminus X X))) == 0)%Q).
  { apply sum_abs_zero. unfold all_zero, flatten, map2_nd. cbn [rows].
    apply Forall_concat, zip_rows_minus_self. }
  rewrite Z0. ring.
Qed.

Lemma initial_objective_witness :
  exists r o t v rest,
    transform saturating_solver floor_sqrt out_of_range_image = Ok (r, o) /\
    _tv saturating_solver out_of_range_image = Ok t /\
    o = v :: rest /\ (v == Np.sum (Np.abs t))%Q.
Proof.
  destruct (transform saturating_solver floor_sqrt out_of_range_image)
    as [[r o]|e] eqn:E.
  - destruct (@initial_objective saturating_solver floor_sqrt
                out_of_range_image r o eq_refl E)
      as (t & v & rest & H1 & H2 & H3).
    exists r, o, t, v, rest. repeat split; assumption.
  - vm_compute in E. discriminate E.
Defined.

(** ** The number of passes *)

(** X13: With [extended_output], [obj] has at least one and at most
    [1 + max_iter] entries, and at least two when [max_iter >= 1]: the loop
    never runs more than [max_iter] passes and never fewer than one. *)
Theorem iteration_budget (self : TotalVariation) (sqrt : Q -> Q)
    (X r : ndarray2) (o : list Q) :
  extended_output self = true ->
  transform self sqrt X = Ok (r, o) ->
  1 <= length o /\
  length o <= 1 + Z.to_nat (max_iter self) /\
  ((1 <= max_iter self)%Z -> 2 <= length o).
Proof.
  intros Hext H.
  destruct (@transform_objectives _ _ _ _ _ H)
    as [[Hf _]|[_ (sts & Hle & Hpos & Hall)]]; [congruence|].
  apply Forall2_length in Hall. cbn [length] in Hall.
  rewrite length_map in Hall. rewrite <- Hall.
  split; [lia|]. split; [lia|]. intros Hm.
  assert (0 < length sts) by (apply Hpos; lia). lia.
Qed.

Lemma iteration_budget_witness :
  exists r o,
    transform saturating_solver floor_sqrt out_of_range_image = Ok (r, o) /\
    1 <= length o /\ length o <= 1 + 2 /\ 2 <= length o.
Proof.
  destruct (transform saturating_solver floor_sqrt out_of_range_image)
    as [[r o]|e] eqn:E.
  - exists r, o. split; [reflexivity|].
    destruct (@iteration_budget saturating_solver floor_sqrt
                out_of_range_image r o eq_refl E) as (H1 & H2 & H3).
    split; [exact H1|]. split; [exact H2|]. apply H3. cbn. lia.
  - vm_compute in E. discriminate E.
Defined.

(** X14: With [max_iter <= 0] the loop body is never entered: whenever
    [transform] returns, it returns the input image itself, and [obj] holds
    at most the objective at the input. *)
Theorem no_iterations (self : TotalVariation) (sqrt : Q -> Q)
    (X r : ndarray2) (o : list Q) :
  (max_iter self <= 0)%Z ->
  transform self sqrt X = Ok (r, o) ->
  r = X /\
  (extended_output self = false -> o = []) /\
  (extended_output self = true ->
   exists v, objective self X X = Ok v /\ o = [v]).
Proof.
  intros Hm H. unfold transform in H. bind_inv H.
  destruct a as [[tau sigma] s0].
  replace (Z.to_nat (max_iter self)) with 0 in H by lia.
  cbn [main_loop bind] in H. injection H as <- <-.
  destruct (initialize_post _ _ E) as (_ & Hres & _ & Hrec).
  split; [exact Hres|].
  apply record_objective_inv in Hrec.
  destruct Hrec as [[Hext H0]|[Hext (v & Hv & H0)]].
  - split; [intros _; exact H0|]. intros Ht. congruence.
  - split; [intros Hf; congruence|]. intros _. exists v. now split.
Qed.

Lemma no_iterations_witness :
  exists o,
    transform idle_solver floor_sqrt example_image = Ok (example_image, o) /\
    length o = 1.
Proof.
  destruct (transform idle_solver floor_sqrt example_image)
    as [[r o]|e] eqn:E.
  - destruct (@no_iterations idle_solver floor_sqrt example_image r o)
      as (H1 & _ & H3); [cbn; lia|exact E|].
    destruct (H3 eq_refl) as (v & _ & ->).
    exists [v]. split; [now rewrite H1|reflexivity].
  - vm_compute in E. discriminate E.
Defined.

(** ** The flag [extended_output] *)

Lemma initialize_quiet (self : TotalVariation) (X : ndarray2)
    (tau sigma : list Q) (s : state) :
  initialize self X = Ok (tau, sigma, s) ->
  initialize (set_extended_output false self) X
  = Ok (tau, sigma, mk_state (res s) (dual s) []).
Proof.
  unfold initialize. intros H.
  change (_step_size (set_extended_output false self))
    with (_step_size self).
  change (_tv (set_extended_output false self)) with (_tv self).
  change (coef (set_extended_output false self)) with (coef self).
  bind_inv H. destruct a as [tau0 sigma0]. cbn [bind].
  do 5 (bind_inv H; cbn [bind]).
  injection H as <- <- <-. reflexivity.
Qed.

Lemma loop_body_quiet (self : TotalVariation) (X : ndarray2)
    (tau sigma : list Q) (s s' : state) (diff : ndarray2) (o : list Q) :
  loop_body self X tau sigma s = Ok (s', diff) ->
  loop_body (set_extended_output false self) X tau sigma
    (mk_state (res s) (dual s) o)
  = Ok (mk_state (res s') (dual s') o, diff).
Proof.
  unfold loop_body. intros H.
  change (primal_update (set_extended_output false self) X tau
            (mk_state (res s) (dual s) o))
    with (primal_update self X tau s).
  change (_tv (set_extended_output false self)) with (_tv self).
  change (lambd (set_extended_output false self)) with (lambd self).
  cbn [res dual obj].
  do 7 (bind_inv H; cbn [bind]).
  injection H as <- <-. reflexivity.
Qed.

Lemma main_loop_quiet (self : TotalVariation) (sqrt : Q -> Q) (X : ndarray2)
    (tau sigma : list Q) (n : nat) (s s' : state) (o : list Q) :
  main_loop self sqrt n X tau sigma s = Ok s' ->
  main_loop (set_extended_output false self) sqrt n X tau sigma
    (mk_state (res s) (dual s) o)
  = Ok (mk_state (res s') (dual s') o).
Proof.
  revert s. induction n as [|n IH]; intros s H; cbn [main_loop] in *.
  - now injection H as <-.
  - bind_inv H. destruct a as [s1 diff].
    rewrite (@loop_body_quiet _ _ _ _ _ _ _ o E). cbn [bind res].
    change (converged (set_extended_output false self) sqrt diff (res s1))
      with (converged self sqrt diff (res s1)).
    destruct (converged self sqrt diff (res s1)).
    + now injection H as <-.
    + apply (IH _ H).
Qed.

(** X15: The flag [extended_output] only records: whenever [transform] returns
    an image, the same solver with [extended_output = False] returns the
    same image, with an empty [obj]. *)
Theorem extended_output_only_records (self : TotalVariation)
    (sqrt : Q -> Q) (X r : ndarray2) (o : list Q) :
  transform self sqrt X = Ok (r, o) ->
  transform (set_extended_output false self) sqrt X = Ok (r, []).
Proof.
  unfold transform. intros H. bind_inv H. destruct a as [[tau sigma] s0].
  bind_inv H. injection H as <- <-.
  rewrite (@initialize_quiet _ _ _ _ _ E). cbn [bind].
  change (max_iter (set_extended_output false self)) with (max_iter self).
  rewrite (@main_loop_quiet _ _ _ _ _ _ _ _ [] E0). reflexivity.
Qed.

Lemma extended_output_only_records_witness :
  exists r o,
    transform saturating_solver floor_sqrt out_of_range_image = Ok (r, o) /\
    o <> [] /\
    transform (set_extended_output false saturating_solver) floor_sqrt
      out_of_range_image = Ok (r, []).
Proof.
  destruct (transform saturating_solver floor_sqrt out_of_range_image)
    as [[r o]|e] eqn:E.
  - exists r, o. split; [reflexivity|]. split.
    + vm_compute in E. injection E as _ <-. discriminate.
    + apply (@extended_output_only_records saturating_solver floor_sqrt
               out_of_range_image r o E).
  - vm_compute in E. discriminate E.
Defined.

(** ** What the loop preserves *)

Lemma trace_invariant (self : TotalVariation) (X : ndarray2)
    (tau sigma : list Q) (I : state -> Prop) :
  (forall s s' diff,
     I s -> loop_body self X tau sigma s = Ok (s', diff) -> I s') ->
  forall k s sts,
    I s -> trace self k X tau sigma s = Ok sts -> Forall I sts.
Proof.
  intros Hstep. induction k as [|k IH]; intros s sts Hs H; cbn [trace] in H.
  - injection H as <-. constructor.
  - bind_inv H. destruct a as [s' diff]. bind_inv H. injection H as <-.
    assert (Hs' : I s') by (eapply Hstep; eassumption).
    constructor; [exact Hs'|]. eapply IH; eassumption.
Qed.

Lemma last_invariant {A} (I : A -> Prop) (l : list A) (d : A) :
  I d -> Forall I l -> I (last l d).
Proof.
  intros Hd Hl. destruct l as [|x l]; [exact Hd|].
  rewrite Forall_forall in Hl. apply Hl, last_in. discriminate.
Qed.

Lemma loop_body_shape (self : TotalVariation) (n h w : nat) (X : ndarray2)
    (tau sigma : list Q) (s s' : state) (diff : ndarray2) :
  self_length self = Z.of_nat n -> length (coef self) = S n ->
  1 <= n -> n < h -> n < w -> has_shape X h w ->
  length tau = h * w ->
  length sigma = h * (w - n) + (h - n) * w + h * w ->
  state_ok n h w s ->
  loop_body self X tau sigma s = Ok (s', diff) -> state_ok n h w s'.
Proof.
  intros HL Hcoef Hn Hh Hw HX Htau Hsigma Hs H.
  destruct (@loop_body_ok self n h w HL Hcoef Hn Hh Hw X HX tau sigma
              Htau Hsigma s Hs) as (s1 & d1 & H1 & Hs1).
  rewrite H1 in H. now injection H as <- _.
Qed.

(** X16: On a stencil of at least two taps and an image larger than [length] in
    both directions, [transform] returns an image of the shape of its
    input: [h] rows of [w] entries each. *)
Theorem transform_keeps_shape (self : TotalVariation) (sqrt : Q -> Q)
    (X : ndarray2) :
  valid self (nrows X) (ncols X) -> wf_ndarray2 X ->
  exists r o,
    transform self sqrt X = Ok (r, o) /\
    nrows r = nrows X /\ ncols r = ncols X /\ wf_ndarray2 r.
Proof.
  intros Hvalid Hwf.
  destruct (valid_nat Hvalid) as (n & HL & Hcoef & Hn & Hh & Hw).
  assert (HX := wf_has_shape Hwf).
  destruct (transform_ok sqrt Hvalid Hwf) as (r & o & H).
  exists r, o. split; [exact H|].
  destruct (@transform_run _ _ _ _ _ H)
    as (tau & sigma & s0 & k & sts & Hinit & _ & Ht & _ & _ & _ & Hr & _).
  destruct (@initialize_ok self n _ _ X HL Hcoef Hn Hh Hw HX)
    as (tau' & sigma' & t & s & _ & Htau & Hsigma & _ & _ & Hinit' & _ & _
        & Hs).
  rewrite Hinit in Hinit'. injection Hinit' as <- <- <-.
  assert (Hall : Forall (state_ok n (nrows X) (ncols X)) sts).
  { eapply trace_invariant; [|exact Hs|exact Ht].
    intros s1 s2 diff H1 H2.
    eapply (@loop_body_shape self n (nrows X) (ncols X) X tau sigma);
      eassumption. }
  assert (Hlast := @last_invariant _ _ sts s0 Hs Hall).
  unfold state_ok in Hlast. rewrite <- Hr in Hlast.
  destruct Hlast as [(R1 & R2 & R3 & R4) _].
  split; [exact R1|]. split; [exact R2|].
  split; [now rewrite R1|now rewrite R2].
Qed.

Lemma transform_keeps_shape_witness :
  exists r o,
    transform example_stencil floor_sqrt example_image = Ok (r, o) /\
    nrows r = 3 /\ ncols r = 4 /\ wf_ndarray2 r.
Proof.
  apply (@transform_keeps_shape example_stencil floor_sqrt example_image).
  - repeat split; cbn; lia.
  - split; [reflexivity|]. repeat constructor.
Defined.

(** ** Constant images *)

Lemma Forall_map2 (P R S : Q -> Prop) (f : Q -> Q -> Q) (a b : list Q) :
  (forall x y, P x -> R y -> S (f x y)) ->
  Forall P a -> Forall R b -> Forall S (Np.map2 f a b).
Proof.
  intros Hf Ha. revert b. induction Ha as [|x a Hx _ IH]; intros b Hb.
  - constructor.
  - destruct Hb as [|y b Hy Hb]; cbn [Np.map2]; constructor.
    + now apply Hf.
    + now apply IH.
Qed.

Lemma Forall_broadcast (P R S : Q -> Prop) (f : Q -> Q -> Q)
    (a b r : list Q) :
  (forall x y, P x -> R y -> S (f x y)) ->
  Forall P a -> Forall R b -> Np.broadcast f a b = Ok r -> Forall S r.
Proof.
  intros Hf Ha Hb. unfold Np.broadcast.
  destruct (length a =? length b).
  { intros [= <-]. eapply Forall_map2; eassumption. }
  destruct a as [|x [|x' a]].
  - destruct b as [|y [|y' b]]; try discriminate.
    intros [= <-]. constructor.
  - intros [= <-]. apply Forall_inv in Ha. apply Forall_forall.
    intros z Hz. apply in_map_iff in Hz. destruct Hz as (y & <- & Hy).
    rewrite Forall_forall in Hb. apply Hf; [exact Ha|now apply Hb].
  - destruct b as [|y [|y' b]]; try discriminate.
    intros H.
    assert (r = map (fun x0 => f x0 y) (x :: x' :: a)) as ->
      by (now injection H).
    apply Forall_inv in Hb. apply Forall_forall.
    intros z Hz. apply in_map_iff in Hz. destruct Hz as (z0 & <- & Hz0).
    rewrite Forall_forall in Ha. apply Hf; [now apply Ha|exact Hb].
Qed.

Lemma Forall_broadcast_to (P : Q -> Prop) (m : nat) (vals vals' : list Q) :
  Forall P vals -> Np.broadcast_to m vals = Ok vals' -> Forall P vals'.
Proof.
  intros Hv. unfold Np.broadcast_to. destruct (length vals =? m).
  - now intros [= <-].
  - destruct vals as [|y [|z vals]]; try discriminate.
    intros [= <-]. apply Forall_forall. intros x Hx.
    apply repeat_spec in Hx. subst x. now apply Forall_inv in Hv.
Qed.

Lemma Forall_iadd (P R : Q -> Prop) (ret vals r : list Q)
    (start stop : option Z) :
  (forall x y, P x -> R y -> P (x + y)%Q) ->
  Forall P ret -> Forall R vals ->
  Np.iadd ret start stop vals = Ok r -> Forall P r.
Proof.
  intros Hf Hret Hvals H. unfold Np.iadd in H. bind_inv H.
  injection H as <-.
  apply Forall_app. split; [now apply Forall_prefix|].
  apply Forall_app. split; [|now apply Forall_suffix].
  eapply Forall_map2; [exact Hf| |].
  - now apply Forall_prefix, Forall_suffix.
  - eapply Forall_broadcast_to; eassumption.
Qed.

Lemma Forall_slice {A} (P : A -> Prop) (l : list A) (start stop : option Z) :
  Forall P l -> Forall P (Np.slice l start stop).
Proof.
  intros H. unfold Np.slice. now apply Forall_prefix, Forall_suffix.
Qed.

Lemma Forall_insert_at (P : Q -> Prop) (idx : list nat) (p : nat)
    (v : list Q) :
  P 0%Q -> Forall P v -> Forall P (Np.insert_at idx p v).
Proof.
  intros H0 Hv. revert p. induction Hv as [|x v Hx _ IH]; intros p;
    cbn [Np.insert_at]; apply Forall_app; split.
  - apply Forall_forall. intros y Hy. apply repeat_spec in Hy. now subst y.
  - constructor.
  - apply Forall_forall. intros y Hy. apply repeat_spec in Hy. now subst y.
  - constructor; [exact Hx|apply IH].
Qed.

Lemma foldM_invariant {A B} (f : A -> B -> result A) (I : A -> Prop)
    (l : list B) (a r : A) :
  (forall a x a', I a -> f a x = Ok a' -> I a') ->
  I a -> foldM f l a = Ok r -> I r.
Proof.
  intros Hf. revert a. induction l as [|x l IH]; intros a Ha H; cbn in H.
  - now injection H as <-.
  - bind_inv H. eapply IH; [|exact H]. eapply Hf; eassumption.
Qed.

Lemma zero_scale (c : Q) (v : list Q) : all_zero v -> all_zero (Np.scale c v).
Proof.
  intros H. unfold Np.scale, all_zero. rewrite Forall_map.
  eapply Forall_impl; [|exact H]. cbv beta. intros x Hx. rewrite Hx. ring.
Qed.

Lemma zero_plus (x y : Q) : (x == 0)%Q -> (y == 0)%Q -> (x + y == 0)%Q.
Proof. intros -> ->. ring. Qed.

(** [_transposed_tv] sends a vector of zeros to a vector of zeros. *)
Lemma transposed_tv_zero (self : TotalVariation) (v : list Q)
    (shape : nat * nat) (r : list Q) :
  all_zero v -> _transposed_tv self v shape = Ok r -> all_zero r.
Proof.
  intros Hv H. unfold _transposed_tv in H. bind_inv H. bind_inv H.
  assert (Ha : all_zero a).
  { unfold Np.zeros, Np.full in E. destruct (_ <? 0)%Z; [discriminate|].
    injection E as <-. apply Forall_forall. intros x Hx.
    apply repeat_spec in Hx. now subst x. }
  assert (Ha0 : all_zero a0).
  { unfold zero_padded in E0.
    eapply (@foldM_invariant _ _ _ all_zero); [| |exact E0].
    - intros v0 i v1 Hv0 Hi. unfold Np.insert0 in Hi.
      destruct (forallb _ _); [|discriminate]. injection Hi as <-.
      apply Forall_insert_at; [reflexivity|exact Hv0].
    - now apply Forall_slice. }
  eapply (@foldM_invariant _ _ _ all_zero); [|exact Ha|exact H].
  intros ret [i c] ret' Hret Hstep. cbv zeta in Hstep. bind_inv Hstep.
  eapply Forall_iadd; [exact zero_plus| | |exact Hstep].
  - eapply Forall_iadd; [exact zero_plus|exact Hret| |exact E1].
    now apply zero_scale.
  - now apply zero_scale, Forall_slice.
Qed.

Lemma Forall_chunks (P : Q -> Prop) (w n : nat) (l : list Q) :
  Forall P l -> Forall (Forall P) (chunks w n l).
Proof.
  revert l. induction n as [|n IH]; intros l Hl; cbn [chunks]; constructor.
  - now apply Forall_prefix.
  - now apply IH, Forall_suffix.
Qed.

Lemma Forall_zip_rows (P R S : Q -> Prop) (f : Q -> Q -> Q)
    (a b : list (list Q)) :
  (forall x y, P x -> R y -> S (f x y)) ->
  Forall (Forall P) a -> Forall (Forall R) b ->
  Forall (Forall S) (zip_rows f a b).
Proof.
  intros Hf Ha. revert b. induction Ha as [|x a Hx _ IH]; intros b Hb.
  - constructor.
  - destruct Hb as [|y b Hy Hb]; cbn [zip_rows]; constructor.
    + eapply Forall_map2; eassumption.
    + now apply IH.
Qed.

Lemma Forall_map_rows (P S : Q -> Prop) (f : Q -> Q) (a : list (list Q)) :
  (forall x, P x -> S (f x)) ->
  Forall (Forall P) a -> Forall (Forall S) (map (map f) a).
Proof.
  intros Hf Ha. rewrite Forall_map. eapply Forall_impl; [|exact Ha].
  intros row Hrow. rewrite Forall_map. eapply Forall_impl; [|exact Hrow].
  exact Hf.
Qed.

Lemma clip_unit_fixed (x c : Q) :
  (0 <= c)%Q -> (c <= 1)%Q -> (x == c)%Q -> (Qmin (Qmax x 0) 1 == c)%Q.
Proof.
  intros H0 H1 ->. rewrite Q.max_l by exact H0. now rewrite Q.min_l.
Qed.

Lemma clip_box_zero (x : Q) : (x == 0)%Q -> (Qmin (Qmax x (-1)) 1 == 0)%Q.
Proof.
  intros ->. rewrite Q.max_l by discriminate. now rewrite Q.min_l.
Qed.

Section FixedPoint.

Variable self : TotalVariation.
Variables n h w : nat.

Hypothesis HL : self_length self = Z.of_nat n.
Hypothesis Hcoef : length (coef self) = S n.
Hypothesis Hn : 1 <= n.
Hypothesis Hh : n < h.
Hypothesis Hw : n < w.

Variable X : ndarray2.
Variable c : Q.
Hypothesis HX : has_shape X h w.
Hypothesis Hc : all_eq c X.
Hypothesis Hsum : (Np.sum (coef self) == 0)%Q.
Hypothesis Hsat : saturation self = true -> (0 <= c)%Q /\ (c <= 1)%Q.

Lemma tv_vanishes (u : ndarray2) (t : list Q) :
  has_shape u h w -> all_eq c u -> _tv self u = Ok t -> all_zero t.
Proof using All.
  intros Hu Hall Ht.
  assert (H := @tv_constant self n h w c u t HL Hcoef Hn Hh Hw Hu Hall Ht).
  eapply Forall_impl; [|exact H]. cbv beta. intros x Hx.
  rewrite Hx, Hsum. ring.
Qed.

Lemma primal_update_constant (tau : list Q) (s : state) (u : ndarray2) :
  all_eq c (res s) -> all_zero (dual s) ->
  primal_update self X tau s = Ok u -> all_eq c u.
Proof using All.
  intros Hres Hdual H. unfold primal_update in H.
  bind_inv H. bind_inv H. bind_inv H. bind_inv H. injection H as <-.
  assert (Ha : all_zero a).
  { eapply transposed_tv_zero; [|exact E]. now apply Forall_slice. }
  assert (Ha0 : all_zero a0).
  { eapply (Forall_broadcast (P := fun x => x == 0)%Q
              (R := fun x => x == 0)%Q); [exact zero_plus|exact Ha| |exact E0].
    now apply zero_scale, Forall_slice. }
  assert (Ha1 : all_zero a1).
  { eapply (Forall_broadcast (P := fun _ => True)
              (R := fun x => x == 0)%Q); [| |exact Ha0|exact E1].
    - cbv beta. intros x y _ Hy. rewrite Hy. ring.
    - apply Forall_forall. intros x _. exact I. }
  assert (Ha2 : Forall (Forall (fun x => x == 0)%Q) (rows a2)).
  { unfold reshape in E2. destruct (length a1 =? _); [|discriminate].
    injection E2 as <-. cbn [rows]. now apply Forall_chunks. }
  assert (Hu : all_eq c (map2_nd Qminus (res s) a2)).
  { unfold all_eq, map2_nd. cbn [rows].
    eapply Forall_zip_rows; [|exact Hres|exact Ha2].
    cbv beta. intros x y Hx Hy. rewrite Hx, Hy. ring. }
  destruct (saturation self) eqn:Esat; [|exact Hu].
  destruct (Hsat eq_refl) as [H0 H1].
  unfold all_eq, map_nd. cbn [rows].
  eapply Forall_map_rows; [|exact Hu].
  cbv beta. intros x Hx. now apply clip_unit_fixed.
Qed.

Variables tau sigma : list Q.
Hypothesis Htau : length tau = h * w.
Hypothesis Hsigma : length sigma = h * (w - n) + (h - n) * w + h * w.

Lemma loop_body_constant (s s' : state) (diff : ndarray2) :
  state_ok n h w s /\ all_eq c (res s) /\ all_zero (dual s) ->
  loop_body self X tau sigma s = Ok (s', diff) ->
  state_ok n h w s' /\ all_eq c (res s') /\ all_zero (dual s').
Proof using All.
  intros (Hs & Hres & Hdual) H.
  assert (Hs' := @loop_body_shape self n h w X tau sigma s s' diff
                   HL Hcoef Hn Hh Hw HX Htau Hsigma Hs H).
  split; [exact Hs'|].
  assert (Hp := H). apply loop_body_post in Hp. destruct Hp as (Hu & _ & _).
  assert (Hcu := @primal_update_constant tau s (res s') Hres Hdual Hu).
  split; [exact Hcu|].
  unfold loop_body in H. rewrite Hu in H. cbn [bind] in H.
  bind_inv H. bind_inv H. bind_inv H. bind_inv H. bind_inv H. bind_inv H.
  injection H as <- _. cbn [dual].
  set (bar_u := map2_nd Qminus (map_nd (Qmult 2) (res s')) (res s)) in *.
  assert (Hbar : all_eq c bar_u).
  { unfold all_eq, bar_u, map2_nd, map_nd. cbn [rows].
    eapply (Forall_zip_rows (P := fun x => x == 2 * c)%Q);
      [| |exact Hres].
    - cbv beta. intros x y Hx Hy. rewrite Hx, Hy. ring.
    - eapply Forall_map_rows; [|exact Hcu].
      cbv beta. intros x Hx. now rewrite Hx. }
  assert (Hshape : has_shape bar_u h w).
  { destruct Hs as [Hs _]. destruct Hs' as [Hs' _].
    apply has_shape_map2; [now apply has_shape_map|exact Hs]. }
  assert (Ha : all_zero a) by (eapply tv_vanishes; eassumption).
  assert (Ha0 : all_zero a0).
  { eapply (Forall_broadcast (P := fun _ => True)
              (R := fun x => x == 0)%Q); [| |exact Ha|exact E0].
    - cbv beta. intros x y _ Hy. rewrite Hy. ring.
    - apply Forall_forall. intros x _. exact I. }
  assert (Ha1 : all_zero a1).
  { eapply Forall_iadd; [exact zero_plus|exact Hdual|exact Ha0|exact E1]. }
  assert (Ha2 : all_zero a2).
  { eapply (Forall_broadcast (P := fun _ => True)
              (R := fun x => x == 0)%Q); [| | |exact E2].
    - cbv beta. intros x y _ Hy. rewrite Hy. ring.
    - apply Forall_forall. intros x _. exact I.
    - unfold flatten, map2_nd. cbn [rows]. apply Forall_concat.
      eapply Forall_zip_rows; [|exact Hbar|exact Hc].
      cbv beta. intros x y Hx Hy. rewrite Hx, Hy. ring. }
  assert (Ha3 : all_zero a3).
  { eapply Forall_iadd; [exact zero_plus|exact Ha1|exact Ha2|exact E3]. }
  unfold all_zero, Np.clip. rewrite Forall_map.
  eapply Forall_impl; [|exact Ha3]. intros x Hx. now apply clip_box_zero.
Qed.

Lemma objective_constant (u : ndarray2) (v : Q) :
  has_shape u h w -> all_eq c u -> objective self X u = Ok v -> (v == 0)%Q.
Proof using All.
  intros Hu Hall H. unfold objective in H. bind_inv H. injection H as <-.
  assert (Ha : all_zero a) by (eapply tv_vanishes; eassumption).
  rewrite (sum_abs_zero Ha).
  assert (Hd : all_zero (flatten (map2_nd Qminus u X))).
  { unfold all_zero, flatten, map2_nd. cbn [rows]. apply Forall_concat.
    eapply Forall_zip_rows; [|exact Hall|exact Hc].
    cbv beta. intros x y Hx Hy. rewrite Hx, Hy. ring. }
  rewrite (sum_abs_zero Hd). ring.
Qed.

End FixedPoint.

(** X17: A constant image is a fixed point of the solver when the coefficients
    sum to zero without being all zero (and, with [saturation], the constant
    lies in [[0, 1]]): whatever [lambd > 0], [tol] and [max_iter],
    [transform] returns an image of the same shape whose pixels all equal
    the constant, and every recorded objective value is zero. *)
Theorem constant_image_fixed_point (self : TotalVariation) (sqrt : Q -> Q)
    (c : Q) (X : ndarray2) :
  valid self (nrows X) (ncols X) -> wf_ndarray2 X -> all_eq c X ->
  (0 < lambd self)%Q -> (0 < Np.sum (Np.abs (coef self)))%Q ->
  (Np.sum (coef self) == 0)%Q ->
  (saturation self = true -> (0 <= c)%Q /\ (c <= 1)%Q) ->
  exists r o,
    transform self sqrt X = Ok (r, o) /\
    nrows r = nrows X /\ ncols r = ncols X /\ wf_ndarray2 r /\
    all_eq c r /\ all_zero o.
Proof.
  intros Hvalid Hwf Hc _ _ Hsum Hsat.
  destruct (valid_nat Hvalid) as (n & HL & Hcoef & Hn & Hh & Hw).
  assert (HX := wf_has_shape Hwf).
  set (h := nrows X) in *. set (w := ncols X) in *.
  destruct (transform_ok sqrt Hvalid Hwf) as (r & o & H).
  exists r, o. split; [exact H|].
  destruct (@transform_run _ _ _ _ _ H)
    as (tau & sigma & s0 & k & sts & Hinit & _ & Ht & _ & _ & _ & Hr & Ho).
  destruct (@initialize_ok self n h w X HL Hcoef Hn Hh Hw HX)
    as (tau' & sigma' & t & s & _ & Htau & Hsigma & Htv & _ & Hinit' & Hres
        & Hdual & Hs).
  unfold h, w in Hinit'. rewrite Hinit in Hinit'.
  injection Hinit' as <- <- <-.
  set (Inv := fun s : state =>
                state_ok n h w s /\ all_eq c (res s) /\ all_zero (dual s)).
  assert (H0 : Inv s0).
  { split; [exact Hs|]. split; [now rewrite Hres|].
    rewrite Hdual. apply Forall_app. split.
    - unfold Np.clip. rewrite Forall_map.
      assert (Hz : all_zero
                     (Np.map2 Qmult
                        (firstn (h * (w - n) + (h - n) * w) sigma) t)).
      { eapply (Forall_map2 (P := fun _ => True)
                  (R := fun x => x == 0)%Q).
        - cbv beta. intros x y _ Hy. rewrite Hy. ring.
        - apply Forall_forall. intros x _. exact I.
        - apply (@tv_vanishes self n h w HL Hcoef Hn Hh Hw X c HX Hc Hsum
                   Hsat X t HX Hc Htv). }
      eapply Forall_impl; [|exact Hz]. intros x Hx. now apply clip_box_zero.
    - apply Forall_forall. intros x Hx. apply repeat_spec in Hx. now subst x. }
  assert (Hall : Forall Inv sts).
  { eapply trace_invariant; [|exact H0|exact Ht].
    intros s1 s2 diff H1 H2.
    apply (@loop_body_constant self n h w HL Hcoef Hn Hh Hw X c HX Hc Hsum
             Hsat tau sigma Htau Hsigma s1 s2 diff H1 H2). }
  assert (Hlast := @last_invariant _ _ sts s0 H0 Hall).
  unfold Inv, state_ok in Hlast. rewrite <- Hr in Hlast.
  destruct Hlast as (((R1 & R2 & R3 & R4) & _) & Hcr & _).
  split; [exact R1|]. split; [exact R2|].
  split; [split; [now rewrite R1|now rewrite R2]|].
  split; [exact Hcr|].
  (* the recorded values *)
  assert (Hobj : forall u v, has_shape u h w -> all_eq c u ->
                   objective self X u = Ok v -> (v == 0)%Q).
  { intros u v Hu Hcu Hv.
    apply (@objective_constant self n h w HL Hcoef Hn Hh Hw X c HX Hc Hsum
             Hsat tau sigma Htau Hsigma u v Hu Hcu Hv). }
  assert (Hinit2 := Hinit). apply initialize_post in Hinit2.
  destruct Hinit2 as (_ & _ & _ & Hrec).
  apply record_objective_inv in Hrec.
  destruct Hrec as [[Hext E0]|[Hext (v & Hv & E0)]].
  - rewrite Ho, (trace_no_objective _ _ _ _ _ _ Hext Ht), E0. constructor.
  - destruct (trace_objective _ _ _ _ _ _ Hext Ht) as (os & Hlast & Hos).
    rewrite Ho, Hlast, E0. cbn [app]. constructor.
    + apply (Hobj X v HX Hc Hv).
    + clear - Hos Hall Hobj. revert os Hos.
      induction Hall as [|s1 sts H1 _ IH]; intros os Hos; cbn [map] in Hos;
        inversion Hos as [|u v0 us os' Hv0 Hrest]; subst; constructor.
      * destruct H1 as ((Hshape & _) & Hcu & _).
        apply (Hobj _ _ Hshape Hcu Hv0).
      * apply IH, Hrest.
Qed.

Lemma constant_image_fixed_point_witness :
  exists r o,
    transform example_stencil floor_sqrt constant_image = Ok (r, o) /\
    nrows r = 3 /\ ncols r = 4 /\ wf_ndarray2 r /\
    all_eq 7 r /\ all_zero o.
Proof.
  apply (@constant_image_fixed_point example_stencil floor_sqrt 7%Q
           constant_image).
  - repeat split; cbn; lia.
  - split; [reflexivity|]. repeat constructor.
  - repeat constructor.
  - reflexivity.
  - reflexivity.
  - reflexivity.
  - discriminate.
Defined.

(** ** The stopping test *)

Lemma floor_sqrt_nonneg (x : Q) : (0 <= floor_sqrt x)%Q.
Proof.
  unfold floor_sqrt, Qle. cbn.
  assert (H := Z.sqrt_nonneg (Qnum x / Z.pos (Qden x))). lia.
Qed.

Lemma loop_body_diff (self : TotalVariation) (X : ndarray2)
    (tau sigma : list Q) (s s' : state) (diff : ndarray2) :
  loop_body self X tau sigma s = Ok (s', diff) ->
  diff = map2_nd Qminus (res s') (res s).
Proof.
  unfold loop_body. intros H.
  do 7 bind_inv H. injection H as <- <-. reflexivity.
Qed.

Lemma executed_criteria (self : TotalVariation) (sqrt : Q -> Q)
    (X : ndarray2) (tau sigma : list Q) (n : nat) :
  forall (s : state) (k : nat) (sts : list state),
    executed self sqrt n X tau sigma s = Ok k ->
    trace self k X tau sigma s = Ok sts ->
    (n = 0 /\ k = 0 /\ sts = []) \/
    (1 <= k /\ k <= n /\
     exists b, criteria self sqrt s sts = repeat false (k - 1) ++ [b] /\
               (k < n -> b = true)).
Proof.
  induction n as [|n IH]; intros s k sts Hk Ht; cbn [executed] in Hk.
  - injection Hk as <-. cbn [trace] in Ht. injection Ht as <-. now left.
  - right. bind_inv Hk. destruct a as [s1 diff].
    assert (Ed := @loop_body_diff _ _ _ _ _ _ _ E).
    destruct (converged self sqrt diff (res s1)) eqn:Ec.
    + injection Hk as <-. cbn [trace] in Ht. rewrite E in Ht.
      cbn [bind] in Ht. injection Ht as <-.
      split; [lia|]. split; [lia|]. exists true.
      cbn [criteria]. rewrite <- Ed, Ec. split; reflexivity.
    + bind_inv Hk. injection Hk as <-. cbn [trace] in Ht. rewrite E in Ht.
      cbn [bind] in Ht. bind_inv Ht. injection Ht as <-.
      cbn [criteria]. rewrite <- Ed, Ec.
      split; [lia|].
      destruct (IH _ _ _ E0 E1) as [(-> & -> & ->)|(H1 & H2 & b & Hb & Hlt)].
      * split; [lia|]. exists false. split; [reflexivity|]. lia.
      * split; [lia|]. exists b. rewrite Hb. split.
        -- replace (S a - 1) with (S (a - 1)) by lia. reflexivity.
        -- intros Hlt'. apply Hlt. lia.
Qed.

(** X18: The loop leaves at the first pass whose stopping test holds: with
    [max_iter >= 1] (and [eps > 0], so that the test divides by a positive
    number), of the [k] passes that [transform] runs the test fails at each
    of the first [k - 1], and it holds at the last one whenever
    [k < max_iter]. *)
Theorem stops_at_first_convergence (self : TotalVariation) (sqrt : Q -> Q)
    (X r : ndarray2) (o : list Q) :
  (1 <= max_iter self)%Z ->
  (0 < eps self)%Q -> (forall x, 0 <= sqrt x)%Q ->
  transform self sqrt X = Ok (r, o) ->
  exists tau sigma s0 k sts b,
    initialize self X = Ok (tau, sigma, s0) /\
    executed self sqrt (Z.to_nat (max_iter self)) X tau sigma s0 = Ok k /\
    trace self k X tau sigma s0 = Ok sts /\
    r = res (last sts s0) /\
    1 <= k /\ k <= Z.to_nat (max_iter self) /\
    criteria self sqrt s0 sts = repeat false (k - 1) ++ [b] /\
    (k < Z.to_nat (max_iter self) -> b = true).
Proof.
  intros Hm _ _ H.
  destruct (@transform_run _ _ _ _ _ H)
    as (tau & sigma & s0 & k & sts & Hinit & Hk & Ht & _ & _ & _ & Hr & _).
  destruct (@executed_criteria _ _ _ _ _ _ _ _ _ Hk Ht)
    as [(H0 & _)|(H1 & H2 & b & Hb & Hlt)]; [lia|].
  exists tau, sigma, s0, k, sts, b. repeat (split; [assumption|]).
  exact Hlt.
Qed.

Lemma stops_at_first_convergence_witness :
  exists tau sigma s0 k sts b,
    initialize saturating_solver out_of_range_image = Ok (tau, sigma, s0) /\
    executed saturating_solver floor_sqrt
      (Z.to_nat (max_iter saturating_solver)) out_of_range_image tau sigma s0
    = Ok k /\
    trace saturating_solver k out_of_range_image tau sigma s0 = Ok sts /\
    1 <= k /\ k <= 2 /\
    criteria saturating_solver floor_sqrt s0 sts
    = repeat false (k - 1) ++ [b].
Proof.
  destruct (transform saturating_solver floor_sqrt out_of_range_image)
    as [[r o]|e] eqn:E.
  - destruct (@stops_at_first_convergence saturating_solver floor_sqrt
                out_of_range_image r o)
      as (tau & sigma & s0 & k & sts & b & H1 & H2 & H3 & _ & H5 & H6 & H7
          & _); [cbn; lia|reflexivity|exact floor_sqrt_nonneg|exact E|].
    exists tau, sigma, s0, k, sts, b. repeat (split; [assumption|]).
    exact H7.
  - vm_compute in E. discriminate E.
Defined.

Lemma converged_never (self : TotalVariation) (sqrt : Q -> Q)
    (diff u : ndarray2) :
  (tol self <= 0)%Q -> (0 <= eps self)%Q -> (forall x, 0 <= sqrt x)%Q ->
  converged self sqrt diff u = false.
Proof.
  intros Htol Heps Hsqrt. unfold converged, norm.
  destruct (Qeq_bool _ 0); [reflexivity|].
  set (a := sqrt _). set (b := sqrt _).
  assert (Ha : (0 <= a)%Q) by apply Hsqrt.
  assert (Hb : (0 <= b)%Q) by apply Hsqrt.
  assert (Hr : (0 <= a / (b + eps self))%Q).
  { unfold Qdiv. apply Qmult_le_0_compat; [exact Ha|].
    apply Qinv_le_0_compat. lra. }
  assert (Hle : (tol self <= a / (b + eps self))%Q) by lra.
  apply Qle_bool_iff in Hle. now rewrite Hle.
Qed.

(** With a zero denominator the stopping test is false, as the comparison
    of [inf] or [nan] with [tol] is in numpy: on the zero image without
    [eps] the loop runs all its passes. *)
Lemma converged_zero_denominator (self : TotalVariation) (sqrt : Q -> Q)
    (diff u : ndarray2) :
  (norm sqrt u + eps self == 0)%Q -> converged self sqrt diff u = false.
Proof.
  intros H. unfold converged. apply Qeq_bool_iff in H. now rewrite H.
Qed.

Lemma zero_image_without_eps :
  exists r o,
    transform
      (mk_TotalVariation 1 3 [1; -1] (1 # 1000) 0 false true 1)%Q
      floor_sqrt (mk_ndarray2 2 2 [[0; 0]; [0; 0]]%Q)
    = Ok (r, o) /\
    length o = 4.
Proof.
  eexists. eexists. split; [vm_compute; reflexivity|reflexivity].
Qed.

Lemma executed_all (self : TotalVariation) (sqrt : Q -> Q) (X : ndarray2)
    (tau sigma : list Q) (n : nat) :
  (forall diff u, converged self sqrt diff u = false) ->
  forall (s : state) (k : nat),
    executed self sqrt n X tau sigma s = Ok k -> k = n.
Proof.
  intros Hc. induction n as [|n IH]; intros s k Hk; cbn [executed] in Hk.
  - now injection Hk as <-.
  - bind_inv Hk. destruct a as [s1 diff]. rewrite Hc in Hk.
    bind_inv Hk. injection Hk as <-. f_equal. eapply IH, E0.
Qed.

(** X19: With [tol <= 0] (and [eps >= 0]) the stopping test never holds:
    whenever [transform] returns it has run all [max_iter] passes, and with
    [extended_output] it has recorded [1 + max_iter] objective values. *)
Theorem nonpositive_tol_runs_all_passes (self : TotalVariation)
    (sqrt : Q -> Q) (X r : ndarray2) (o : list Q) :
  (tol self <= 0)%Q -> (0 <= eps self)%Q -> (forall x, 0 <= sqrt x)%Q ->
  transform self sqrt X = Ok (r, o) ->
  exists tau sigma s0,
    initialize self X = Ok (tau, sigma, s0) /\
    executed self sqrt (Z.to_nat (max_iter self)) X tau sigma s0
    = Ok (Z.to_nat (max_iter self)) /\
    (extended_output self = true ->
     length o = 1 + Z.to_nat (max_iter self)).
Proof.
  intros Htol Heps Hsqrt H.
  destruct (@transform_run _ _ _ _ _ H)
    as (tau & sigma & s0 & k & sts & Hinit & Hk & Ht & Hlen & _ & _ & _ & Ho).
  assert (Ek : k = Z.to_nat (max_iter self)).
  { eapply executed_all; [|exact Hk].
    intros diff u. now apply converged_never. }
  exists tau, sigma, s0. split; [exact Hinit|]. split; [congruence|].
  intros Hext.
  destruct (initialize_post _ _ Hinit) as (_ & _ & _ & Hrec).
  apply record_objective_inv in Hrec.
  destruct Hrec as [[Hf _]|[_ (v & _ & E0)]]; [congruence|].
  destruct (trace_objective _ _ _ _ _ _ Hext Ht) as (os & Hlast & Hos).
  apply Forall2_length in Hos. rewrite length_map in Hos.
  rewrite Ho, Hlast, E0, length_app, <- Hos, Hlen, Ek. reflexivity.
Qed.

Lemma nonpositive_tol_runs_all_passes_witness :
  exists r o tau sigma s0,
    transform patient_solver floor_sqrt out_of_range_image = Ok (r, o) /\
    initialize patient_solver out_of_range_image = Ok (tau, sigma, s0) /\
    executed patient_solver floor_sqrt 3 out_of_range_image tau sigma s0
    = Ok 3 /\
    length o = 4.
Proof.
  destruct (transform patient_solver floor_sqrt out_of_range_image)
    as [[r o]|e] eqn:E.
  - destruct (@nonpositive_tol_runs_all_passes patient_solver floor_sqrt
                out_of_range_image r o)
      as (tau & sigma & s0 & H1 & H2 & H3).
    + discriminate.
    + discriminate.
    + exact floor_sqrt_nonneg.
    + exact E.
    + exists r, o, tau, sigma, s0. split; [reflexivity|].
      split; [exact H1|]. split; [exact H2|]. apply H3. reflexivity.
  - vm_compute in E. discriminate E.
Defined.

(** ** The image without pixels *)

Lemma bound_zero (i : Z) : Np.bound 0 i = 0.
Proof.
  unfold Np.bound. destruct (i <? 0)%Z eqn:E; [|reflexivity].
  apply Z.ltb_lt in E. lia.
Qed.

Lemma start_stop_zero (start stop : option Z) :
  Np.start_of 0 start = 0 /\ Np.stop_of 0 stop = 0.
Proof.
  split; [destruct start|destruct stop]; cbn; try reflexivity;
    apply bound_zero.
Qed.

Lemma slice_nil {A} (start stop : option Z) :
  Np.slice (@nil A) start stop = [].
Proof.
  unfold Np.slice. cbn [length].
  destruct (start_stop_zero start stop) as [-> ->]. reflexivity.
Qed.

Lemma iadd_nil (start stop : option Z) : Np.iadd [] start stop [] = Ok [].
Proof.
  unfold Np.iadd. cbn [length].
  destruct (start_stop_zero start stop) as [-> ->]. reflexivity.
Qed.

Lemma iadd_scalar_nil (start stop : option Z) (c : Q) :
  Np.iadd_scalar [] start stop c = [].
Proof.
  unfold Np.iadd_scalar. cbn [length].
  destruct (start_stop_zero start stop) as [-> ->]. reflexivity.
Qed.

Lemma assign_nil (start stop : option Z) : Np.assign [] start stop [] = Ok [].
Proof.
  unfold Np.assign. cbn [length].
  destruct (start_stop_zero start stop) as [-> ->]. reflexivity.
Qed.

Lemma foldM_fixed {A B} (f : A -> B -> result A) (l : list B) (a : A) :
  (forall x, In x l -> f a x = Ok a) -> foldM f l a = Ok a.
Proof.
  induction l as [|x l IH]; intros H; cbn [foldM]; [reflexivity|].
  rewrite H by (now left). cbn [bind]. apply IH.
  intros y Hy. apply H. now right.
Qed.

Lemma fold_left_fixed {A B} (f : A -> B -> A) (l : list B) (a : A) :
  (forall x, f a x = a) -> fold_left f l a = a.
Proof.
  intros H. induction l as [|x l IH]; cbn [fold_left]; [reflexivity|].
  now rewrite H.
Qed.

Lemma tv_empty (self : TotalVariation) : _tv self empty_image = Ok [].
Proof.
  unfold _tv, hshift, vshift. cbn [empty_image nrows ncols rows Z.of_nat map
                                   concat].
  replace (2 * 0 * 0 - self_length self * (0 + 0))%Z with 0%Z by lia.
  cbn [Np.zeros Np.full Z.ltb Z.compare Z.to_nat repeat bind].
  apply foldM_fixed. intros [i c] _.
  change (Np.scale c []) with (@nil Q).
  rewrite iadd_nil. cbn [bind].
  change (Np.roll (@nil (list Q)) i) with (@nil (list Q)).
  rewrite slice_nil. cbn [concat].
  change (Np.scale c []) with (@nil Q).
  apply iadd_nil.
Qed.

Lemma transposed_tv_empty (self : TotalVariation) :
  _transposed_tv self [] (0, 0) = Ok [].
Proof.
  unfold _transposed_tv, zero_padded.
  cbn [fst snd Z.of_nat Z.mul Np.zeros Np.full Z.ltb Z.compare Z.to_nat
       repeat bind].
  rewrite !slice_nil.
  rewrite foldM_fixed; [|intros i _; reflexivity].
  cbn [bind length Z.of_nat]. apply foldM_fixed. intros [i c] _.
  cbv zeta. change (Np.scale c []) with (@nil Q).
  rewrite iadd_nil. cbn [bind]. apply iadd_nil.
Qed.

Lemma step_size_empty (self : TotalVariation) :
  self_length self = (Z.of_nat (length (coef self)) - 1)%Z ->
  _step_size self (0, 0) = Ok ([], []).
Proof.
  intros HL. unfold _step_size.
  cbn [fst snd Z.of_nat Z.mul Np.zeros Np.full Z.ltb Z.compare Z.to_nat
       repeat bind].
  rewrite foldM_fixed.
  2: { intros i Hi. cbv zeta.
       destruct (coef self) as [|c0 cs] eqn:Ec.
       - apply iadd_nil.
       - exfalso. apply in_seq in Hi. cbn [length] in HL. lia. }
  cbn [bind Np.tile repeat concat]. rewrite iadd_nil. cbn [bind].
  rewrite fold_left_fixed by (intros [i c]; apply iadd_scalar_nil).
  replace (0 - self_length self * (0 + 0))%Z with 0%Z by lia.
  cbn [Np.zeros Np.full Z.ltb Z.compare Z.to_nat repeat bind].
  now rewrite !iadd_scalar_nil.
Qed.

Lemma record_objective_empty (self : TotalVariation) (o : list Q) :
  exists o', record_objective self empty_image empty_image o = Ok o'.
Proof.
  unfold record_objective, objective.
  destruct (extended_output self); [|now exists o].
  rewrite tv_empty. cbn [bind]. eexists. reflexivity.
Qed.

Lemma initialize_empty (self : TotalVariation) :
  self_length self = (Z.of_nat (length (coef self)) - 1)%Z ->
  exists o, initialize self empty_image
            = Ok ([], [], mk_state empty_image [] o).
Proof.
  intros HL. unfold initialize.
  cbn [empty_image nrows ncols Z.of_nat].
  fold empty_image. rewrite (step_size_empty _ HL). cbn [bind].
  replace (3 * 0 * 0 - (Z.of_nat (length (coef self)) - 1) * (0 + 0))%Z
    with 0%Z by lia.
  cbn [Np.zeros Np.full Z.ltb Z.compare Z.to_nat repeat bind].
  rewrite tv_empty. cbn [bind]. rewrite slice_nil.
  cbn [Np.broadcast length Nat.eqb Np.map2 bind Np.clip map].
  rewrite assign_nil. cbn [bind].
  destruct (record_objective_empty self []) as (o & Ho).
  rewrite Ho. cbn [bind]. now exists o.
Qed.

Lemma primal_update_empty (self : TotalVariation) (o : list Q) :
  primal_update self empty_image [] (mk_state empty_image [] o)
  = Ok empty_image.
Proof.
  unfold primal_update.
  cbn [empty_image nrows ncols Z.of_nat res dual].
  rewrite !slice_nil. rewrite transposed_tv_empty.
  cbn [bind Np.scale map Np.broadcast length Nat.eqb Np.map2 reshape
       Nat.mul chunks map2_nd map_nd rows zip_rows nrows ncols].
  destruct (saturation self); reflexivity.
Qed.

Lemma loop_body_empty (self : TotalVariation) (o : list Q) :
  exists o',
    loop_body self empty_image [] [] (mk_state empty_image [] o)
    = Ok (mk_state empty_image [] o', empty_image).
Proof.
  unfold loop_body. rewrite primal_update_empty. cbn [bind res dual obj].
  change (map2_nd Qminus (map_nd (Qmult 2) empty_image) empty_image)
    with empty_image.
  rewrite tv_empty. cbn [bind]. rewrite !slice_nil.
  cbn [Np.broadcast length Nat.eqb Np.map2 bind map].
  rewrite iadd_nil. cbn [bind].
  change (flatten (map2_nd Qminus empty_image empty_image)) with (@nil Q).
  cbn [Np.broadcast length Nat.eqb Np.map2 bind].
  rewrite iadd_nil. cbn [bind Np.clip map].
  destruct (record_objective_empty self o) as (o' & Ho).
  rewrite Ho. cbn [bind]. now exists o'.
Qed.

Lemma main_loop_empty (self : TotalVariation) (sqrt : Q -> Q) (n : nat) :
  forall o, exists o',
    main_loop self sqrt n empty_image [] [] (mk_state empty_image [] o)
    = Ok (mk_state empty_image [] o').
Proof.
  induction n as [|n IH]; intros o; cbn [main_loop].
  - now exists o.
  - destruct (loop_body_empty self o) as (o1 & H1). rewrite H1.
    cbn [bind res]. destruct (converged _ _ _ _).
    + now exists o1.
    + apply IH.
Qed.

(** X20: The image without pixels is not rejected: every solver that
    [__init__] builds, whatever its parameters, returns the empty image
    for it. *)
Theorem empty_image_accepted (lam : Q) (iters : Z) (cs : list Q)
    (tl ep : Q) (sat ext : bool) (self : TotalVariation) (sqrt : Q -> Q) :
  __init__ lam iters cs tl ep sat ext = Ok self ->
  exists o, transform self sqrt empty_image = Ok (empty_image, o).
Proof.
  intros Hinit. injection Hinit as <-.
  set (self := mk_TotalVariation _ _ _ _ _ _ _ _).
  assert (HL : self_length self = (Z.of_nat (length (coef self)) - 1)%Z)
    by reflexivity.
  destruct (initialize_empty _ HL) as (o & Ho).
  unfold transform. rewrite Ho. cbn [bind].
  destruct (main_loop_empty self sqrt (Z.to_nat (max_iter self)) o)
    as (o' & Ho').
  rewrite Ho'. cbn [bind res obj]. now exists o'.
Qed.

Lemma empty_image_accepted_witness :
  exists o,
    transform (mk_TotalVariation 1 1000 [1; -1] (1 # 1000)
                 (1 # 10000000000000000) false false 1)%Q
      floor_sqrt empty_image
    = Ok (empty_image, o).
Proof.
  apply (@empty_image_accepted 1%Q 1000%Z [1; -1]%Q (1 # 1000)%Q
           (1 # 10000000000000000)%Q false false).
  reflexivity.
Defined.

(** ** How far a pass moves a pixel *)

Lemma inner_indicator (a x : list Q) (p : nat) :
  length a = length x ->
  (forall k, k < length a -> (nth k a 0 == if k =? p then 1 else 0)%Q) ->
  (inner a x == nth p x 0)%Q.
Proof.
  revert x p. induction a as [|a0 a IH]; intros [|x0 x] p Hlen H;
    try discriminate.
  - destruct p; reflexivity.
  - cbn [inner]. cbn [length] in *. destruct p as [|p].
    + assert (H0 := H 0 ltac:(lia)). cbn [nth Nat.eqb] in H0.
      rewrite (IH x (length a)).
      * rewrite nth_overflow by lia. cbn [nth]. rewrite H0. ring.
      * lia.
      * intros k Hk. assert (Hk' := H (S k) ltac:(lia)).
        cbn [nth Nat.eqb] in Hk'. rewrite Hk'.
        destruct (Nat.eqb_spec k (length a)); [lia|reflexivity].
    + assert (H0 := H 0 ltac:(lia)). cbn [nth Nat.eqb] in H0.
      rewrite (IH x p).
      * cbn [nth]. rewrite H0. ring.
      * lia.
      * intros k Hk. apply (H (S k)). lia.
Qed.

Lemma inner_unit_image (h w r c : nat) (x : list Q) :
  length x = h * w -> r < h -> c < w ->
  (inner (flatten (unit_image h w r c)) x == nth (r * w + c) x 0)%Q.
Proof.
  intros Hx Hr Hc.
  assert (He := unit_image_shape h w r c).
  apply inner_indicator.
  - now rewrite (has_shape_flatten He).
  - intros k Hk. rewrite (has_shape_flatten He) in Hk.
    destruct (@block_index w h k) as (Hi & Hj & E); [lia|exact Hk|].
    destruct He as (_ & _ & _ & H4).
    unfold flatten. rewrite E at 1.
    rewrite (nth_concat_uniform _ _ H4 Hj).
    fold (px (unit_image h w r c) (k / w) (k mod w)).
    rewrite px_unit_image by assumption.
    destruct (Nat.eqb_spec (k / w) r) as [E1|E1];
      destruct (Nat.eqb_spec (k mod w) c) as [E2|E2];
      destruct (Nat.eqb_spec k (r * w + c)) as [E3|E3];
      cbn [andb]; try reflexivity; exfalso.
    + apply E3. rewrite E, E1, E2. reflexivity.
    + apply E2. rewrite E3. rewrite Nat.add_comm, Nat.Div0.mod_add.
      now apply Nat.mod_small.
    + apply E1. rewrite E3. rewrite Nat.add_comm, Nat.div_add by lia.
      rewrite Nat.div_small by exact Hc. reflexivity.
    + apply E1. rewrite E3. rewrite Nat.add_comm, Nat.div_add by lia.
      rewrite Nat.div_small by exact Hc. reflexivity.
Qed.

Lemma abs_inner_le (a b : list Q) :
  in_box b -> (Qabs (inner a b) <= Np.sum (Np.abs a))%Q.
Proof.
  intros Hb. revert a. induction Hb as [|y b Hy _ IH]; intros [|x a];
    cbn [inner]; try (apply (sum_nonneg (abs_nonneg _))).
  unfold Np.abs. cbn [map]. fold (Np.abs a). rewrite sum_cons.
  eapply Qle_trans; [apply Qabs_triangle|].
  assert (H1 : (Qabs (x * y) <= Qabs x)%Q).
  { rewrite Qabs_Qmult.
    assert (Hy' : (Qabs y <= 1)%Q) by (apply Qabs_Qle_condition; exact Hy).
    assert (Hx := Qabs_nonneg x).
    setoid_replace (Qabs x) with (Qabs x * 1)%Q at 2 by ring.
    rewrite (Qmult_comm (Qabs x) (Qabs y)), (Qmult_comm (Qabs x) 1).
    apply Qmult_le_compat_r; assumption. }
  specialize (IH a). lra.
Qed.

Lemma px_chunks (h w r c : nat) (l : list Q) :
  length l = h * w -> c < w ->
  px (mk_ndarray2 h w (chunks w h l)) r c = nth (r * w + c) l 0%Q.
Proof.
  intros Hl Hc. unfold px. cbn [rows].
  rewrite <- (@nth_concat_uniform _ w _ r c 0%Q (@chunks_uniform w h l Hl) Hc).
  now rewrite concat_chunks.
Qed.

Lemma trace_changes (self : TotalVariation) (X : ndarray2)
    (tau sigma : list Q) (I : state -> Prop) (P : ndarray2 -> Prop) :
  (forall s s' diff,
     I s -> loop_body self X tau sigma s = Ok (s', diff) ->
     I s' /\ P (map2_nd Qminus (res s') (res s))) ->
  forall k s sts,
    I s -> trace self k X tau sigma s = Ok sts -> Forall P (changes s sts).
Proof.
  intros Hstep. induction k as [|k IH]; intros s sts Hs H; cbn [trace] in H.
  - injection H as <-. constructor.
  - bind_inv H. destruct a as [s' diff]. bind_inv H. injection H as <-.
    destruct (Hstep _ _ _ Hs E) as [Hs' HP].
    cbn [changes]. constructor; [exact HP|]. eapply IH; eassumption.
Qed.

Section StepBound.

Variable self : TotalVariation.
Variables n h w : nat.

Hypothesis HL : self_length self = Z.of_nat n.
Hypothesis Hcoef : length (coef self) = S n.
Hypothesis Hn : 1 <= n.
Hypothesis Hh : n < h.
Hypothesis Hw : n < w.

Lemma transposed_entry_bound (y tt : list Q) (r c : nat) :
  length y = h * (w - n) + (h - n) * w -> in_box y ->
  _transposed_tv self y (h, w) = Ok tt -> r < h -> c < w ->
  (Qabs (nth (r * w + c) tt 0)
   <= row_weight self n w c + column_weight self n h r)%Q.
Proof using All.
  intros Hy Hbox Htt Hr Hc.
  assert (He := unit_image_shape h w r c).
  destruct He as (U1 & U2 & U3 & U4).
  assert (Ht := @tv_closed self n h w HL Hcoef Hn Hh Hw _ U1 U2 U3 U4).
  assert (Ha := @adjoint_closed self n h w HL Hcoef Hn Hh Hw _ U1 U2 U3 U4
                  y Hy).
  rewrite (@ttv_closed self n h w HL Hcoef Hn Hh Hw y Hy) in Htt.
  injection Htt as Htt. rewrite Htt in Ha.
  destruct (@ttv_ok self n h w HL Hcoef Hn Hh Hw y Hy) as (tt' & Htt' & Hlen).
  rewrite (@ttv_closed self n h w HL Hcoef Hn Hh Hw y Hy) in Htt'.
  injection Htt' as Htt'. rewrite Htt in Htt'. subst tt'.
  rewrite <- (inner_unit_image _ Hlen Hr Hc), <- Ha.
  eapply Qle_trans; [apply abs_inner_le, Hbox|].
  rewrite (@tv_column_sum self n h w HL Hcoef Hn Hh Hw r c Hr Hc _ Ht).
  apply Qle_refl.
Qed.

Hypothesis Hlam : (0 < lambd self)%Q.
Hypothesis Hsat : saturation self = false.

Variable X : ndarray2.
Hypothesis HX : has_shape X h w.

Lemma primal_step_bound (s : state) (u : ndarray2) (r c : nat) :
  state_ok n h w s -> in_box (dual s) ->
  primal_update self X (Np.reciprocal (tau_sums self n h w)) s = Ok u ->
  r < h -> c < w ->
  (Qabs (px u r c - px (res s) r c) <= 1)%Q.
Proof using All.
  intros [Hres Hdual] Hbox Hu Hr Hc.
  unfold primal_update in Hu.
  destruct HX as (X1 & X2 & _ & _). rewrite X1, X2 in Hu.
  destruct (@dual_blocks self n h w HL Hcoef Hn Hh Hw (dual s) Hdual)
    as [D1 D2].
  rewrite D1, D2 in Hu.
  set (N := h * (w - n) + (h - n) * w) in *.
  assert (Hf : length (firstn N (dual s)) = N)
    by (rewrite length_firstn; lia).
  assert (Hs : length (skipn N (dual s)) = h * w)
    by (rewrite length_skipn; lia).
  destruct (@ttv_ok self n h w HL Hcoef Hn Hh Hw _ Hf) as (tt & Htt & Hlen).
  rewrite Htt in Hu. cbn [bind] in Hu.
  assert (Htau : length (Np.reciprocal (tau_sums self n h w)) = h * w).
  { unfold Np.reciprocal. rewrite length_map.
    apply (@tau_sums_length self n h w HL Hcoef Hn Hh Hw). }
  rewrite broadcast_same in Hu by (now rewrite scale_length, Hlen, Hs).
  cbn [bind] in Hu.
  rewrite broadcast_same in Hu
    by (now rewrite map2_length, scale_length, Hlen, Hs, Htau, Nat.min_id).
  cbn [bind] in Hu.
  set (g := Np.map2 Qplus tt (Np.scale (lambd self) (skipn N (dual s)))) in *.
  set (tg := Np.map2 Qmult (Np.reciprocal (tau_sums self n h w)) g) in *.
  assert (Hg : length g = h * w).
  { unfold g. rewrite map2_length, scale_length, Hlen, Hs. lia. }
  assert (Htg : length tg = h * w).
  { unfold tg. rewrite map2_length, Htau, Hg. lia. }
  unfold reshape in Hu. rewrite Htg, Nat.eqb_refl in Hu. cbn [bind] in Hu.
  rewrite Hsat in Hu. injection Hu as <-.
  assert (Hshape : has_shape (mk_ndarray2 h w (chunks w h tg)) h w).
  { repeat split; cbn; [apply chunks_length|now apply chunks_uniform]. }
  rewrite (@px_map2_nd Qminus _ _ h w r c Hres Hshape Hr Hc).
  rewrite (@px_chunks h w r c tg Htg Hc).
  set (p := r * w + c) in *.
  assert (Hp : p < h * w) by (unfold p; nia).
  unfold tg. rewrite nth_map2 by lia.
  unfold g. rewrite nth_map2 by (rewrite ?scale_length; lia).
  unfold Np.reciprocal, Np.scale.
  rewrite (nth_map_in _ _ 0%Q)
    by (now rewrite (@tau_sums_length self n h w HL Hcoef Hn Hh Hw)).
  rewrite (nth_map_in _ _ 0%Q) by lia.
  assert (ET := @tau_sums_entry self n h w HL Hcoef Hn Hh Hw r c Hr Hc).
  fold p in ET.
  destruct (weights_nonneg self n h w r c) as [W1 W2].
  assert (Hb1 : in_box (firstn N (dual s))) by now apply Forall_prefix.
  assert (B1 := @transposed_entry_bound _ tt r c Hf Hb1 Htt Hr Hc).
  fold p in B1.
  assert (B2 : (Qabs (nth p (skipn N (dual s)) 0) <= 1)%Q).
  { apply Qabs_Qle_condition.
    assert (Hb2 : in_box (skipn N (dual s))) by now apply Forall_suffix.
    unfold in_box in Hb2. rewrite Forall_forall in Hb2.
    apply Hb2, nth_In. lia. }
  set (T := nth p (tau_sums self n h w) 0%Q) in *.
  set (a := nth p tt 0%Q) in *.
  set (b := nth p (skipn N (dual s)) 0%Q) in *.
  set (x := px (res s) r c).
  assert (HT : (0 < T)%Q) by lra.
  setoid_replace (x - 1 / T * (a + lambd self * b) - x)%Q
    with (- ((a + lambd self * b) / T))%Q by (field; lra).
  rewrite Qabs_opp.
  apply Qabs_Qle_condition.
  apply Qabs_Qle_condition in B1, B2.
  assert (Hlb : (- lambd self <= lambd self * b /\ lambd self * b
                 <= lambd self)%Q) by (split; nra).
  split.
  - apply Qle_shift_div_l; [exact HT|]. lra.
  - apply Qle_shift_div_r; [exact HT|]. lra.
Qed.

End StepBound.

Lemma rows_in_box (d : ndarray2) (h w : nat) :
  has_shape d h w ->
  (forall r c, r < h -> c < w -> (Qabs (px d r c) <= 1)%Q) ->
  Forall in_box (rows d).
Proof.
  intros (_ & _ & H3 & H4) H. apply Forall_forall. intros row Hrow.
  apply In_nth with (d := []) in Hrow. destruct Hrow as (r & Hr & <-).
  rewrite Forall_forall in H4.
  assert (Hlen : length (nth r (rows d) []) = w)
    by (apply H4, nth_In, Hr).
  apply Forall_forall. intros x Hx.
  apply In_nth with (d := 0%Q) in Hx. destruct Hx as (c & Hc & <-).
  assert (B : (Qabs (px d r c) <= 1)%Q) by (apply (H r c); lia).
  apply Qabs_Qle_condition in B. exact B.
Qed.

(** X21: Without [saturation], with [lambd > 0] and coefficients that are not
    all zero, no pass of the loop moves a pixel by more than 1: every entry
    of every [diff = u - res] lies in [[-1, 1]], whatever the image. *)
Theorem pass_moves_pixels_by_at_most_one (self : TotalVariation)
    (sqrt : Q -> Q) (X : ndarray2) :
  valid self (nrows X) (ncols X) -> wf_ndarray2 X ->
  (0 < lambd self)%Q -> (0 < Np.sum (Np.abs (coef self)))%Q ->
  saturation self = false ->
  exists r o tau sigma s0 k sts,
    transform self sqrt X = Ok (r, o) /\
    initialize self X = Ok (tau, sigma, s0) /\
    executed self sqrt (Z.to_nat (max_iter self)) X tau sigma s0 = Ok k /\
    trace self k X tau sigma s0 = Ok sts /\
    r = res (last sts s0) /\
    Forall (fun d => Forall in_box (rows d)) (changes s0 sts).
Proof.
  intros Hvalid Hwf Hlam _ Hsat.
  destruct (valid_nat Hvalid) as (n & HL & Hcoef & Hn & Hh & Hw).
  assert (HX := wf_has_shape Hwf).
  set (h := nrows X) in *. set (w := ncols X) in *.
  destruct (transform_ok sqrt Hvalid Hwf) as (r & o & H).
  destruct (@transform_run _ _ _ _ _ H)
    as (tau & sigma & s0 & k & sts & Hinit & Hk & Ht & _ & _ & _ & Hr & _).
  exists r, o, tau, sigma, s0, k, sts.
  repeat (split; [assumption|]).
  destruct (@initialize_ok self n h w X HL Hcoef Hn Hh Hw HX)
    as (tau' & sigma' & t & s & Hstep & Htau & Hsigma & _ & _ & Hinit' & _
        & _ & Hs).
  unfold h, w in Hinit'. rewrite Hinit in Hinit'.
  injection Hinit' as <- <- <-.
  rewrite (@step_size_closed self n h w HL Hcoef Hn Hh Hw) in Hstep.
  injection Hstep as Etau _.
  assert (Hbox0 : in_box (dual s0)).
  { assert (Hi := Hinit). apply initialize_post in Hi. tauto. }
  eapply (@trace_changes self X tau sigma
            (fun s => state_ok n h w s /\ in_box (dual s)));
    [|split; [exact Hs|exact Hbox0]|exact Ht].
  intros s1 s2 diff [Hs1 Hb1] Hbody.
  assert (Hs2 := @loop_body_shape self n h w X tau sigma s1 s2 diff
                   HL Hcoef Hn Hh Hw HX Htau Hsigma Hs1 Hbody).
  assert (Hp := Hbody). apply loop_body_post in Hp.
  destruct Hp as (Hu & Hb2 & _).
  split; [split; assumption|].
  destruct Hs1 as [R1 D1]. destruct Hs2 as [R2 _].
  apply (@rows_in_box _ h w); [now apply has_shape_map2|].
  intros r0 c0 Hr0 Hc0.
  rewrite (@px_map2_nd Qminus _ _ h w r0 c0 R2 R1 Hr0 Hc0).
  rewrite <- Etau in Hu.
  apply (@primal_step_bound self n h w HL Hcoef Hn Hh Hw Hlam Hsat X HX
           s1 (res s2) r0 c0 (conj R1 D1) Hb1 Hu Hr0 Hc0).
Qed.

Lemma pass_moves_pixels_by_at_most_one_witness :
  exists r o tau sigma s0 k sts,
    transform example_stencil floor_sqrt example_image = Ok (r, o) /\
    initialize example_stencil example_image = Ok (tau, sigma, s0) /\
    executed example_stencil floor_sqrt
      (Z.to_nat (max_iter example_stencil)) example_image tau sigma s0
    = Ok k /\
    trace example_stencil k example_image tau sigma s0 = Ok sts /\
    r = res (last sts s0) /\
    Forall (fun d => Forall in_box (rows d)) (changes s0 sts).
Proof.
  apply (@pass_moves_pixels_by_at_most_one example_stencil floor_sqrt
           example_image).
  - repeat split; cbn; lia.
  - split; [reflexivity|]. repeat constructor.
  - reflexivity.
  - reflexivity.
  - reflexivity.
Defined.

(** ** The shapes on which [_step_size] returns *)

Lemma tile_loop_any (self : TotalVariation) (n w : nat) (l : list nat)
    (t : list Q) :
  self_length self = Z.of_nat n -> length (coef self) = S n ->
  (forall i, In i l -> i + S n <= w) -> length t = w ->
  exists t',
    foldM (fun tile i =>
             let i := Z.of_nat i in
             Np.iadd tile (Some i) (Some (i + self_length self + 1)%Z)
               (Np.abs (coef self)))
          l t
    = Ok t' /\ length t' = w.
Proof.
  intros HL Hcoef. revert t.
  induction l as [|i l IH]; intros t Hl Ht; [now exists t|].
  assert (Hi : i + S n <= w) by (apply Hl; now left).
  assert (Ha : length (Np.abs (coef self)) = S n)
    by (now rewrite abs_length).
  cbn [foldM]. cbv zeta.
  rewrite (@iadd_inside t _ i).
  2: { cbn [Np.start_of]. rewrite bound_of_nat. lia. }
  2: { cbn [Np.stop_of]. rewrite HL.
       replace (Z.of_nat i + Z.of_nat n + 1)%Z with (Z.of_nat (i + S n))
         by lia.
       rewrite bound_of_nat, Ha. lia. }
  cbn [bind]. apply IH.
  - intros j Hj. apply Hl. now right.
  - rewrite add_at_length; [exact Ht|]. rewrite Ha. lia.
Qed.

(** X22: For a solver whose [length] is [len(coef) - 1 >= 0], [_step_size]
    fails on no slice: on a shape [(h, w)] it returns exactly when the size
    [3*h*w - length*(h+w)] of [sigma] is not negative, and raises
    [ValueError] otherwise. *)
Theorem step_size_returns_iff (self : TotalVariation) (n h w : nat) :
  self_length self = Z.of_nat n -> length (coef self) = S n ->
  ((exists tau sigma, _step_size self (h, w) = Ok (tau, sigma))
   <-> n * (h + w) <= 3 * (h * w)) /\
  (3 * (h * w) < n * (h + w) -> _step_size self (h, w) = Raise ValueError).
Proof.
  intros HL Hcoef.
  assert (Hcases :
    (n * (h + w) <= 3 * (h * w) ->
     exists tau sigma, _step_size self (h, w) = Ok (tau, sigma)) /\
    (3 * (h * w) < n * (h + w) ->
     _step_size self (h, w) = Raise ValueError)).
  { unfold _step_size, Np.zeros, Np.full. cbn [fst snd].
    destruct (Z.ltb_spec (Z.of_nat h * Z.of_nat w) 0) as [Hneg|_]; [nia|].
    cbn [bind].
    destruct (Z.ltb_spec (Z.of_nat w) 0) as [Hneg|_]; [lia|].
    cbn [bind].
    destruct (@tile_loop_any self n w
                (seq 0 (Z.to_nat (Z.of_nat w - self_length self)))
                (repeat 0%Q (Z.to_nat (Z.of_nat w))) HL Hcoef)
      as (t' & Ht' & Hlen).
    { intros i Hi. apply in_seq in Hi. lia. }
    { rewrite repeat_length. lia. }
    cbv zeta in Ht'. rewrite Ht'. cbn [bind].
    rewrite (@iadd_inside _ _ 0).
    2: reflexivity.
    2: { cbn [Np.stop_of]. rewrite repeat_length, tile_length, Hlen. nia. }
    cbn [bind]. rewrite HL.
    destruct (Z.ltb_spec
                (3 * (Z.of_nat h * Z.of_nat w)
                 - Z.of_nat n * (Z.of_nat h + Z.of_nat w)) 0) as [Hneg|Hpos];
      cbn [bind]; split; intros Hsize.
    - nia.
    - reflexivity.
    - eexists. eexists. reflexivity.
    - nia. }
  destruct Hcases as [Hok Hbad]. split; [|exact Hbad]. split.
  - intros (tau & sigma & H).
    destruct (Nat.le_gt_cases (n * (h + w)) (3 * (h * w))) as [Hle|Hgt];
      [exact Hle|].
    rewrite (Hbad Hgt) in H. discriminate.
  - exact Hok.
Qed.

Lemma step_size_returns_iff_witness :
  ((exists tau sigma, _step_size example_stencil (1, 1) = Ok (tau, sigma))
   <-> 2 * (1 + 1) <= 3 * (1 * 1)) /\
  _step_size example_stencil (1, 1) = Raise ValueError.
Proof.
  destruct (@step_size_returns_iff example_stencil 2 1 1) as [H1 H2].
  - reflexivity.
  - reflexivity.
  - split; [exact H1|]. apply H2. lia.
Defined.

(** ** The images that [transform] accepts *)

Lemma count_occ_filter (idx : list nat) (p : nat) :
  count_occ Nat.eq_dec idx p
  = length (filter (fun q => (p <=? q) && (q <=? p + 0)) idx).
Proof.
  induction idx as [|q idx IH]; [reflexivity|].
  cbn [count_occ filter]. destruct (Nat.eq_dec q p) as [E|E];
    destruct (Nat.leb_spec p q); destruct (Nat.leb_spec q (p + 0));
    cbn [andb length]; lia.
Qed.

Lemma count_occ_split (idx : list nat) (p m : nat) :
  count_occ Nat.eq_dec idx p
  + length (filter (fun q => (S p <=? q) && (q <=? S p + m)) idx)
  = length (filter (fun q => (p <=? q) && (q <=? p + S m)) idx).
Proof.
  induction idx as [|q idx IH]; [reflexivity|].
  cbn [count_occ filter]. destruct (Nat.eq_dec q p) as [E|E];
    destruct (Nat.leb_spec (S p) q); destruct (Nat.leb_spec q (S p + m));
    destruct (Nat.leb_spec p q); destruct (Nat.leb_spec q (p + S m));
    cbn [andb length]; lia.
Qed.

Lemma insert_at_length (idx : list nat) (p : nat) (v : list Q) :
  length (Np.insert_at idx p v)
  = length v
    + length (filter (fun q => (p <=? q) && (q <=? p + length v)) idx).
Proof.
  revert p. induction v as [|x v IH]; intros p; cbn [Np.insert_at].
  - rewrite app_nil_r, repeat_length. cbn [length]. apply count_occ_filter.
  - rewrite length_app, repeat_length. cbn [length]. rewrite IH.
    rewrite <- (count_occ_split idx p (length v)). lia.
Qed.

Lemma filter_all {A} (f : A -> bool) (l : list A) :
  (forall x, In x l -> f x = true) -> filter f l = l.
Proof.
  induction l as [|x l IH]; intros H; [reflexivity|].
  cbn [filter]. rewrite H by (now left). f_equal. apply IH.
  intros y Hy. apply H. now right.
Qed.

Section Boundary.

Variable self : TotalVariation.
Variables n h w : nat.

Hypothesis HL : self_length self = Z.of_nat n.
Hypothesis Hcoef : length (coef self) = S n.
Hypothesis Hn : 1 <= n.
Hypothesis Hh : n <= h.
Hypothesis Hw : n <= w.

Local Abbreviation N := (h * (w - n) + (h - n) * w).

Lemma sizes_b :
  0 < h * w /\ n <= h * w /\
  h * (w - n) + n * (h - 1) = h * w - n /\
  (3 * Z.of_nat h * Z.of_nat w - Z.of_nat n * (Z.of_nat h + Z.of_nat w))%Z
  = Z.of_nat (N + h * w).
Proof using All.
  assert (E1 : h * (w - n) + n * h = h * w) by nia.
  assert (E2 : (h - n) * w + n * w = h * w) by nia.
  repeat split; nia.
Qed.

Lemma tv_ok_b (u : ndarray2) :
  has_shape u h w -> exists t, _tv self u = Ok t /\ length t = N.
Proof using All.
  intros Hu. eexists. split.
  - apply (@tv_returns_any self n h w u); assumption.
  - rewrite length_app, !accumulate_length, !repeat_length;
      [reflexivity| |]; intros i c _; rewrite repeat_length.
    + apply (@vshift_length_any self n h w u HL Hn Hu).
    + apply (@hshift_length_any self n h w u HL Hn Hu).
Qed.

Lemma insert_round_b (v0 : list Q) (g : nat) :
  length v0 = h * (w - n) + g * (h - 1) ->
  exists v1,
    Np.insert0 v0 (insert_indices self h (Z.of_nat w) g) = Ok v1 /\
    length v1 = h * (w - n) + S g * (h - 1).
Proof using All.
  intros Hv0. unfold Np.insert0.
  assert (Eidx : insert_indices self h (Z.of_nat w) g
                 = map (fun j => Z.of_nat (j * (w - n + g))) (seq 1 (h - 1))).
  { unfold insert_indices. apply map_ext. intros j. rewrite HL.
    replace (Z.of_nat w - Z.of_nat n + Z.of_nat g)%Z
      with (Z.of_nat (w - n + g)) by lia.
    now rewrite <- Nat2Z.inj_mul. }
  rewrite Eidx.
  assert (Hchk : forall j, In j (seq 1 (h - 1)) ->
                 j * (w - n + g) <= length v0).
  { intros j Hj. apply in_seq in Hj. rewrite Hv0. nia. }
  rewrite (proj2 (forallb_forall _ _)).
  2: { intros i Hi. apply in_map_iff in Hi. destruct Hi as [j [<- Hj]].
       apply Hchk in Hj. clear Hchk.
       generalize dependent (j * (w - n + g)). intros y Hy.
       apply andb_true_intro. split; apply Z.leb_le; lia. }
  eexists. split; [reflexivity|].
  rewrite insert_at_length, map_map, filter_all.
  - rewrite length_map, length_seq, Hv0. lia.
  - intros q Hq. apply in_map_iff in Hq. destruct Hq as [j [<- Hj]].
    apply Hchk in Hj. clear Hchk.
    generalize dependent (j * (w - n + g)). intros y Hy.
    destruct (Z.ltb_spec (Z.of_nat y) 0); [lia|].
    rewrite Nat2Z.id. apply andb_true_intro. split; apply Nat.leb_le; lia.
Qed.

Lemma zero_padded_loop_b (k g : nat) (v0 : list Q) :
  length v0 = h * (w - n) + g * (h - 1) ->
  exists v1,
    foldM (fun v0 i => Np.insert0 v0 (insert_indices self h (Z.of_nat w) i))
          (seq g k) v0
    = Ok v1 /\
    length v1 = h * (w - n) + (g + k) * (h - 1).
Proof using All.
  revert g v0. induction k as [|k IH]; intros g v0 Hv0.
  - exists v0. split; [reflexivity|]. now rewrite Nat.add_0_r.
  - cbn [seq foldM]. destruct (@insert_round_b v0 g Hv0) as (v1 & H1 & L1).
    rewrite H1. cbn [bind]. destruct (IH (S g) v1 L1) as (v2 & H2 & L2).
    exists v2. split; [exact H2|]. rewrite L2. f_equal. lia.
Qed.

Lemma ttv_loop_b (v v0 : list Q) (l : list (nat * Q)) (ret : list Q) :
  (forall i c, In (i, c) l -> i <= n) ->
  length v = N -> length ret = h * w -> length v0 = h * w - n ->
  exists r,
    foldM (fun ret '(i, c) =>
             let i := Z.of_nat i in
             ret <- Np.iadd ret (Some i) (Some (i + Z.of_nat (length v0))%Z)
                      (Np.scale c v0) ;;
             Np.iadd ret (Some (Z.of_nat w * i)%Z)
               (Some (Z.of_nat w * i
                      + Z.of_nat w * (Z.of_nat h - self_length self))%Z)
               (Np.scale c
                  (Np.slice v (Some (Z.of_nat h
                                     * (Z.of_nat w - self_length self))%Z)
                     None)))
          l ret
    = Ok r /\ length r = h * w.
Proof using All.
  intros Hl Hv. rewrite HL.
  replace (Z.of_nat h * (Z.of_nat w - Z.of_nat n))%Z
    with (Z.of_nat (h * (w - n))) by nia.
  rewrite slice_suffix.
  destruct sizes_b as (Hp & Hhw & _ & _).
  assert (Hvv : length (skipn (h * (w - n)) v) = (h - n) * w).
  { rewrite length_skipn, Hv.
    generalize (h * (w - n)) ((h - n) * w). intros a b. lia. }
  revert ret. induction l as [|[i c] l IH]; intros ret Hret Hv0.
  - exists ret. now split.
  - assert (Hi : i <= n) by (apply (Hl i c); now left).
    cbn [foldM]. cbv zeta.
    rewrite (@iadd_inside ret _ i).
    2: { cbn [Np.start_of]. rewrite bound_of_nat. lia. }
    2: { cbn [Np.stop_of].
         rewrite <- Nat2Z.inj_add, bound_of_nat, scale_length. lia. }
    cbn [bind].
    assert (E1 : length (add_at ret i (Np.scale c v0)) = h * w).
    { rewrite add_at_length; [exact Hret|]. rewrite scale_length. lia. }
    assert (Hwi : w * i + (h - n) * w <= h * w) by nia.
    rewrite (@iadd_inside _ _ (w * i)).
    2: { cbn [Np.start_of]. rewrite <- Nat2Z.inj_mul, bound_of_nat, E1.
         generalize dependent (w * i). intros; lia. }
    2: { cbn [Np.stop_of].
         replace (Z.of_nat w * Z.of_nat i
                  + Z.of_nat w * (Z.of_nat h - Z.of_nat n))%Z
           with (Z.of_nat (w * i + (h - n) * w)) by nia.
         rewrite bound_of_nat, E1, scale_length, Hvv.
         generalize dependent (w * i). generalize dependent ((h - n) * w).
         intros; lia. }
    cbn [bind]. apply IH.
    + intros j d Hj. apply (Hl j d). now right.
    + rewrite add_at_length; [exact E1|]. rewrite scale_length, E1, Hvv.
      exact Hwi.
    + exact Hv0.
Qed.

Lemma ttv_ok_b (v : list Q) :
  length v = N ->
  exists r, _transposed_tv self v (h, w) = Ok r /\ length r = h * w.
Proof using All.
  intros Hv. destruct sizes_b as (Hp & Hhw & Epad & _).
  unfold _transposed_tv, Np.zeros, Np.full. cbn [fst snd].
  destruct (Z.ltb_spec (Z.of_nat h * Z.of_nat w) 0) as [Hneg|_]; [nia|].
  cbn [bind].
  assert (Hpad : exists v0, zero_padded self v (h, w) = Ok v0 /\
                            length v0 = h * w - n).
  { unfold zero_padded. cbn [fst snd]. rewrite HL, Nat2Z.id.
    replace (Z.of_nat h * (Z.of_nat w - Z.of_nat n))%Z
      with (Z.of_nat (h * (w - n))) by nia.
    rewrite slice_prefix.
    destruct (@zero_padded_loop_b n 0 (firstn (h * (w - n)) v))
      as (v0 & H0 & L0).
    { rewrite length_firstn, Hv. cbn [Nat.mul Nat.add].
      rewrite Nat.add_0_r. apply Nat.min_l, Nat.le_add_r. }
    exists v0. split; [exact H0|]. rewrite L0. cbn [Nat.add]. exact Epad. }
  destruct Hpad as (v0 & H0 & L0). rewrite H0. cbn [bind].
  rewrite <- Nat2Z.inj_mul, Nat2Z.id.
  apply ttv_loop_b.
  - intros i c Hin. apply in_enumerate in Hin. lia.
  - exact Hv.
  - apply repeat_length.
  - exact L0.
Qed.

Lemma dual_blocks_b (d : list Q) :
  length d = N + h * w ->
  Np.slice d None (Some (- (Z.of_nat h * Z.of_nat w))%Z) = firstn N d /\
  Np.slice d (Some (- (Z.of_nat h * Z.of_nat w))%Z) None = skipn N d.
Proof using All.
  intros Hd. destruct sizes_b as (Hp & _).
  rewrite <- Nat2Z.inj_mul. split.
  - rewrite slice_drop_last by exact Hp. f_equal.
    rewrite Hd. apply Nat.add_sub.
  - rewrite slice_take_last by exact Hp. f_equal.
    rewrite Hd. apply Nat.add_sub.
Qed.

Lemma step_size_ok_b :
  exists tau sigma,
    _step_size self (h, w) = Ok (tau, sigma) /\
    length tau = h * w /\ length sigma = N + h * w.
Proof using All.
  destruct sizes_b as (Hp & _ & _ & Esize).
  unfold _step_size, Np.zeros, Np.full. cbn [fst snd].
  destruct (Z.ltb_spec (Z.of_nat h * Z.of_nat w) 0) as [Hneg|_]; [nia|].
  cbn [bind].
  destruct (Z.ltb_spec (Z.of_nat w) 0) as [Hneg|_]; [lia|].
  cbn [bind].
  destruct (@tile_loop_any self n w
              (seq 0 (Z.to_nat (Z.of_nat w - self_length self)))
              (repeat 0%Q (Z.to_nat (Z.of_nat w))) HL Hcoef)
    as (t' & Ht' & Hlen).
  { intros i Hi. apply in_seq in Hi. lia. }
  { rewrite repeat_length. lia. }
  cbv zeta in Ht'. rewrite Ht'. cbn [bind].
  rewrite (@iadd_inside _ _ 0).
  2: reflexivity.
  2: { cbn [Np.stop_of]. rewrite repeat_length, tile_length, Hlen. nia. }
  cbn [bind]. rewrite HL.
  replace (3 * (Z.of_nat h * Z.of_nat w)
           - Z.of_nat n * (Z.of_nat h + Z.of_nat w))%Z
    with (Z.of_nat (N + h * w)) by (rewrite <- Esize; ring).
  destruct (Z.ltb_spec (Z.of_nat (N + h * w)) 0) as [Hneg|_];
    [exfalso; revert Hneg; apply Z.le_ngt, Nat2Z.is_nonneg|].
  cbn [bind]. eexists. eexists. split; [reflexivity|].
  unfold Np.reciprocal. rewrite !length_map. split.
  - rewrite fold_left_length.
    + rewrite add_at_length; rewrite repeat_length; [nia|].
      rewrite tile_length, Hlen. nia.
    + intros t [i c]. apply iadd_scalar_length.
  - rewrite !iadd_scalar_length, repeat_length. apply Nat2Z.id.
Qed.

Variable X : ndarray2.
Hypothesis HX : has_shape X h w.

Lemma record_objective_ok_b (u : ndarray2) (o : list Q) :
  has_shape u h w -> exists o', record_objective self X u o = Ok o'.
Proof using All.
  intros Hu. unfold record_objective, objective.
  destruct (extended_output self); [|eexists; reflexivity].
  destruct (tv_ok_b Hu) as (t & Ht & _). rewrite Ht. cbn [bind].
  eexists. reflexivity.
Qed.

Variables tau sigma : list Q.
Hypothesis Htau : length tau = h * w.
Hypothesis Hsigma : length sigma = N + h * w.

Lemma primal_update_ok_b (s : state) :
  state_ok n h w s ->
  exists u, primal_update self X tau s = Ok u /\ has_shape u h w.
Proof using All.
  intros [Hres Hdual]. unfold primal_update.
  destruct HX as (X1 & X2 & _ & _). rewrite X1, X2.
  destruct (dual_blocks_b (dual s) Hdual) as [D1 D2]. rewrite D1, D2.
  assert (Hf : length (firstn N (dual s)) = N)
    by (rewrite length_firstn; lia).
  assert (Hs : length (skipn N (dual s)) = h * w)
    by (rewrite length_skipn; lia).
  destruct (ttv_ok_b _ Hf) as (tt & Htt & Hlen). rewrite Htt. cbn [bind].
  rewrite broadcast_same by (now rewrite scale_length, Hlen, Hs).
  cbn [bind].
  rewrite broadcast_same
    by (now rewrite map2_length, scale_length, Hlen, Hs, Htau, Nat.min_id).
  cbn [bind].
  destruct (@reshape_ok
              (Np.map2 Qmult tau
                 (Np.map2 Qplus tt
                    (Np.scale (lambd self) (skipn N (dual s))))) h w)
    as (r & Hr & Hshape).
  { rewrite !map2_length, scale_length, Hlen, Hs, Htau. lia. }
  rewrite Hr. cbn [bind]. eexists. split; [reflexivity|].
  destruct (saturation self).
  - apply has_shape_map. now apply has_shape_map2.
  - now apply has_shape_map2.
Qed.

Lemma loop_body_ok_b (s : state) :
  state_ok n h w s ->
  exists s' diff,
    loop_body self X tau sigma s = Ok (s', diff) /\ state_ok n h w s'.
Proof using All.
  intros Hs. assert (Hs' := Hs). destruct Hs' as [Hres Hdual].
  unfold loop_body.
  destruct (primal_update_ok_b Hs) as (u & Hu & Hshape). rewrite Hu.
  cbn [bind].
  assert (HX' := HX). destruct HX' as (X1 & X2 & _ & _). rewrite X1, X2.
  destruct (dual_blocks_b sigma Hsigma) as [S1 S2]. rewrite S1, S2.
  set (bar_u := map2_nd Qminus (map_nd (Qmult 2) u) (res s)).
  assert (Hbar : has_shape bar_u h w)
    by (apply has_shape_map2; [now apply has_shape_map|exact Hres]).
  destruct (tv_ok_b Hbar) as (t & Ht & Hlen). rewrite Ht. cbn [bind].
  assert (Hf : length (firstn N sigma) = N)
    by (rewrite length_firstn; lia).
  assert (Hk : length (skipn N sigma) = h * w)
    by (rewrite length_skipn; lia).
  rewrite broadcast_same by (now rewrite Hf, Hlen). cbn [bind].
  destruct sizes_b as (Hp & _).
  rewrite (@iadd_inside (dual s) _ 0).
  2: reflexivity.
  2: { cbn [Np.stop_of]. rewrite <- Nat2Z.inj_mul, bound_opp by exact Hp.
       rewrite map2_length, Hf, Hlen, Hdual. lia. }
  cbn [bind].
  rewrite broadcast_same.
  2: { rewrite length_map, Hk.
       symmetry. apply has_shape_flatten. now apply has_shape_map2. }
  cbn [bind].
  set (d1 := add_at (dual s) 0 (Np.map2 Qmult (firstn N sigma) t)).
  assert (Hd1 : length d1 = N + h * w).
  { unfold d1. rewrite add_at_length; [exact Hdual|].
    rewrite map2_length, Hf, Hlen, Hdual. lia. }
  set (sd := Np.map2 Qmult
               (map (fun x => (x * lambd self)%Q) (skipn N sigma))
               (flatten (map2_nd Qminus bar_u X))).
  assert (Hsd : length sd = h * w).
  { unfold sd. rewrite map2_length, length_map, Hk.
    rewrite (@has_shape_flatten _ h w) by (now apply has_shape_map2).
    apply Nat.min_id. }
  rewrite (@iadd_inside d1 _ N).
  2: { cbn [Np.start_of]. rewrite <- Nat2Z.inj_mul, bound_opp by exact Hp.
       rewrite Hd1. lia. }
  2: { cbn [Np.stop_of]. now rewrite Hd1, Hsd. }
  cbn [bind].
  destruct (@record_objective_ok_b u (obj s) Hshape) as (o' & Ho).
  rewrite Ho. cbn [bind]. eexists. eexists. split; [reflexivity|].
  split; cbn [res dual]; [exact Hshape|].
  rewrite clip_length, add_at_length; [exact Hd1|]. rewrite Hd1, Hsd. lia.
Qed.

Variable sqrt : Q -> Q.

Lemma main_loop_ok_b (m : nat) (s : state) :
  state_ok n h w s ->
  exists s', main_loop self sqrt m X tau sigma s = Ok s'.
Proof using All.
  revert s. induction m as [|m IH]; intros s Hs; cbn [main_loop].
  - eexists. reflexivity.
  - destruct (loop_body_ok_b Hs) as (s' & diff & Hb & Hs'). rewrite Hb.
    cbn [bind]. destruct (converged self sqrt diff (res s')).
    + eexists. reflexivity.
    + apply IH, Hs'.
Qed.

End Boundary.

Lemma initialize_ok_b (self : TotalVariation) (n h w : nat) (X : ndarray2) :
  self_length self = Z.of_nat n -> length (coef self) = S n ->
  1 <= n -> n <= h -> n <= w -> has_shape X h w ->
  exists tau sigma s,
    initialize self X = Ok (tau, sigma, s) /\
    length tau = h * w /\
    length sigma = h * (w - n) + (h - n) * w + h * w /\
    state_ok n h w s.
Proof.
  intros HL Hcoef Hn Hh Hw HX.
  set (N := h * (w - n) + (h - n) * w).
  destruct (@step_size_ok_b self n h w HL Hcoef Hn Hh Hw)
    as (tau & sigma & Hstep & Htau & Hsigma).
  fold N in Hsigma.
  destruct (@tv_ok_b self n h w HL Hcoef Hn Hh Hw X HX) as (t & Ht & Hlen).
  fold N in Hlen.
  destruct (@dual_blocks_b self n h w HL Hcoef Hn Hh Hw sigma Hsigma)
    as [S1 _].
  fold N in S1.
  destruct (@sizes_b self n h w HL Hcoef Hn Hh Hw) as (Hp & _ & _ & Esize).
  fold N in Esize.
  assert (Hf : length (firstn N sigma) = N) by (rewrite length_firstn; lia).
  set (st := Np.clip (Np.map2 Qmult (firstn N sigma) t) (-1) 1).
  assert (Hst : length st = N).
  { unfold st. rewrite clip_length, map2_length, Hf, Hlen. apply Nat.min_id. }
  destruct (@record_objective_ok_b self n h w HL Hcoef Hn Hh Hw X HX X [] HX)
    as (o & Ho).
  exists tau, sigma, (mk_state X (st ++ repeat 0%Q (h * w)) o).
  split; [|split; [exact Htau|split; [exact Hsigma|]]].
  - unfold initialize.
    assert (HX' := HX). destruct HX' as (X1 & X2 & _ & _). rewrite X1, X2.
    rewrite Hstep. cbn [bind]. rewrite Hcoef.
    unfold Np.zeros, Np.full.
    replace (3 * Z.of_nat h * Z.of_nat w
             - (Z.of_nat (S n) - 1) * (Z.of_nat h + Z.of_nat w))%Z
      with (Z.of_nat (N + h * w))
      by (rewrite <- Esize; rewrite Nat2Z.inj_succ; ring).
    destruct (Z.ltb_spec (Z.of_nat (N + h * w)) 0) as [Hneg|_];
      [exfalso; revert Hneg; apply Z.le_ngt, Nat2Z.is_nonneg|].
    cbn [bind]. rewrite Nat2Z.id, Ht. cbn [bind]. rewrite S1.
    rewrite broadcast_same by (now rewrite Hf, Hlen). cbn [bind].
    fold st.
    rewrite (@assign_inside (repeat 0%Q (N + h * w)) st 0).
    2: reflexivity.
    2: { cbn [Np.stop_of]. rewrite <- Nat2Z.inj_mul, bound_opp by exact Hp.
         rewrite repeat_length, Hst. lia. }
    cbn [bind firstn app Nat.add]. rewrite Hst, Ho. cbn [bind].
    rewrite repeat_app, skipn_app, repeat_length, Nat.sub_diag.
    rewrite skipn_all2 by (rewrite repeat_length; lia).
    reflexivity.
  - split; cbn [res dual]; [exact HX|].
    now rewrite length_app, Hst, repeat_length.
Qed.

(** X23: For a solver whose [length] is [len(coef) - 1 >= 1] and a
    non-empty rectangular image, [transform] returns exactly when both
    dimensions are at least [length] (a dimension equal to [length] is
    accepted), and raises [ValueError] otherwise. *)
Theorem transform_returns_iff (self : TotalVariation) (sqrt : Q -> Q)
    (n : nat) (X : ndarray2) :
  self_length self = Z.of_nat n -> length (coef self) = S n -> 1 <= n ->
  wf_ndarray2 X -> 1 <= nrows X -> 1 <= ncols X ->
  ((exists r o, transform self sqrt X = Ok (r, o))
   <-> n <= nrows X /\ n <= ncols X) /\
  (nrows X < n \/ ncols X < n -> transform self sqrt X = Raise ValueError).
Proof.
  intros HL Hcoef Hn Hwf H1 H2.
  assert (HX := wf_has_shape Hwf).
  assert (Hok : n <= nrows X -> n <= ncols X ->
                exists r o, transform self sqrt X = Ok (r, o)).
  { intros Hh Hw.
    destruct (@initialize_ok_b self n _ _ X HL Hcoef Hn Hh Hw HX)
      as (tau & sigma & s & Hinit & Htau & Hsigma & Hs).
    unfold transform. rewrite Hinit. cbn [bind].
    destruct (@main_loop_ok_b self n _ _ HL Hcoef Hn Hh Hw X HX tau sigma
                Htau Hsigma sqrt (Z.to_nat (max_iter self)) s Hs)
      as (s' & Hloop).
    rewrite Hloop. cbn [bind]. eexists. eexists. reflexivity. }
  assert (Hbad : nrows X < n \/ ncols X < n ->
                 transform self sqrt X = Raise ValueError).
  { intros Hsmall.
    assert (Htv : _tv self X = Raise ValueError)
      by (apply (@tv_small_raises self n (nrows X) (ncols X) X);
          assumption).
    unfold transform, initialize.
    destruct (_step_size self (nrows X, ncols X)) as [[tau sigma]|e] eqn:E1;
      cbn [bind]; [|f_equal; eapply step_size_exn, E1].
    destruct (Np.zeros _) eqn:E2; cbn [bind];
      [|f_equal; eapply full_exn, E2].
    rewrite Htv. reflexivity. }
  split; [|exact Hbad]. split.
  - intros (r & o & H).
    destruct (Nat.le_gt_cases n (nrows X)) as [Hh|Hh];
      [destruct (Nat.le_gt_cases n (ncols X)) as [Hw|Hw]|].
    + split; assumption.
    + rewrite Hbad in H by (now right). discriminate.
    + rewrite Hbad in H by (now left). discriminate.
  - intros [Hh Hw]. now apply Hok.
Qed.

Lemma transform_returns_iff_witness :
  ((exists r o,
      transform example_stencil floor_sqrt
        (mk_ndarray2 2 3 [[1; 2; 3]; [4; 5; 6]]%Q) = Ok (r, o))
   <-> 2 <= 2 /\ 2 <= 3) /\
  (exists r o,
     transform example_stencil floor_sqrt
       (mk_ndarray2 2 3 [[1; 2; 3]; [4; 5; 6]]%Q) = Ok (r, o)).
Proof.
  destruct (@transform_returns_iff example_stencil floor_sqrt 2
              (mk_ndarray2 2 3 [[1; 2; 3]; [4; 5; 6]]%Q)) as [H1 _].
  - reflexivity.
  - reflexivity.
  - lia.
  - split; [reflexivity|]. repeat constructor.
  - cbn; lia.
  - cbn; lia.
  - split; [exact H1|]. apply H1. cbn. lia.
Defined.
